(** * SimCLR training and evaluation scripts: a shallow embedding

    The development follows [train.py] (contrastive loss, checkpoint
    manager, training loop, data loader) and [eval_crop_optimized.py]
    (feature extraction to shards, shard loading, classifier dispatch).

    Tensors are nested lists.  Scalars are real numbers: the arithmetic of
    the scripts is read in its exact, real-valued meaning, and the value
    [-inf] used by the diagonal mask is a constructor of its own. *)

From Stdlib Require Import List Arith PeanoNat NArith Lia Bool.
From Stdlib Require Import Reals Lra.
From Stdlib Require Import Permutation Sorted.
From Stdlib Require String Ascii.
From Stdlib Require Import DecimalString DecimalNat Decimal.
Import ListNotations.

(** ** Python built-ins *)

Module Py.

(** Exceptions the scripts can meet. *)
Inductive exn : Type :=
| FileNotFoundError (path : String.string)
| IndexError
| ValueError (text : String.string)
| KeyError (key : String.string)
| UnpicklingError (path : String.string)
| RuntimeError (what : String.string).

(** [range(a, b)] and [enumerate(l)]. *)
Definition range (a b : nat) : list nat := seq a (b - a).

Definition enumerate {A : Type} (l : list A) : list (nat * A) :=
  combine (seq 0 (length l)) l.

End Py.

(** ** Tensor helpers *)

Module Tensor.

Section Generic.
Context {A B C : Type}.

(** Elementwise combination of two tensors of the same leading size. *)
Definition map2 (f : A -> B -> C) (xs : list A) (ys : list B) : list C :=
  map (fun p => f (fst p) (snd p)) (combine xs ys).

(** [rows.view(d0, d1, -1)] on a tensor whose rows are kept whole:
    group [d0] consecutive blocks of [d1] rows.  The inferred last
    dimension is the row width exactly when there are [d0 * d1] rows. *)
Definition view3 (d0 d1 : nat) (rows : list A) : list (list A) :=
  map (fun i => firstn d1 (skipn (i * d1) rows)) (seq 0 d0).

(** [t.repeat(n, 1)]: the rows of [t], [n] times over. *)
Definition tile (n : nat) (rows : list A) : list A :=
  concat (repeat rows n).
End Generic.

(** [torch.sum] and [torch.mean] of a one-dimensional tensor. *)
Definition sum (l : list R) : R := fold_right Rplus 0%R l.

Definition mean (l : list R) : R := (sum l / INR (length l))%R.

(** [torch.eye(n).bool()]. *)
Definition eye (n : nat) : list (list bool) :=
  map (fun i => map (fun j => i =? j) (seq 0 n)) (seq 0 n).

End Tensor.

(** ** Contrastive loss ([nt_xent_loss], train.py) *)

Module Loss.
Import Tensor.

(** A similarity entry after masking: a real, or [-inf]. *)
Inductive ext : Type :=
| Fin (r : R)
| NegInf.

(** [exp] extended to [-inf]. *)
Definition exp_ext (x : ext) : R :=
  match x with
  | Fin r => exp r
  | NegInf => 0%R
  end.

(** [F.softmax] of one row. *)
Definition softmax (row : list ext) : list R :=
  let e := map exp_ext row in
  map (fun x => (x / sum e)%R) e.

(** [t.masked_fill_(mask, v)]. *)
Definition masked_fill (t : list (list ext)) (mask : list (list bool))
  (v : ext) : list (list ext) :=
  map2 (map2 (fun x (m : bool) => if m then v else x)) t mask.

(** [t.gather(1, labels.view(-1, 1)).squeeze()]. *)
Definition gather1 (t : list (list R)) (labels : list nat) : list R :=
  map2 (fun row l => nth l row 0%R) t labels.

Definition eps : R := (1 / 10 ^ 9)%R.

Section NtXent.
(** [torch.nn.CosineSimilarity] applied to two embedding rows. *)
Variable cosine_sim : list R -> list R -> R.

Definition nt_xent_loss (z : list (list R)) (tau : R) : R :=
  let N := length z / 2 in
  let z_expanded := map (fun r => repeat r (2 * N)) z in
  let z_tiled := view3 (2 * N) (2 * N) (tile (2 * N) z) in
  let sim :=
    map2 (map2 (fun a b => Fin (cosine_sim a b / tau))) z_expanded z_tiled in
  let mask := eye (2 * N) in
  let sim := masked_fill sim mask NegInf in
  let sim_softmax := map softmax sim in
  let labels := seq 0 (2 * N) in
  let labels := map (fun l => (l + N) mod (2 * N)) labels in
  let pos_probs := gather1 sim_softmax labels in
  (- mean (map (fun p => ln (p + eps)) pos_probs))%R.

(** *** The loss as the specification words it *)

(** Unnormalised weight of partner [c] for anchor [k]: zero on the
    diagonal, [exp (cos / tau)] elsewhere. *)
Definition weight (z : list (list R)) (tau : R) (k c : nat) : R :=
  if k =? c then 0%R
  else exp (cosine_sim (nth k z []) (nth c z []) / tau).

(** Softmax probability of partner [c] for anchor [k] after masking. *)
Definition prob (z : list (list R)) (tau : R) (k c : nat) : R :=
  (weight z tau k c / sum (map (weight z tau k) (seq 0 (length z))))%R.

(** The positive partner of anchor [k] in a stack of [2 * N] rows. *)
Definition positive (N k : nat) : nat := (k + N) mod (2 * N).

Definition nt_xent_spec (N : nat) (z : list (list R)) (tau : R) : R :=
  (- (sum (map (fun k => ln (prob z tau k (positive N k) + eps))
            (seq 0 (2 * N)))
      / INR (2 * N)))%R.
End NtXent.

(** A cosine similarity of two rows: the dot product over the product of
    the norms, the latter kept away from zero. *)
Definition dot (x y : list R) : R := sum (map2 Rmult x y).

Definition cosine_similarity (x y : list R) : R :=
  (dot x y / Rmax (sqrt (dot x x) * sqrt (dot y y)) (1 / 10 ^ 8))%R.

(** The stack [z] of [N] view-i rows and [N] view-j rows with the sample
    order [p] applied to both blocks: row [k] of either block of the result
    is row [nth k p] of that block of [z]. *)
Definition permute_blocks (N : nat) (p : list nat) (z : list (list R))
  : list (list R) :=
  map (fun i => nth i z []) p ++ map (fun i => nth (N + i) z []) p.

(** Lines 40 to 48 of [nt_xent_loss] on their own: the matrix
    [sim_softmax]. *)
Definition sim_softmax (cosine_sim : list R -> list R -> R)
  (z : list (list R)) (tau : R) : list (list R) :=
  let N := length z / 2 in
  let z_expanded := map (fun r => repeat r (2 * N)) z in
  let z_tiled := view3 (2 * N) (2 * N) (tile (2 * N) z) in
  let sim :=
    map2 (map2 (fun a b => Fin (cosine_sim a b / tau))) z_expanded z_tiled in
  let mask := eye (2 * N) in
  let sim := masked_fill sim mask NegInf in
  map softmax sim.

(** The row of [z] that lands in row [k] of [permute_blocks N p z]. *)
Definition block_index (N : nat) (p : list nat) (k : nat) : nat :=
  if k <? N then nth k p 0 else N + nth (k - N) p 0.

End Loss.

(** ** Python string operations used on file names *)

Module PyStr.
Import String.
Local Open Scope string_scope.

(** [s.endswith(suffix)]. *)
Fixpoint endswith (s suffix : string) : bool :=
  if String.eqb s suffix then true
  else match s with
       | EmptyString => false
       | String _ s' => endswith s' suffix
       end.

(** [s.startswith(p)]. *)
Definition startswith (s p : string) : bool := String.prefix p s.

(** [c in s] for a character [c]. *)
Fixpoint contains (c : Ascii.ascii) (s : string) : bool :=
  match s with
  | EmptyString => false
  | String x s' => Ascii.eqb x c || contains c s'
  end.

(** [s.split(sep)] for a one-character separator. *)
Fixpoint split (sep : Ascii.ascii) (s : string) : list string :=
  match s with
  | EmptyString => [EmptyString]
  | String c s' =>
      if Ascii.eqb c sep then EmptyString :: split sep s'
      else match split sep s' with
           | [] => [String c EmptyString]
           | h :: t => String c h :: t
           end
  end.

(** [int(s)] on a string of decimal digits; [None] stands for the
    [ValueError] raised on a text that has none or has another
    character.  (Python also reads a sign, surrounding blanks,
    digit-group underscores and digits outside ASCII; no file name
    written by the scripts has them, and nothing below relies on [int]
    raising on such a text.) *)
Definition int (s : string) : option nat :=
  option_map Nat.of_uint (NilZero.uint_of_string s).

(** [str(n)], as produced by [format] and by f-strings for an integer. *)
Definition str (n : nat) : string := NilZero.string_of_uint (Nat.to_uint n).

(** [os.path.join(d, name)] for a plain file name. *)
Definition path_join (d name : string) : string :=
  if String.eqb d "" then name
  else if endswith d "/" then d ++ name
  else d ++ "/" ++ name.

(** The order [sorted] puts on strings: by code point, shorter first on a
    common prefix. *)
Definition str_le (a b : string) : bool := String.leb a b.

(** [sorted(l)] as a stable insertion sort. *)
Fixpoint insert_sorted (x : string) (l : list string) : list string :=
  match l with
  | [] => [x]
  | y :: l' => if str_le x y then x :: l else y :: insert_sorted x l'
  end.

Definition sorted (l : list string) : list string :=
  fold_right insert_sorted [] l.

End PyStr.

(** ** Directories *)

Module Fs.
Import String.

Section Files.
Context {F : Type}.

(** Reading the file called [name]. *)
Fixpoint lookup (name : string) (d : list (string * F)) : option F :=
  match d with
  | [] => None
  | (n, f) :: d' => if String.eqb n name then Some f else lookup name d'
  end.

(** Writing a file: replaces the content under an existing name, adds a
    new entry otherwise. *)
Fixpoint write_file (name : string) (f : F) (d : list (string * F))
  : list (string * F) :=
  match d with
  | [] => [(name, f)]
  | (n, g) :: d' =>
      if String.eqb n name then (n, f) :: d'
      else (n, g) :: write_file name f d'
  end.
End Files.

End Fs.

(** ** Checkpoint manager ([save_checkpoint], [load_checkpoint], train.py) *)

Module Checkpoint.
Import String Ascii Py PyStr Fs.
Local Open Scope string_scope.

(** Result of a call that mutates an object in place: it returns, or it
    raises; either way the object is left in the state given. *)
Inductive outcome (X : Type) : Type :=
| Done (x : X)
| Raised (e : exn) (x : X).
Arguments Done {X} x.
Arguments Raised {X} e x.

(** The torch objects the scripts hand around: a module, an optimizer,
    their state dictionaries and the in-place [load_state_dict] of each. *)
Class Torch : Type := {
  Model : Type;
  Optimizer : Type;
  StateDict : Type;
  OptimDict : Type;
  state_dict : Model -> StateDict;
  optim_state_dict : Optimizer -> OptimDict;
  load_state_dict : Model -> StateDict -> outcome Model;
  optim_load_state_dict : Optimizer -> OptimDict -> outcome Optimizer
}.

Declare Scope py_scope.

Section Manager.
Context {T : Torch}.

(** The mapping stored in a checkpoint file; a key may be missing. *)
Record checkpoint : Type := {
  ck_epoch : option nat;
  ck_state_dict : option StateDict;
  ck_optimizer : option OptimDict
}.

(** A file of the checkpoint directory: a pickled mapping, or bytes
    that [torch.load] rejects. *)
Inductive file : Type :=
| Pickle (c : checkpoint)
| Corrupt.

(** Directory content in [os.listdir] order; [None] is a directory that
    does not exist. *)
Definition directory : Type := list (string * file).

Inductive message : Type :=
| NoCheckpointsFound (checkpoint_dir : string)
| LoadingCheckpoint (path : string)
| LoadedCheckpoint (path : string) (epoch : nat)
| ErrorLoadingCheckpoint (e : exn).

(** What [load_checkpoint] can change: the two objects it is given, and
    standard output. *)
Record world : Type := {
  w_model : Model;
  w_optimizer : Optimizer;
  w_stdout : list message
}.

(** *** Exceptions over mutable state *)

Definition M (A : Type) : Type := world -> (exn + A) * world.

Definition ret {A} (a : A) : M A := fun w => (inr a, w).

Definition bind {A B} (c : M A) (k : A -> M B) : M B :=
  fun w => match c w with
           | (inl e, w') => (inl e, w')
           | (inr a, w') => k a w'
           end.

Definition raise {A} (e : exn) : M A := fun w => (inl e, w).

(** [try: body  except Exception as e: handler e]. *)
Definition try_except {A} (body : M A) (handler : exn -> M A) : M A :=
  fun w => match body w with
           | (inl e, w') => handler e w'
           | r => r
           end.

Definition print (m : message) : M unit :=
  fun w => (inr tt, {| w_model := w_model w;
                       w_optimizer := w_optimizer w;
                       w_stdout := w_stdout w ++ [m] |}).

(** [d[key]] on a mapping. *)
Definition getitem {A} (key : string) (v : option A) : M A :=
  match v with
  | Some a => ret a
  | None => raise (KeyError key)
  end.

(** [model.load_state_dict(sd)] and [optimizer.load_state_dict(od)]. *)
Definition model_load (sd : StateDict) : M unit :=
  fun w => match load_state_dict (w_model w) sd with
           | Done m => (inr tt, {| w_model := m;
                                   w_optimizer := w_optimizer w;
                                   w_stdout := w_stdout w |})
           | Raised e m => (inl e, {| w_model := m;
                                      w_optimizer := w_optimizer w;
                                      w_stdout := w_stdout w |})
           end.

Definition optimizer_load (od : OptimDict) : M unit :=
  fun w => match optim_load_state_dict (w_optimizer w) od with
           | Done o => (inr tt, {| w_model := w_model w;
                                   w_optimizer := o;
                                   w_stdout := w_stdout w |})
           | Raised e o => (inl e, {| w_model := w_model w;
                                      w_optimizer := o;
                                      w_stdout := w_stdout w |})
           end.

(** *** The file system side *)

(** [os.listdir(checkpoint_dir)]. *)
Definition listdir (checkpoint_dir : string) (fs : option directory)
  : M (list string) :=
  match fs with
  | Some d => ret (map fst d)
  | None => raise (FileNotFoundError checkpoint_dir)
  end.

(** [torch.load(os.path.join(checkpoint_dir, name))]. *)
Definition torch_load (checkpoint_dir name : string)
  (fs : option directory) : M checkpoint :=
  match fs with
  | None => raise (FileNotFoundError (path_join checkpoint_dir name))
  | Some d =>
      match lookup name d with
      | Some (Pickle c) => ret c
      | Some Corrupt => raise (UnpicklingError (path_join checkpoint_dir name))
      | None => raise (FileNotFoundError (path_join checkpoint_dir name))
      end
  end.

(** [filename.format(epoch=epoch)] for the default [filename]. *)
Definition checkpoint_name (epoch : nat) : string :=
  "checkpoint_" ++ str epoch ++ ".pth.tar".

Definition save_checkpoint (state : checkpoint) (epoch : nat)
  (fs : option directory) : option directory :=
  let d := match fs with Some d => d | None => [] end in
  Some (write_file (checkpoint_name epoch) (Pickle state) d).

(** *** Selection of the latest checkpoint *)

(** [lambda x: int(x.split('_')[1].split('.')[0])]. *)
Definition epoch_key (x : string) : exn + nat :=
  match nth_error (split "_"%char x) 1 with
  | None => inl IndexError
  | Some t =>
      match int (hd "" (split "."%char t)) with
      | Some n => inr n
      | None => inl (ValueError "invalid literal for int() with base 10")
      end
  end.

(** A letter of the ASCII alphabet. *)
Definition is_letter (c : ascii) : bool :=
  let n := nat_of_ascii c in
  ((65 <=? n)%nat && (n <=? 90)%nat) || ((97 <=? n)%nat && (n <=? 122)%nat).

(** File names in which the key of line 96 finds no epoch number: no
    [_] at all, so that [split('_')[1]] raises [IndexError]; or, between
    the first [_] and the next [.], no text or a text with a letter, on
    which [int] raises [ValueError]. *)
Definition no_epoch_number (x : string) : bool :=
  match nth_error (split "_"%char x) 1 with
  | None => true
  | Some t =>
      match hd "" (split "."%char t) with
      | EmptyString => true
      | field => existsb is_letter (list_ascii_of_string field)
      end
  end.

(** [max(l, key=key)] continued from a current best: a later element
    replaces it only when its key is strictly larger. *)
Fixpoint max_from (key : string -> exn + nat) (best : string)
  (best_key : nat) (l : list string) : exn + string :=
  match l with
  | [] => inr best
  | x :: l' =>
      match key x with
      | inl e => inl e
      | inr k =>
          if (best_key <? k)%nat then max_from key x k l'
          else max_from key best best_key l'
      end
  end.

Definition py_max (key : string -> exn + nat) (l : list string)
  : exn + string :=
  match l with
  | [] => inl (ValueError "max() arg is an empty sequence")
  | x :: l' =>
      match key x with
      | inl e => inl e
      | inr k => max_from key x k l'
      end
  end.

Definition lift {A} (r : exn + A) : M A :=
  match r with
  | inl e => raise e
  | inr a => ret a
  end.

Local Notation "x <- c ;; k" := (bind c (fun x => k))
  (at level 61, c at next level, right associativity) : py_scope.
Local Notation "c ;;; k" := (bind c (fun _ => k))
  (at level 61, right associativity) : py_scope.
Local Open Scope py_scope.

(** Lines 97 to 105: restoring from the selected file. *)
Definition restore (checkpoint_dir latest_checkpoint : string)
  (fs : option directory) : M nat :=
  let latest_checkpoint_path :=
    path_join checkpoint_dir latest_checkpoint in
  print (LoadingCheckpoint latest_checkpoint_path) ;;;
  checkpoint <- torch_load checkpoint_dir latest_checkpoint fs ;;
  sd <- getitem "state_dict" (ck_state_dict checkpoint) ;;
  model_load sd ;;;
  od <- getitem "optimizer" (ck_optimizer checkpoint) ;;
  optimizer_load od ;;;
  epoch <- getitem "epoch" (ck_epoch checkpoint) ;;
  print (LoadedCheckpoint latest_checkpoint_path epoch) ;;;
  ret epoch.

Definition load_checkpoint (checkpoint_dir : string)
  (fs : option directory) : M nat :=
  try_except
    (names <- listdir checkpoint_dir fs ;;
     let checkpoints :=
       filter (fun chkpt => endswith chkpt ".pth.tar") names in
     match checkpoints with
     | [] =>
         print (NoCheckpointsFound checkpoint_dir) ;;;
         ret 0
     | _ =>
         latest_checkpoint <- lift (py_max epoch_key checkpoints) ;;
         restore checkpoint_dir latest_checkpoint fs
     end)
    (fun e =>
       print (ErrorLoadingCheckpoint e) ;;;
       ret 0).

(** The files of a directory, none when it does not exist. *)
Definition dir_of (fs : option directory) : directory :=
  match fs with
  | Some d => d
  | None => []
  end.

(** *** Directories of save files *)

(** Every [.pth.tar] file of the directory was written by
    [save_checkpoint] under its default file name. *)
Definition save_files_only (d : directory) : Prop :=
  forall n, In n (map fst d) -> endswith n ".pth.tar" = true ->
            exists e, n = checkpoint_name e.

(** [e] is the largest epoch number among the file names. *)
Definition largest_epoch (d : directory) (e : nat) : Prop :=
  In (checkpoint_name e) (map fst d)
  /\ forall e', In (checkpoint_name e') (map fst d) -> e' <= e.

(** A step of [restore] after the module's [load_state_dict] raises:
    the optimizer entry is missing or its [load_state_dict] raises, or
    the epoch entry is missing. *)
Definition later_step_raises (c : checkpoint) (o : Optimizer) : Prop :=
  match ck_optimizer c with
  | None => True
  | Some od =>
      match optim_load_state_dict o od with
      | Raised _ _ => True
      | Done _ => ck_epoch c = None
      end
  end.
End Manager.

(** A small instance: a module and an optimizer whose whole state is one
    number; an optimizer dictionary may be unusable. *)
Definition counter_torch : Torch := {|
  Model := nat;
  Optimizer := nat;
  StateDict := nat;
  OptimDict := option nat;
  state_dict := fun m => m;
  optim_state_dict := fun o => Some o;
  load_state_dict := fun _ sd => Done sd;
  optim_load_state_dict := fun o od =>
    match od with
    | Some o' => Done o'
    | None => Raised (ValueError "unusable optimizer state") o
    end
|}.

Definition counter_checkpoint (epoch m : nat) (o : option nat)
  : @checkpoint counter_torch :=
  @Build_checkpoint counter_torch (Some epoch) (Some m) (Some o).

Definition sample_dir : string := "ckpt".

(** *** Modules with named tensors *)

Section Strict.
(** A module of a fixed architecture: [arch] names its parameters and
    buffers, and the module is the list of its tensors in that order. *)
Variable Tensor : Type.
Variable arch : list string.

(** [m.state_dict()]. *)
Definition module_state_dict (m : list Tensor) : list (string * Tensor) :=
  combine arch m.

(** [DDP(m).state_dict()]: the wrapper holds [m] as its attribute
    [module], so every key of [m] comes back under the prefix
    [module.]. *)
Definition ddp_module_state_dict (m : list Tensor)
  : list (string * Tensor) :=
  map (fun kv => ("module." ++ fst kv, snd kv)) (module_state_dict m).

(** [m.load_state_dict(sd)], which is strict: the entries of [sd] under
    keys of [m] are copied into [m]; then a key of [m] that [sd] lacks,
    or a key of [sd] that [m] lacks, raises. *)
Definition strict_load_state_dict (m : list Tensor)
  (sd : list (string * Tensor)) : outcome (list Tensor) :=
  let m' :=
    map (fun kv => match lookup (fst kv) sd with
                   | Some v => v
                   | None => snd kv
                   end) (module_state_dict m) in
  let missing_keys :=
    filter (fun k => negb (existsb (String.eqb k) (map fst sd))) arch in
  let unexpected_keys :=
    filter (fun k => negb (existsb (String.eqb k) arch)) (map fst sd) in
  match missing_keys, unexpected_keys with
  | [], [] => Done m'
  | _, _ => Raised (RuntimeError "Error(s) in loading state_dict") m'
  end.

(** Such modules with an optimizer whose state is one number. *)
Definition strict_torch : Torch := {|
  Model := list Tensor;
  Optimizer := nat;
  StateDict := list (string * Tensor);
  OptimDict := nat;
  state_dict := module_state_dict;
  optim_state_dict := fun o => o;
  load_state_dict := strict_load_state_dict;
  optim_load_state_dict := fun _ od => Done od
|}.
End Strict.

(** An encoder with one tensor in the backbone and two in the head, each
    tensor one number. *)
Definition small_arch : list string :=
  ["base.0.weight"; "projection_head.0.weight"; "projection_head.0.bias"].

Definition small_torch : Torch := strict_torch nat small_arch.

Definition small_world (m : list nat) (o : nat) (out : list message)
  : @world small_torch :=
  @Build_world small_torch m o out.

Definition counter_world (m o : nat) (out : list message)
  : @world counter_torch :=
  @Build_world counter_torch m o out.

End Checkpoint.

(** ** Training loop ([train], train.py) *)

Module Train.
Import Py Checkpoint.

Section Loop.
Context {T : Torch}.

(** A batch as the loader yields it. *)
Variable Batch : Type.

(** One batch of work up to [optimizer.step()]: zero the gradients,
    augment twice, encode, evaluate the loss, back-propagate, step. *)
Variable train_step :
  nat -> nat -> Batch -> Model * Optimizer -> Model * Optimizer.

(** [DDP(m).state_dict()]: the state dictionary of the
    [DistributedDataParallel] wrapper that line 114 puts around the
    module [m]; line 139 saves the wrapper's dictionary. *)
Variable ddp_state_dict : Model -> StateDict.

(** What the loop changes: module, optimizer, checkpoint directory, and
    the global steps handed to [writer.add_scalar]. *)
Record state : Type := {
  t_model : Model;
  t_optimizer : Optimizer;
  t_fs : option directory;
  t_scalars : list nat
}.

(** Body of the inner [for] loop. *)
Definition batch_body (len_loader epoch : nat) (st : state)
  (ib : nat * Batch) : state :=
  let '(batch_idx, images) := ib in
  let '(m, o) :=
    train_step epoch batch_idx images (t_model st, t_optimizer st) in
  let scalars := t_scalars st ++ [epoch * len_loader + batch_idx] in
  let fs :=
    if batch_idx mod 100 =? 0 then
      save_checkpoint
        {| ck_epoch := Some (epoch + 1);
           ck_state_dict := Some (ddp_state_dict m);
           ck_optimizer := Some (optim_state_dict o) |}
        epoch (t_fs st)
    else t_fs st in
  {| t_model := m; t_optimizer := o; t_fs := fs; t_scalars := scalars |}.

(** The two nested loops of [train].  The loader is taken as the list
    of batches of one pass; [len(train_loader)] is its length, the same
    for every pass.  (A shuffling loader draws other batches in each
    pass, and the augmentations inside [train_step] are random: what is
    proved of [train] concerns the iterations made, the steps logged and
    the files written, not the tensors.) *)
Definition train (epochs start_epoch : nat) (train_loader : list Batch)
  (st : state) : state :=
  fold_left
    (fun st epoch =>
       fold_left (batch_body (length train_loader) epoch)
         (enumerate train_loader) st)
    (range start_epoch epochs) st.

(** The iterations of [train] in execution order, and the loop run over
    any sequence of iterations.  A process that dies between two
    iterations has run a prefix of [iterations]. *)
Definition iterations (epochs start_epoch : nat) (train_loader : list Batch)
  : list (nat * (nat * Batch)) :=
  flat_map (fun epoch => map (pair epoch) (enumerate train_loader))
    (range start_epoch epochs).

Definition run (len_loader : nat) (its : list (nat * (nat * Batch)))
  (st : state) : state :=
  fold_left (fun st it => batch_body len_loader (fst it) st (snd it)) its st.

(** [start_epoch = load_checkpoint(...)] followed by [train]: the
    iterations a restarted process executes. *)
Definition resumed_iterations (checkpoint_dir : String.string)
  (epochs : nat) (train_loader : list Batch) (fs : option directory)
  (w : world) : list (nat * (nat * Batch)) :=
  match fst (load_checkpoint checkpoint_dir fs w) with
  | inr start_epoch => iterations epochs start_epoch train_loader
  | inl _ => []
  end.

(** *** What a run leaves in the checkpoint directory *)

(** Every file is a save file of an epoch up to [e]; the file of epoch
    [e'] stores the epoch value [e' + 1]. *)
Definition written_up_to (e : nat) (fs : option directory) : Prop :=
  match fs with
  | None => True
  | Some d =>
      NoDup (map fst d)
      /\ forall n f, In (n, f) d ->
           exists e' m o,
             e' <= e /\ n = checkpoint_name e'
             /\ f = Pickle {| ck_epoch := Some (e' + 1);
                              ck_state_dict := Some (ddp_state_dict m);
                              ck_optimizer := Some (optim_state_dict o) |}
  end.

Definition has_epoch_file (e : nat) (fs : option directory) : Prop :=
  exists d, fs = Some d /\ In (checkpoint_name e) (map fst d).

End Loop.

(** A step on the small encoder: every tensor and the optimizer's count
    advance by one. *)
Definition small_step (epoch batch_idx images : nat)
  (mo : @Model small_torch * @Optimizer small_torch)
  : @Model small_torch * @Optimizer small_torch :=
  (map S (fst mo), S (snd mo)).

Definition small_ddp : @Model small_torch -> @StateDict small_torch :=
  ddp_module_state_dict nat small_arch.

Definition small_start : @state small_torch :=
  @Build_state small_torch [0; 0; 0] 0 None [].

End Train.

(** ** Data loaders ([get_data_loaders] of both scripts) *)

Module Loader.

(** [torch.utils.data.DataLoader]: the arguments the scripts set. *)
Record DataLoader (A : Type) : Type := {
  dataset : list A;
  batch_size : nat;
  shuffle : bool;
  drop_last : bool
}.
Arguments dataset {A} _.
Arguments batch_size {A} _.
Arguments shuffle {A} _.
Arguments drop_last {A} _.

Section Batching.
Context {A : Type}.

(** The batches of a sample sequence: consecutive groups of [bs]
    samples, then the remaining samples as a shorter batch unless
    [drop] is set or nothing remains. *)
Definition batches (bs : nat) (drop : bool) (samples : list A)
  : list (list A) :=
  let full := length samples / bs in
  let whole :=
    map (fun i => firstn bs (skipn (i * bs) samples)) (seq 0 full) in
  let rest := skipn (full * bs) samples in
  match rest with
  | [] => whole
  | _ => if drop then whole else whole ++ [rest]
  end.

(** One pass over a loader; [sampler] is the order a shuffling loader
    draws for the pass. *)
Definition iterate (sampler : list A -> list A) (dl : DataLoader A)
  : list (list A) :=
  batches (batch_size dl) (drop_last dl)
    (if shuffle dl then sampler (dataset dl) else dataset dl).

(** train.py: batch size 256, shuffling, [drop_last] left at its
    default. *)
Definition train_get_data_loaders (train_set test_set : list A)
  : DataLoader A * DataLoader A :=
  ({| dataset := train_set; batch_size := 256; shuffle := true;
      drop_last := false |},
   {| dataset := test_set; batch_size := 256; shuffle := true;
      drop_last := false |}).

Definition BATCH : nat := 32.

(** eval_crop_optimized.py: batch size [BATCH], [drop_last=True]. *)
Definition eval_get_data_loaders (train_set test_set : list A)
  : DataLoader A * DataLoader A :=
  ({| dataset := train_set; batch_size := BATCH; shuffle := true;
      drop_last := true |},
   {| dataset := test_set; batch_size := BATCH; shuffle := false;
      drop_last := true |}).
End Batching.

End Loader.

(** ** Feature extraction and shard loading (eval_crop_optimized.py) *)

Module Extract.
Import String.
Import Datatypes List.
Import Py PyStr Fs Tensor.
Local Open Scope string_scope.

(** A saved array: a feature matrix or a label vector. *)
Inductive npy : Type :=
| Features (rows : list (list R))
| Labels (ids : list nat).

Definition directory : Type := list (string * npy).

(** [t.mean(dim=1)] on the block of one sample: the mean, coordinate by
    coordinate, of its rows. *)
Definition mean_rows (g : list (list R)) : list R :=
  map (fun d => mean (map (fun r => nth d r 0%R) g))
    (seq 0 (length (hd [] g))).

(** The same in the words of the specification. *)
Definition elementwise_mean (vs : list (list R)) : list R :=
  map (fun d => (sum (map (fun v => nth d v 0%R) vs) / INR (length vs))%R)
    (seq 0 (length (hd [] vs))).

Section Encoder.
(** An image tensor and the pooled feature map of one image. *)
Variables Img FeatMap : Type.

(** [torch.flatten(_, start_dim=1)] on one row of the batch. *)
Variable flatten : FeatMap -> list R.

(** [SimCLREncoder]: the backbone without its classification layer, and
    the projection head. *)
Record SimCLREncoder : Type := {
  base : list Img -> list FeatMap;
  projection_head : list (list R) -> list (list R)
}.

Definition forward (model : SimCLREncoder) (x : list Img)
  : list (list R) :=
  let x := base model x in
  let x := map flatten x in
  let x := projection_head model x in
  x.

(** One element of the loader: images of shape [batch, num_img, ...],
    the labels and the plate identifiers. *)
Record batch : Type := {
  images : list (list Img);
  fine_grained : list nat;
  experiment_plate_id : list nat
}.

(** Lines 90 to 98: from the image batch to one feature row per
    sample. *)
Definition aggregated_features (model : SimCLREncoder)
  (images : list (list Img)) : list (list R) :=
  let batch_size := length images in
  let num_img := length (hd [] images) in
  let images := concat images in
  let output := base model images in
  let output := map flatten output in
  let output := view3 batch_size num_img output in
  map mean_rows output.

Definition features_name (split_name : string) (i : nat) : string :=
  split_name ++ "_features_batch_" ++ str i ++ ".npy".

Definition labels_name (split_name : string) (i : nat) : string :=
  split_name ++ "_labels_batch_" ++ str i ++ ".npy".

(** Body of the loop of [extract_features_and_labels]. *)
Definition extract_body (model : SimCLREncoder) (split_name : string)
  (fs : directory) (ib : nat * batch) : directory :=
  let '(i, b) := ib in
  let features_cpu := aggregated_features model (images b) in
  let labels_cpu := fine_grained b in
  let fs :=
    write_file (features_name split_name i) (Features features_cpu) fs in
  write_file (labels_name split_name i) (Labels labels_cpu) fs.

Definition extract_features_and_labels (model : SimCLREncoder)
  (loader : list batch) (save_dir : directory) (split_name : string)
  : directory :=
  fold_left (extract_body model split_name) (enumerate loader) save_dir.

(** The two files one batch leaves behind. *)
Definition shards (model : SimCLREncoder) (split_name : string)
  (ib : nat * batch) : directory :=
  [(features_name split_name (fst ib),
    Features (aggregated_features model (images (snd ib))));
   (labels_name split_name (fst ib), Labels (fine_grained (snd ib)))].

(** The per-sample feature matrix and label vector of a split before
    they are written: the batches in loader order. *)
Definition feature_matrix (model : SimCLREncoder) (loader : list batch)
  : list (list R) :=
  concat (map (fun b => aggregated_features model (images b)) loader).

Definition label_vector (loader : list batch) : list nat :=
  concat (map fine_grained loader).

Definition no_batch : batch :=
  {| images := []; fine_grained := []; experiment_plate_id := [] |}.

(** The same with the batches taken in the order [order]. *)
Definition feature_matrix_in (model : SimCLREncoder) (loader : list batch)
  (order : list nat) : list (list R) :=
  concat (map (fun i => aggregated_features model
                          (images (nth i loader no_batch))) order).

Definition label_vector_in (loader : list batch) (order : list nat)
  : list nat :=
  concat (map (fun i => fine_grained (nth i loader no_batch)) order).
End Encoder.

Arguments base {Img FeatMap} _ _.
Arguments projection_head {Img FeatMap} _ _.
Arguments Build_SimCLREncoder {Img FeatMap} _ _.
Arguments images {Img} _.
Arguments fine_grained {Img} _.
Arguments experiment_plate_id {Img} _.
Arguments Build_batch {Img} _ _ _.
Arguments forward {Img FeatMap} _ _ _.
Arguments aggregated_features {Img FeatMap} _ _ _.
Arguments extract_body {Img FeatMap} _ _ _ _ _.
Arguments extract_features_and_labels {Img FeatMap} _ _ _ _ _.
Arguments shards {Img FeatMap} _ _ _ _.
Arguments feature_matrix {Img FeatMap} _ _ _.
Arguments label_vector {Img} _.
Arguments no_batch {Img}.
Arguments feature_matrix_in {Img FeatMap} _ _ _ _.
Arguments label_vector_in {Img} _ _.

(** A small encoder and loader: images that are one number each, with
    the identity as backbone. *)
Definition pixel_encoder : SimCLREncoder nat nat :=
  {| base := fun l => l; projection_head := fun x => x |}.

Definition pixel_flatten (v : nat) : list R := [INR v].

Definition pixel_loader : list (batch nat) :=
  map (fun k => {| images := [[k; k + 1; k + 2; k + 3];
                              [k + 4; k + 5; k + 6; k + 7]];
                   fine_grained := [k; k + 1];
                   experiment_plate_id := [0; 0] |}) (seq 0 3).

(** [n] batches of one sample of one single-pixel image: batch [i]
    holds the pixel [i] and the label [i]. *)
Definition numbered_loader (n : nat) : list (batch nat) :=
  map (fun i => {| images := [[i]];
                   fine_grained := [i];
                   experiment_plate_id := [0] |}) (seq 0 n).

(** The loader's default collation: the samples of one batch, each
    (images, label, plate), become one [batch]. *)
Definition collate {Img : Type} (samples : list (list Img * nat * nat))
  : batch Img :=
  {| images := map (fun x => fst (fst x)) samples;
     fine_grained := map (fun x => snd (fst x)) samples;
     experiment_plate_id := map snd samples |}.

(** The part of a shard name that follows the split tag and the kind. *)
Definition shard_suffix (i : nat) : string := str i ++ ".npy".

(** The order of the batch indices as their names spell them, without
    padding: the string order of the decimal numerals, in which 10
    comes before 2. *)
Definition index_lt (i j : nat) : Prop := String.ltb (str i) (str j) = true.

(** No file of the directory carries a shard name of the split. *)
Definition fresh_for (split_name : string) (fs : directory) : Prop :=
  forall n, In n (map fst fs) ->
    startswith n (split_name ++ "_features_batch_") = false
    /\ startswith n (split_name ++ "_labels_batch_") = false.

(** [np.concatenate(arrays, axis=0)] on feature matrices and on label
    vectors; [None] stands for the [ValueError] numpy raises on an empty
    sequence (and for a file that is missing or of the other kind). *)
Fixpoint concat_features (l : list (option npy)) : option (list (list R)) :=
  match l with
  | [] => Some []
  | Some (Features rows) :: l' =>
      option_map (app rows) (concat_features l')
  | _ => None
  end.

Fixpoint concat_labels (l : list (option npy)) : option (list nat) :=
  match l with
  | [] => Some []
  | Some (Labels ids) :: l' => option_map (app ids) (concat_labels l')
  | _ => None
  end.

Definition np_concatenate {A : Type}
  (cat : list (option npy) -> option (list A)) (l : list (option npy))
  : option (list A) :=
  match l with
  | [] => None
  | _ => cat l
  end.

Definition load_and_concatenate_features (save_dir : directory)
  (split_name : string) : option (list (list R) * list nat) :=
  let feature_files :=
    sorted (filter (fun f => startswith f (split_name ++ "_features_batch_"))
              (map fst save_dir)) in
  let label_files :=
    sorted (filter (fun f => startswith f (split_name ++ "_labels_batch_"))
              (map fst save_dir)) in
  let features_list := map (fun f => lookup f save_dir) feature_files in
  let labels_list := map (fun f => lookup f save_dir) label_files in
  match np_concatenate concat_features features_list,
        np_concatenate concat_labels labels_list with
  | Some features, Some labels => Some (features, labels)
  | _, _ => None
  end.

End Extract.

(** ** Classifier evaluation ([evaluate_model_incremental]) *)

Module Eval.
Import String.
Import Datatypes List.
Import Py PyStr Fs Tensor Extract.
Local Open Scope string_scope.

(** Calls into scikit-learn and matplotlib, in the order they are made. *)
Inductive event : Type :=
| PartialFit (feat_file label_file : string)
| Predict (feat_file : string)
| Fit
| PredictAll
| Metrics (test_labels predictions : list nat)
| SavePlot (path : string).

Section Classifiers.
(** The two scikit-learn classifiers and the calls made on them. *)
Variables SGDClassifier KNeighborsClassifier : Type.
Variable sgd_new : SGDClassifier.
Variable partial_fit :
  SGDClassifier -> list (list R) -> list nat -> exn + SGDClassifier.
Variable sgd_predict : SGDClassifier -> list (list R) -> exn + list nat.
Variable knn_new : KNeighborsClassifier.
Variable knn_fit :
  KNeighborsClassifier -> list (list R) -> list nat
  -> exn + KNeighborsClassifier.
Variable knn_predict :
  KNeighborsClassifier -> list (list R) -> exn + list nat.
(** The metric calls and their logging (lines 194 to 199) on test
    labels and predictions, and the plotting calls that end in
    [plt.savefig] on a path (lines 202 to 210). *)
Variable compute_metrics : list nat -> list nat -> exn + unit.
Variable savefig : string -> exn + unit.

(** Exceptions over the trace of calls. *)
Definition M (A : Type) : Type := list event -> (exn + A) * list event.

Definition ret {A} (a : A) : M A := fun tr => (inr a, tr).

Definition bind {A B} (c : M A) (k : A -> M B) : M B :=
  fun tr => match c tr with
            | (inl e, tr') => (inl e, tr')
            | (inr a, tr') => k a tr'
            end.

Definition raise {A} (e : exn) : M A := fun tr => (inl e, tr).

Definition emit (ev : event) : M unit :=
  fun tr => (inr tt, (tr ++ [ev])%list).

Definition lift {A} (r : exn + A) : M A :=
  match r with
  | inl e => raise e
  | inr a => ret a
  end.

Local Notation "x <- c ;; k" := (bind c (fun x => k))
  (at level 61, c at next level, right associativity).
Local Notation "c ;;; k" := (bind c (fun _ => k))
  (at level 61, right associativity).

(** [np.load] of a feature shard and of a label shard.  An array of the
    other shape is refused here; the scripts pass it on to the
    classifier call, which refuses it. *)
Definition load_features (d : directory) (f : string) : M (list (list R)) :=
  match lookup f d with
  | Some (Features rows) => ret rows
  | Some (Labels _) => raise (ValueError "expected a 2-D array")
  | None => raise (FileNotFoundError f)
  end.

Definition load_labels (d : directory) (f : string) : M (list nat) :=
  match lookup f d with
  | Some (Labels ids) => ret ids
  | Some (Features _) => raise (ValueError "expected a 1-D array")
  | None => raise (FileNotFoundError f)
  end.

Definition shard_files (d : directory) (prefix : string) : list string :=
  sorted (filter (fun f => startswith f prefix) (map fst d)).

(** The loop that fits shard by shard. *)
Fixpoint fit_incrementally (features_dir labels_dir : directory)
  (classifier : SGDClassifier) (files : list (string * string))
  : M SGDClassifier :=
  match files with
  | [] => ret classifier
  | (feat_file, label_file) :: files' =>
      features <- load_features features_dir feat_file ;;
      labels <- load_labels labels_dir label_file ;;
      emit (PartialFit feat_file label_file) ;;;
      classifier <- lift (partial_fit classifier features labels) ;;
      fit_incrementally features_dir labels_dir classifier files'
  end.

(** The loop that predicts shard by shard, collecting predictions and
    labels. *)
Fixpoint predict_incrementally (features_dir labels_dir : directory)
  (classifier : SGDClassifier) (files : list (string * string))
  : M (list (list nat) * list (list nat)) :=
  match files with
  | [] => ret ([], [])
  | (feat_file, label_file) :: files' =>
      features <- load_features features_dir feat_file ;;
      labels <- load_labels labels_dir label_file ;;
      emit (Predict feat_file) ;;;
      preds <- lift (sgd_predict classifier features) ;;
      r <- predict_incrementally features_dir labels_dir classifier files' ;;
      ret (preds :: fst r, labels :: snd r)
  end.

(** [np.unique] of a list of labels: the values present, ascending. *)
Definition np_unique (l : list nat) : list nat :=
  filter (fun n => existsb (Nat.eqb n) l) (seq 0 (S (list_max l))).

(** The labels one train label shard contributes to [all_classes]. *)
Definition shard_labels (d : directory) (f : string) : list nat :=
  match lookup f d with
  | Some (Labels ids) => ids
  | _ => []
  end.

(** [np.concatenate] of a list of vectors. *)
Definition concatenate (l : list (list nat)) : M (list nat) :=
  match l with
  | [] => raise (ValueError "need at least one array to concatenate")
  | _ => ret (concat l)
  end.

Definition load_all (d : directory) (split_name : string)
  : M (list (list R) * list nat) :=
  match load_and_concatenate_features d split_name with
  | Some r => ret r
  | None => raise (ValueError "need at least one array to concatenate")
  end.

Definition evaluate_model_incremental
  (train_features_dir train_labels_dir test_features_dir
     test_labels_dir : directory)
  (save_dir classifier_type : string) : M unit :=
  r <-
    (if String.eqb classifier_type "logistic" then
       let classifier := sgd_new in
       (* Lines 151 and 152; the call of line 153 that would hand
          [all_classes] to the classifier is commented out. *)
       let train_label_files :=
         shard_files train_labels_dir "train_labels_batch_" in
       let all_classes :=
         np_unique (flat_map (shard_labels train_labels_dir)
                      train_label_files) in
       let train_feature_files :=
         shard_files train_features_dir "train_features_batch_" in
       let train_label_files :=
         shard_files train_labels_dir "train_labels_batch_" in
       classifier <-
         fit_incrementally train_features_dir train_labels_dir classifier
           (combine train_feature_files train_label_files) ;;
       let test_feature_files :=
         shard_files test_features_dir "test_features_batch_" in
       let test_label_files :=
         shard_files test_labels_dir "test_labels_batch_" in
       r <-
         predict_incrementally test_features_dir test_labels_dir classifier
           (combine test_feature_files test_label_files) ;;
       predictions <- concatenate (fst r) ;;
       test_labels <- concatenate (snd r) ;;
       ret (test_labels, predictions)
     else if String.eqb classifier_type "knn" then
       train <- load_all train_features_dir "train" ;;
       test <- load_all test_features_dir "test" ;;
       let classifier := knn_new in
       emit Fit ;;;
       classifier <- lift (knn_fit classifier (fst train) (snd train)) ;;
       emit PredictAll ;;;
       predictions <- lift (knn_predict classifier (fst test)) ;;
       ret (snd test, predictions)
     else
       raise (ValueError
                ("Unsupported classifier type: " ++ classifier_type))) ;;
  emit (Metrics (fst r) (snd r)) ;;;
  lift (compute_metrics (fst r) (snd r)) ;;;
  let plot_path := path_join save_dir "confusion_matrix.png" in
  emit (SavePlot plot_path) ;;;
  lift (savefig plot_path).
End Classifiers.

(** A computation that raises from every trace. *)
Definition fails {A : Type} (c : M A) : Prop :=
  forall tr, exists e, fst (c tr) = inl e.

(** The calls made on the incremental classifier. *)
Definition classifier_call (ev : event) : Prop :=
  match ev with
  | PartialFit _ _ | Predict _ => True
  | _ => False
  end.

(** A computation that raises from every trace after at most one event,
    a classifier call. *)
Definition raises_within {A : Type} (c : M A) : Prop :=
  forall tr, exists e mid,
    c tr = (inl e, (tr ++ mid)%list)
    /\ (mid = [] \/ exists ev, mid = [ev] /\ classifier_call ev).

End Eval.

(** * Properties *)

(** ** List and sum lemmas shared by the proofs *)

Module TensorFacts.
Import Tensor.

Lemma map2_map_map {X A B C : Type} (f : A -> B -> C) (g : X -> A)
  (h : X -> B) (l : list X) :
  map2 f (map g l) (map h l) = map (fun x => f (g x) (h x)) l.
Proof.
  unfold map2. induction l as [|x l IH]; simpl; [reflexivity|].
  now rewrite IH.
Qed.

Lemma map_nth_seq {A B : Type} (f : A -> B) (d : A) (l : list A) :
  map f l = map (fun k => f (nth k l d)) (seq 0 (length l)).
Proof.
  induction l as [|x l IH]; simpl; [reflexivity|].
  f_equal. rewrite <- seq_shift, map_map. exact IH.
Qed.

Lemma skipn_tile {A : Type} (rows : list A) (i g : nat) :
  skipn (i * length rows) (tile (i + g) rows) = tile g rows.
Proof.
  unfold tile. induction i as [|i IH]; simpl; [reflexivity|].
  rewrite skipn_app, skipn_all2 by lia. simpl.
  replace (length rows + i * length rows - length rows) with (i * length rows)
    by lia.
  exact IH.
Qed.

Lemma firstn_tile {A : Type} (rows : list A) (g : nat) :
  firstn (length rows) (tile (S g) rows) = rows.
Proof.
  unfold tile. simpl. rewrite firstn_app, firstn_all, Nat.sub_diag.
  simpl. apply app_nil_r.
Qed.

(** Tiling a stack [g] times and viewing it as [g] blocks of its own height
    gives back [g] copies of the stack. *)
Lemma view3_tile {A : Type} (rows : list A) (g : nat) :
  view3 g (length rows) (tile g rows) = repeat rows g.
Proof.
  unfold view3.
  assert (H : forall i, i < g ->
            firstn (length rows) (skipn (i * length rows) (tile g rows)) = rows).
  { intros i Hi. replace g with (i + S (g - S i)) by lia.
    rewrite skipn_tile. apply firstn_tile. }
  rewrite (map_ext_in _ (fun _ => rows)).
  - clear H. generalize 0. induction g as [|g IH]; intro s; simpl;
      [reflexivity | now rewrite IH].
  - intros i Hi. apply in_seq in Hi. apply H. lia.
Qed.

Lemma map2_repeat_l {A B C : Type} (f : A -> B -> C) (a : A) (l : list B) :
  map2 f (repeat a (length l)) l = map (f a) l.
Proof.
  unfold map2. induction l as [|b l IH]; simpl; [reflexivity|].
  now rewrite IH.
Qed.

Lemma map2_map_repeat {X A B C : Type} (f : A -> B -> C) (g : X -> A)
  (b : B) (l : list X) :
  map2 f (map g l) (repeat b (length l)) = map (fun x => f (g x) b) l.
Proof.
  unfold map2. induction l as [|x l IH]; simpl; [reflexivity|].
  now rewrite IH.
Qed.

Lemma sum_app (l1 l2 : list R) : sum (l1 ++ l2) = (sum l1 + sum l2)%R.
Proof.
  unfold sum. induction l1 as [|x l1 IH]; simpl; [lra|].
  rewrite IH. lra.
Qed.

Lemma nth_map_lt {A B : Type} (f : A -> B) (l : list A) (k : nat) (d : A)
  (d' : B) :
  k < length l -> nth k (map f l) d' = f (nth k l d).
Proof.
  intros Hk. rewrite (@nth_indep _ _ _ d' (f d)) by now rewrite length_map.
  apply map_nth.
Qed.

Lemma list_nth_seq {A : Type} (d : A) (l : list A) :
  l = map (fun k => nth k l d) (seq 0 (length l)).
Proof.
  rewrite <- (map_id l) at 1. apply (map_nth_seq (fun x => x)).
Qed.

Lemma map_add_seq (n s len : nat) :
  map (Nat.add n) (seq s len) = seq (n + s) len.
Proof.
  revert s. induction len as [|len IH]; intro s; simpl; [reflexivity|].
  rewrite IH. do 2 f_equal. lia.
Qed.

Lemma sum_perm (l1 l2 : list R) : Permutation l1 l2 -> sum l1 = sum l2.
Proof.
  unfold sum. induction 1; simpl; lra.
Qed.

End TensorFacts.

(** ** File names *)

Module PyStrFacts.
Import String Ascii PyStr.
Local Open Scope string_scope.

Lemma endswith_refl (s : string) : endswith s s = true.
Proof. destruct s; cbn [endswith]; now rewrite String.eqb_refl. Qed.

Lemma endswith_app (a suffix : string) : endswith (a ++ suffix) suffix = true.
Proof.
  induction a as [|c a IH].
  - apply endswith_refl.
  - change (String c a ++ suffix) with (String c (a ++ suffix)).
    cbn [endswith].
    destruct (String.eqb (String c (a ++ suffix)) suffix); [reflexivity|].
    exact IH.
Qed.

Lemma contains_app (c : ascii) (a b : string) :
  contains c (a ++ b) = contains c a || contains c b.
Proof.
  induction a as [|x a IH]; simpl; [reflexivity|].
  now rewrite IH, orb_assoc.
Qed.

Lemma split_no_sep (c : ascii) (a : string) :
  contains c a = false -> split c a = [a].
Proof.
  induction a as [|x a IH]; simpl; [reflexivity|].
  intros H. apply orb_false_iff in H as [Hx Ha].
  now rewrite Hx, (IH Ha).
Qed.

Lemma split_at_sep (c : ascii) (a b : string) :
  contains c a = false -> split c (a ++ String c b) = a :: split c b.
Proof.
  induction a as [|x a IH]; simpl.
  - intros _. now rewrite Ascii.eqb_refl.
  - intros H. apply orb_false_iff in H as [Hx Ha].
    now rewrite Hx, (IH Ha).
Qed.

(** Decimal numerals hold digits only. *)
Lemma digits_only (c : ascii) (d : Decimal.uint) :
  (forall x, In x ["0"; "1"; "2"; "3"; "4"; "5"; "6"; "7"; "8"; "9"]%char ->
             Ascii.eqb x c = false) ->
  contains c (NilEmpty.string_of_uint d) = false.
Proof.
  intros H. induction d; cbn [NilEmpty.string_of_uint contains];
    [reflexivity|..];
    rewrite IHd, orb_false_r; apply H; simpl; tauto.
Qed.

Lemma to_uint_not_nil (n : nat) : Nat.to_uint n <> Decimal.Nil.
Proof.
  intros E. pose proof (DecimalNat.Unsigned.of_to n) as H.
  rewrite E in H. simpl in H. subst n. discriminate E.
Qed.

Lemma str_digits (c : ascii) (n : nat) :
  (forall x, In x ["0"; "1"; "2"; "3"; "4"; "5"; "6"; "7"; "8"; "9"]%char ->
             Ascii.eqb x c = false) ->
  contains c (str n) = false.
Proof.
  intros H. unfold str, NilZero.string_of_uint.
  pose proof (to_uint_not_nil n) as Hn.
  destruct (Nat.to_uint n) eqn:E; try contradiction;
    rewrite <- E; now apply digits_only.
Qed.

Lemma str_no_underscore (n : nat) : contains "_" (str n) = false.
Proof.
  apply str_digits. intros x Hx. simpl in Hx.
  repeat (destruct Hx as [<-|Hx]; [reflexivity|]). contradiction.
Qed.

Lemma str_no_dot (n : nat) : contains "." (str n) = false.
Proof.
  apply str_digits. intros x Hx. simpl in Hx.
  repeat (destruct Hx as [<-|Hx]; [reflexivity|]). contradiction.
Qed.

(** Printing then parsing a natural number gives it back. *)
Lemma int_str (n : nat) : int (str n) = Some n.
Proof.
  unfold int, str. rewrite NilZero.usu by apply to_uint_not_nil.
  simpl. now rewrite DecimalNat.Unsigned.of_to.
Qed.

Lemma str_inj (n m : nat) : str n = str m -> n = m.
Proof.
  intros E. pose proof (int_str n) as Hn. rewrite E, int_str in Hn.
  now injection Hn.
Qed.

Lemma append_assoc (a b c : string) : (a ++ b) ++ c = a ++ b ++ c.
Proof. induction a as [|x a IH]; simpl; [reflexivity | now rewrite IH]. Qed.

Lemma append_inv_head (s a b : string) : s ++ a = s ++ b -> a = b.
Proof.
  induction s as [|x s IH]; simpl; [easy|].
  intros E. injection E as E. now apply IH.
Qed.

Lemma prefix_app (p x : string) : String.prefix p (p ++ x) = true.
Proof.
  induction p as [|c p IH]; simpl; [now destruct x|].
  destruct (ascii_dec c c); [exact IH | contradiction].
Qed.

Lemma prefix_common (s a b : string) :
  String.prefix (s ++ a) (s ++ b) = String.prefix a b.
Proof.
  induction s as [|c s IH]; simpl; [reflexivity|].
  destruct (ascii_dec c c); [exact IH | contradiction].
Qed.

Lemma ascii_compare_refl (c : ascii) : Ascii.compare c c = Eq.
Proof. unfold Ascii.compare. apply N.compare_refl. Qed.

Lemma compare_common (s a b : string) :
  String.compare (s ++ a) (s ++ b) = String.compare a b.
Proof.
  induction s as [|c s IH]; simpl; [reflexivity|].
  now rewrite ascii_compare_refl.
Qed.

Lemma str_le_common (s a b : string) :
  str_le (s ++ a) (s ++ b) = str_le a b.
Proof. unfold str_le, String.leb. now rewrite compare_common. Qed.

(** *** Sorting *)

Lemma insert_sorted_perm (x : string) (l : list string) :
  Permutation (insert_sorted x l) (x :: l).
Proof.
  induction l as [|y l IH]; cbn [insert_sorted]; [reflexivity|].
  destruct (str_le x y); [reflexivity|].
  rewrite IH. apply perm_swap.
Qed.

Lemma sorted_perm (l : list string) : Permutation (sorted l) l.
Proof.
  unfold sorted. induction l as [|x l IH]; cbn [fold_right]; [reflexivity|].
  rewrite insert_sorted_perm. now constructor.
Qed.

Lemma insert_sorted_map (f : string -> string) (x : string)
  (l : list string) :
  (forall a b, str_le (f a) (f b) = str_le a b) ->
  insert_sorted (f x) (map f l) = map f (insert_sorted x l).
Proof.
  intros Hf. induction l as [|y l IH]; cbn [insert_sorted map];
    [reflexivity|].
  rewrite Hf. destruct (str_le x y); [reflexivity|].
  cbn [map]. now rewrite IH.
Qed.

(** Sorting commutes with a renaming that keeps the order. *)
Lemma sorted_map (f : string -> string) (l : list string) :
  (forall a b, str_le (f a) (f b) = str_le a b) ->
  sorted (map f l) = map f (sorted l).
Proof.
  intros Hf. unfold sorted.
  induction l as [|x l IH]; cbn [fold_right map]; [reflexivity|].
  rewrite IH. now apply insert_sorted_map.
Qed.

(** *** The order of [sorted] *)

Lemma ascii_compare_lt_trans (x y z : ascii) :
  Ascii.compare x y = Lt -> Ascii.compare y z = Lt ->
  Ascii.compare x z = Lt.
Proof.
  unfold Ascii.compare. rewrite !N.compare_lt_iff. apply N.lt_trans.
Qed.

Lemma compare_refl (s : string) : String.compare s s = Eq.
Proof.
  induction s as [|c s IH]; cbn [String.compare]; [reflexivity|].
  now rewrite ascii_compare_refl.
Qed.

Lemma compare_lt_trans (a b c : string) :
  String.compare a b = Lt -> String.compare b c = Lt ->
  String.compare a c = Lt.
Proof.
  revert b c. induction a as [|x a IH]; intros [|y b] [|z c];
    cbn [String.compare]; try easy.
  destruct (Ascii.compare x y) eqn:Exy; [|intros _|discriminate];
    destruct (Ascii.compare y z) eqn:Eyz; try discriminate.
  - apply Ascii.compare_eq_iff in Exy, Eyz. subst.
    rewrite ascii_compare_refl. apply IH.
  - apply Ascii.compare_eq_iff in Exy. subst. now rewrite Eyz.
  - apply Ascii.compare_eq_iff in Eyz. subst. now rewrite Exy.
  - now rewrite (ascii_compare_lt_trans x y z).
Qed.

Lemma str_le_cases (a b : string) :
  str_le a b = true <-> a = b \/ String.compare a b = Lt.
Proof.
  unfold str_le, String.leb. split.
  - destruct (String.compare a b) eqn:E; [|now right|discriminate].
    left. now apply String.compare_eq_iff.
  - intros [->|E]; [now rewrite compare_refl | now rewrite E].
Qed.

Lemma str_le_trans (a b c : string) :
  str_le a b = true -> str_le b c = true -> str_le a c = true.
Proof.
  rewrite !str_le_cases. intros [->|Hab] [->|Hbc]; auto.
  right. now apply (compare_lt_trans a b c).
Qed.

Abbreviation le_str := (fun a b => str_le a b = true).

Lemma insert_sorted_sorted (x : string) (l : list string) :
  StronglySorted le_str l -> StronglySorted le_str (insert_sorted x l).
Proof.
  induction 1 as [|y l Hs IH Hy]; cbn [insert_sorted].
  - constructor; constructor.
  - destruct (str_le x y) eqn:E.
    + constructor; [now constructor|]. constructor; [exact E|].
      revert Hy. apply Forall_impl. intros z. now apply str_le_trans.
    + constructor; [exact IH|].
      apply (Permutation_Forall (Permutation_sym (insert_sorted_perm x l))).
      constructor; [|exact Hy].
      destruct (String.leb_total x y) as [H|H]; [|exact H].
      unfold str_le in E. congruence.
Qed.

Lemma sorted_sorted (l : list string) : StronglySorted le_str (sorted l).
Proof.
  unfold sorted. induction l as [|x l IH]; cbn [fold_right];
    [constructor | now apply insert_sorted_sorted].
Qed.

(** Two sorted lists with the same elements are equal. *)
Lemma sorted_unique (l1 l2 : list string) :
  StronglySorted le_str l1 -> StronglySorted le_str l2 ->
  Permutation l1 l2 -> l1 = l2.
Proof.
  intros H1. revert l2.
  induction H1 as [|x l1 Hs1 IH Hx]; intros l2 H2 Hperm.
  - apply Permutation_nil in Hperm. now subst.
  - destruct H2 as [|y l2 Hs2 Hy].
    + apply Permutation_sym, Permutation_nil in Hperm. discriminate.
    + assert (E : x = y).
      { assert (Hxin : In x (y :: l2))
          by (apply (Permutation_in _ Hperm); now left).
        assert (Hyin : In y (x :: l1))
          by (apply (Permutation_in _ (Permutation_sym Hperm)); now left).
        destruct Hxin as [->|Hxin]; [reflexivity|].
        destruct Hyin as [->|Hyin]; [reflexivity|].
        rewrite Forall_forall in Hx, Hy.
        apply String.leb_antisym; [now apply Hx | now apply Hy]. }
      subst y. f_equal. apply IH; [exact Hs2|].
      now apply Permutation_cons_inv in Hperm.
Qed.

(** [sorted] does not depend on the order in which it is given the
    names. *)
Lemma sorted_listing (l l' : list string) :
  Permutation l' l -> sorted l' = sorted l.
Proof.
  intros Hperm. apply sorted_unique; try apply sorted_sorted.
  rewrite !sorted_perm. exact Hperm.
Qed.

Lemma filter_listing {A : Type} (p : A -> bool) (l l' : list A) :
  Permutation l' l -> Permutation (filter p l') (filter p l).
Proof.
  induction 1 as [|x l1 l2 H IH|x y l1|l1 l2 l3 H1 IH1 H2 IH2];
    cbn [filter].
  - constructor.
  - destruct (p x); [now constructor | exact IH].
  - destruct (p x), (p y); try reflexivity. apply perm_swap.
  - now transitivity (filter p l2).
Qed.

(** *** Decimal strings under the string order *)

Abbreviation above_dot s :=
  (Forall (fun c => Ascii.compare "." c = Lt) (list_ascii_of_string s)).

Lemma digits_above_dot (d : Decimal.uint) :
  above_dot (NilEmpty.string_of_uint d).
Proof.
  induction d; cbn [NilEmpty.string_of_uint list_ascii_of_string];
    constructor; try reflexivity; assumption.
Qed.

Lemma str_above_dot (n : nat) : above_dot (str n).
Proof.
  unfold str, NilZero.string_of_uint.
  destruct (Nat.to_uint n) eqn:E; try (rewrite <- E; apply digits_above_dot).
  repeat constructor.
Qed.

(** Followed by a dot, two decimal strings compare as they do alone. *)
Lemma compare_before_dot (a b s : string) :
  above_dot a -> above_dot b ->
  String.compare (a ++ String "." s) (b ++ String "." s)
  = String.compare a b.
Proof.
  revert b. induction a as [|x a IH]; intros [|y b] Ha Hb;
    cbn [append String.compare list_ascii_of_string] in *.
  - rewrite ascii_compare_refl. apply compare_refl.
  - inversion Hb as [|? ? Hy _]; subst. now rewrite Hy.
  - inversion Ha as [|? ? Hx _]; subst.
    rewrite Ascii.compare_antisym, Hx. reflexivity.
  - inversion Ha; inversion Hb; subst.
    destruct (Ascii.compare x y); [now apply IH | reflexivity..].
Qed.

End PyStrFacts.

(** ** Directories *)

Module FsFacts.
Import String Fs.

Section Files.
Context {F : Type}.
Implicit Types (d : list (string * F)) (n name : string) (f g : F).

Lemma lookup_in d n f :
  NoDup (map fst d) -> In (n, f) d -> lookup n d = Some f.
Proof.
  induction d as [|[n' f'] d IH]; intros ND Hin; [contradiction|].
  cbn [lookup]. inversion ND as [|? ? Hnotin ND']; subst.
  destruct Hin as [E|Hin].
  - injection E as -> ->. now rewrite String.eqb_refl.
  - destruct (String.eqb_spec n' n) as [->|_]; [|now apply IH].
    exfalso. apply Hnotin. change n with (fst (n, f)). now apply in_map.
Qed.

Lemma in_write_file d name g n f :
  In (n, f) (write_file name g d) ->
  (n = name /\ f = g) \/ In (n, f) d.
Proof.
  induction d as [|[n' f'] d IH]; cbn [write_file].
  - intros [E|[]]. injection E as <- <-. now left.
  - destruct (String.eqb_spec n' name) as [->|Hne].
    + intros [E|Hin]; [injection E as <- <-; now left | right; now right].
    + intros [E|Hin]; [right; now left|].
      destruct (IH Hin) as [H|H]; [now left | right; now right].
Qed.

Lemma names_write_file d name g n :
  In n (map fst (write_file name g d)) <-> n = name \/ In n (map fst d).
Proof.
  induction d as [|[n' f'] d IH]; cbn [write_file map fst In].
  - intuition.
  - destruct (String.eqb_spec n' name) as [->|Hne]; cbn [map fst In].
    + intuition.
    + rewrite IH. intuition.
Qed.

Lemma nodup_write_file d name g :
  NoDup (map fst d) -> NoDup (map fst (write_file name g d)).
Proof.
  induction d as [|[n' f'] d IH]; cbn [write_file map fst]; intros ND.
  - constructor; [intros [] | constructor].
  - inversion ND as [|? ? Hnotin ND']; subst.
    destruct (String.eqb_spec n' name) as [->|Hne]; cbn [map fst].
    + now constructor.
    + constructor; [|now apply IH].
      rewrite names_write_file. intros [E|H]; [now apply Hne | now apply Hnotin].
Qed.

(** A name not yet in the directory is added at the end. *)
Lemma write_file_fresh d name g :
  ~ In name (map fst d) -> write_file name g d = d ++ [(name, g)].
Proof.
  induction d as [|[n' f'] d IH]; cbn [write_file map fst In];
    [reflexivity|].
  intros Hnotin. destruct (String.eqb_spec n' name) as [->|Hne].
  - exfalso. apply Hnotin. now left.
  - cbn. f_equal. apply IH. intros H. apply Hnotin. now right.
Qed.
Lemma lookup_write_same d name g : lookup name (write_file name g d) = Some g.
Proof.
  induction d as [|[n' f'] d IH]; cbn [write_file lookup].
  - now rewrite String.eqb_refl.
  - destruct (String.eqb_spec n' name) as [->|Hne]; cbn [lookup].
    + now rewrite String.eqb_refl.
    + apply String.eqb_neq in Hne. now rewrite Hne.
Qed.

Lemma lookup_write_other d name g n :
  n <> name -> lookup n (write_file name g d) = lookup n d.
Proof.
  intros Hn. induction d as [|[n' f'] d IH]; cbn [write_file lookup].
  - apply not_eq_sym, String.eqb_neq in Hn. now rewrite Hn.
  - destruct (String.eqb_spec n' name) as [->|Hne]; cbn [lookup].
    + apply not_eq_sym, String.eqb_neq in Hn. now rewrite Hn.
    + now rewrite IH.
Qed.

Lemma write_file_twice d name f g :
  write_file name g (write_file name f d) = write_file name g d.
Proof.
  induction d as [|[n' f'] d IH]; cbn [write_file].
  - now rewrite String.eqb_refl.
  - destruct (String.eqb_spec n' name) as [->|Hne]; cbn [write_file].
    + now rewrite String.eqb_refl.
    + apply String.eqb_neq in Hne. now rewrite Hne, IH.
Qed.

(** Writing what the file already holds changes nothing. *)
Lemma length_write_file d name g :
  List.length d <= List.length (write_file name g d) <= S (List.length d).
Proof.
  induction d as [|[n' f'] d IH]; cbn [write_file List.length]; [lia|].
  destruct (String.eqb n' name); cbn [List.length]; lia.
Qed.

Lemma lookup_some_in d name f : lookup name d = Some f -> In (name, f) d.
Proof.
  induction d as [|[n' f'] d IH]; cbn [lookup]; [discriminate|].
  destruct (String.eqb_spec n' name) as [->|Hne].
  - intros [= ->]. now left.
  - intros H. right. now apply IH.
Qed.

Lemma lookup_none d name : ~ In name (map fst d) -> lookup name d = None.
Proof.
  induction d as [|[n' f'] d IH]; cbn [lookup map fst In]; [reflexivity|].
  intros H. destruct (String.eqb_spec n' name) as [->|Hne].
  - exfalso. apply H. now left.
  - apply IH. intros Hin. apply H. now right.
Qed.

(** Reading a file does not depend on the order in which the directory
    lists its entries. *)
Lemma lookup_listing d d' name :
  NoDup (map fst d) -> Permutation d' d -> lookup name d' = lookup name d.
Proof.
  intros ND Hperm.
  assert (ND' : NoDup (map fst d')).
  { apply (Permutation_NoDup (l := map fst d)); [|exact ND].
    apply Permutation_map. now apply Permutation_sym. }
  destruct (lookup name d) as [f|] eqn:E.
  - apply lookup_in; [exact ND'|].
    apply (Permutation_in _ (Permutation_sym Hperm)).
    now apply lookup_some_in.
  - apply lookup_none. intros Hin.
    apply (Permutation_in _ (Permutation_map fst Hperm)) in Hin.
    apply in_map_iff in Hin as ([n f] & <- & Hin). cbn [fst] in E.
    now rewrite (lookup_in _ _ _ ND Hin) in E.
Qed.
End Files.

End FsFacts.

(** ** Checkpoint manager *)

Module CheckpointFacts.
Import String Ascii Py PyStr PyStrFacts Fs FsFacts Checkpoint.
Local Open Scope string_scope.

Section Manager.
Context {T : Torch}.

(** *** File names written by [save_checkpoint] *)

Lemma checkpoint_name_suffix (e : nat) :
  endswith (checkpoint_name e) ".pth.tar" = true.
Proof.
  unfold checkpoint_name. rewrite <- append_assoc. apply endswith_app.
Qed.

Lemma epoch_key_name (e : nat) : epoch_key (checkpoint_name e) = inr e.
Proof.
  unfold epoch_key, checkpoint_name.
  change ("checkpoint_" ++ str e ++ ".pth.tar")
    with ("checkpoint" ++ String "_" (str e ++ ".pth.tar")).
  rewrite split_at_sep by reflexivity.
  rewrite split_no_sep
    by (rewrite contains_app, str_no_underscore; reflexivity).
  cbn [nth_error].
  change (str e ++ ".pth.tar") with (str e ++ String "." "pth.tar").
  rewrite split_at_sep by apply str_no_dot.
  cbn [hd]. now rewrite int_str.
Qed.

Lemma checkpoint_name_inj (e e' : nat) :
  checkpoint_name e = checkpoint_name e' -> e = e'.
Proof.
  intros E. pose proof (epoch_key_name e) as H.
  rewrite E, epoch_key_name in H. now injection H.
Qed.

(** *** [max] with a key *)

Lemma max_from_spec (key : string -> exn + nat) (l : list string) :
  forall best bk,
    (forall x, In x l -> exists k, key x = inr k) ->
    exists m km,
      max_from key best bk l = inr m
      /\ (m = best /\ km = bk \/ In m l /\ key m = inr km)
      /\ bk <= km
      /\ forall x k, In x l -> key x = inr k -> k <= km.
Proof.
  induction l as [|x l IH]; intros best bk Hkeys.
  - exists best, bk. simpl. repeat split; auto. intros x k [].
  - destruct (Hkeys x (or_introl eq_refl)) as [k Hk].
    assert (Hl : forall y, In y l -> exists k, key y = inr k)
      by (intros y Hy; apply Hkeys; now right).
    cbn [max_from]. rewrite Hk.
    destruct (Nat.ltb_spec bk k) as [Hlt|Hge].
    + destruct (IH x k Hl) as (m & km & E & Hm & Hle & Hmax).
      exists m, km. repeat split; [exact E | | lia |].
      * right. destruct Hm as [[-> ->]|[Hin Hkm]]; [|now split; [right|]].
        split; [now left | exact Hk].
      * intros y ky [<-|Hy] Hky; [|now apply (Hmax y)].
        rewrite Hk in Hky. injection Hky as <-. exact Hle.
    + destruct (IH best bk Hl) as (m & km & E & Hm & Hle & Hmax).
      exists m, km. repeat split; [exact E | | exact Hle |].
      * destruct Hm as [H|[Hin Hkm]]; [now left | right].
        split; [now right | exact Hkm].
      * intros y ky [<-|Hy] Hky; [|now apply (Hmax y)].
        rewrite Hk in Hky. injection Hky as <-. lia.
Qed.

Lemma py_max_spec (key : string -> exn + nat) (l : list string) :
  l <> [] ->
  (forall x, In x l -> exists k, key x = inr k) ->
  exists m km,
    py_max key l = inr m /\ In m l /\ key m = inr km
    /\ forall x k, In x l -> key x = inr k -> k <= km.
Proof.
  destruct l as [|x l]; [contradiction|]. intros _ Hkeys.
  destruct (Hkeys x (or_introl eq_refl)) as [k Hk].
  cbn [py_max]. rewrite Hk.
  destruct (max_from_spec key l x k) as (m & km & E & Hm & Hle & Hmax).
  { intros y Hy. apply Hkeys. now right. }
  exists m, km. repeat split; [exact E | | |].
  - destruct Hm as [[-> _]|[Hin _]]; [now left | now right].
  - destruct Hm as [[-> ->]|[_ Hkm]]; assumption.
  - intros y ky [<-|Hy] Hky; [|now apply (Hmax y)].
    rewrite Hk in Hky. injection Hky as <-. exact Hle.
Qed.

(** *** Selection among save files *)

Abbreviation is_save_file := (fun chkpt => endswith chkpt ".pth.tar").

Lemma select_latest (d : directory) (e : nat) :
  save_files_only d -> largest_epoch d e ->
  filter is_save_file (map fst d) <> []
  /\ py_max epoch_key (filter is_save_file (map fst d))
     = inr (checkpoint_name e).
Proof.
  intros Hsave [Hin Hmax].
  assert (Hinf : In (checkpoint_name e) (filter is_save_file (map fst d))).
  { apply filter_In. split; [exact Hin | apply checkpoint_name_suffix]. }
  assert (Hne : filter is_save_file (map fst d) <> []).
  { intros E. now rewrite E in Hinf. }
  split; [exact Hne|].
  destruct (py_max_spec epoch_key _ Hne) as (m & km & E & Hm & Hkm & Hle).
  { intros x Hx. apply filter_In in Hx as [Hx Hs].
    destruct (Hsave x Hx Hs) as [ex ->]. exists ex. apply epoch_key_name. }
  rewrite E. f_equal.
  apply filter_In in Hm as [Hm Hs].
  destruct (Hsave m Hm Hs) as [em ->].
  rewrite epoch_key_name in Hkm. injection Hkm as <-.
  f_equal. apply Nat.le_antisymm.
  - now apply Hmax.
  - apply (Hle (checkpoint_name e)); [exact Hinf | apply epoch_key_name].
Qed.

(** With save files only, [load_checkpoint] restores from the file of
    largest epoch number. *)
Lemma load_checkpoint_latest (checkpoint_dir : string) (d : directory)
  (e : nat) (w : world) :
  save_files_only d -> largest_epoch d e ->
  load_checkpoint checkpoint_dir (Some d) w
  = try_except (restore checkpoint_dir (checkpoint_name e) (Some d))
      (fun ex => bind (print (ErrorLoadingCheckpoint ex)) (fun _ => ret 0))
      w.
Proof.
  intros Hsave Hmax.
  destruct (select_latest d e Hsave Hmax) as [Hne Hsel].
  unfold load_checkpoint, try_except, bind at 1, listdir, ret at 1.
  destruct (filter is_save_file (map fst d)) as [|c cs] eqn:E;
    [contradiction|].
  rewrite Hsel. reflexivity.
Qed.

Lemma singleton_save_files (e : nat) (f : file) :
  save_files_only [(checkpoint_name e, f)]
  /\ largest_epoch [(checkpoint_name e, f)] e.
Proof.
  split; [|split].
  - intros n [<-|[]] _. now exists e.
  - now left.
  - intros e' [E|[]]. apply checkpoint_name_inj in E. simpl in E. lia.
Qed.

(** The other files of the directory play no part. *)
Lemma load_checkpoint_only_latest (checkpoint_dir : string)
  (d : directory) (e : nat) (f : file) (w : world) :
  NoDup (map fst d) -> save_files_only d ->
  In (checkpoint_name e, f) d ->
  (forall e', In (checkpoint_name e') (map fst d) -> e' <= e) ->
  load_checkpoint checkpoint_dir (Some d) w
  = load_checkpoint checkpoint_dir (Some [(checkpoint_name e, f)]) w.
Proof.
  intros ND Hsave Hin Hmax.
  assert (Hl : largest_epoch d e).
  { split; [|exact Hmax].
    change (checkpoint_name e) with (fst (checkpoint_name e, f)).
    now apply in_map. }
  destruct (singleton_save_files e f) as [Hs1 Hl1].
  rewrite (load_checkpoint_latest _ _ e w Hsave Hl).
  rewrite (load_checkpoint_latest _ _ e w Hs1 Hl1).
  unfold try_except, restore, torch_load, bind at 1 3.
  rewrite (lookup_in _ _ _ ND Hin).
  cbn [lookup]. now rewrite String.eqb_refl.
Qed.

(** Run of [load_checkpoint] on a directory that holds one save file. *)
Lemma load_single (checkpoint_dir : string) (e : nat) (f : file)
  (w : world) :
  load_checkpoint checkpoint_dir (Some [(checkpoint_name e, f)]) w
  = try_except
      (restore checkpoint_dir (checkpoint_name e)
         (Some [(checkpoint_name e, f)]))
      (fun ex => bind (print (ErrorLoadingCheckpoint ex)) (fun _ => ret 0))
      w.
Proof.
  destruct (singleton_save_files e f) as [Hs1 Hl1].
  now apply load_checkpoint_latest.
Qed.

(** A successful restore from the only file of a directory. *)
Lemma load_single_ok (checkpoint_dir : string) (e epoch : nat)
  (sd : StateDict) (od : OptimDict) (m' : Model) (o' : Optimizer)
  (w : world) :
  load_state_dict (w_model w) sd = Done m' ->
  optim_load_state_dict (w_optimizer w) od = Done o' ->
  load_checkpoint checkpoint_dir
    (Some [(checkpoint_name e,
            Pickle {| ck_epoch := Some epoch;
                      ck_state_dict := Some sd;
                      ck_optimizer := Some od |})]) w
  = (inr epoch,
     {| w_model := m';
        w_optimizer := o';
        w_stdout :=
          (w_stdout w
           ++ [LoadingCheckpoint
                 (path_join checkpoint_dir (checkpoint_name e));
               LoadedCheckpoint
                 (path_join checkpoint_dir (checkpoint_name e)) epoch])%list
     |}).
Proof.
  intros Hm Ho. rewrite load_single.
  unfold try_except, restore, torch_load, bind, print, getitem,
    model_load, optimizer_load, ret, raise.
  cbn [lookup]. rewrite String.eqb_refl. cbn. rewrite Hm. cbn.
  rewrite Ho. cbn. now rewrite <- app_assoc.
Qed.

(** A restore from the only file of a directory in which the module's
    [load_state_dict] raises: the optimizer is not reached. *)
Lemma load_single_rejected (checkpoint_dir : string) (e epoch : nat)
  (sd : StateDict) (od : OptimDict) (ex : exn) (m' : Model) (w : world) :
  load_state_dict (w_model w) sd = Raised ex m' ->
  load_checkpoint checkpoint_dir
    (Some [(checkpoint_name e,
            Pickle {| ck_epoch := Some epoch;
                      ck_state_dict := Some sd;
                      ck_optimizer := Some od |})]) w
  = (inr 0,
     {| w_model := m';
        w_optimizer := w_optimizer w;
        w_stdout :=
          (w_stdout w
           ++ [LoadingCheckpoint
                 (path_join checkpoint_dir (checkpoint_name e));
               ErrorLoadingCheckpoint ex])%list
     |}).
Proof.
  intros Hm. rewrite load_single.
  unfold try_except, restore, torch_load, bind, print, getitem,
    model_load, optimizer_load, ret, raise.
  cbn [lookup]. rewrite String.eqb_refl. cbn. rewrite Hm. cbn.
  now rewrite <- app_assoc.
Qed.

(** C5. In a directory of save files, [load_checkpoint] restores from the
    file whose name carries the largest epoch number: it announces that
    file, behaves as if the directory held no other file, and does so
    whatever the order in which the directory lists (or received) its
    files. *)
Theorem load_checkpoint_selects_max_epoch (checkpoint_dir : string)
  (d : directory) (e : nat) (f : file) (w : world) :
  NoDup (map fst d) -> save_files_only d ->
  In (checkpoint_name e, f) d ->
  (forall e', In (checkpoint_name e') (map fst d) -> e' <= e) ->
  load_checkpoint checkpoint_dir (Some d) w
  = load_checkpoint checkpoint_dir (Some [(checkpoint_name e, f)]) w
  /\ (exists rest,
        w_stdout (snd (load_checkpoint checkpoint_dir (Some d) w))
        = (w_stdout w
           ++ LoadingCheckpoint
                (path_join checkpoint_dir (checkpoint_name e))
              :: rest)%list)
  /\ forall d', Permutation d' d ->
       load_checkpoint checkpoint_dir (Some d') w
       = load_checkpoint checkpoint_dir (Some d) w.
Proof.
  intros ND Hsave Hin Hmax.
  pose proof (load_checkpoint_only_latest checkpoint_dir d e f w
                ND Hsave Hin Hmax) as E.
  split; [exact E|]. split.
  - rewrite E, load_single.
    unfold try_except, restore, torch_load, bind, print, getitem,
      model_load, optimizer_load, ret, raise.
    cbn [lookup]. rewrite String.eqb_refl.
    destruct f as [[[ep|] [sd|] [od|]]|]; cbn;
      try destruct (load_state_dict (w_model w) sd); cbn;
      try destruct (optim_load_state_dict (w_optimizer w) od); cbn;
      rewrite <- ?app_assoc; cbn; eexists; reflexivity.
  - intros d' Hperm. rewrite E.
    apply load_checkpoint_only_latest.
    + apply (Permutation_NoDup (l := map fst d)); [|exact ND].
      apply Permutation_map. now apply Permutation_sym.
    + intros n Hn. apply Hsave.
      revert Hn. apply Permutation_in. now apply Permutation_map.
    + revert Hin. apply Permutation_in. now apply Permutation_sym.
    + intros e' He'. apply Hmax. revert He'.
      apply Permutation_in. now apply Permutation_map.
Qed.

(** C7. On a directory without save files [load_checkpoint] returns 0
    without raising, prints that it starts from scratch, and leaves the
    module and the optimizer as they were. *)
Theorem load_checkpoint_cold_start (checkpoint_dir : string)
  (d : directory) (w : world) :
  (forall n, In n (map fst d) -> endswith n ".pth.tar" = false) ->
  load_checkpoint checkpoint_dir (Some d) w
  = (inr 0,
     {| w_model := w_model w;
        w_optimizer := w_optimizer w;
        w_stdout :=
          (w_stdout w ++ [NoCheckpointsFound checkpoint_dir])%list |}).
Proof.
  intros Hnone.
  assert (E : filter is_save_file (map fst d) = []).
  { induction (map fst d) as [|n l IH]; [reflexivity|].
    cbn [filter]. rewrite (Hnone n (or_introl eq_refl)).
    apply IH. intros x Hx. apply Hnone. now right. }
  unfold load_checkpoint, try_except, bind at 1, listdir, ret at 1.
  rewrite E. reflexivity.
Qed.

(** C10. When the module's state is restored from the selected file and a
    later step raises, [load_checkpoint] catches the exception, reports
    it and returns 0, and the module keeps the restored state. *)
Theorem load_checkpoint_not_atomic (checkpoint_dir : string)
  (d : directory) (e : nat) (c : checkpoint) (sd : StateDict)
  (m' : Model) (w : world) :
  NoDup (map fst d) -> save_files_only d ->
  In (checkpoint_name e, Pickle c) d ->
  (forall e', In (checkpoint_name e') (map fst d) -> e' <= e) ->
  ck_state_dict c = Some sd ->
  load_state_dict (w_model w) sd = Done m' ->
  later_step_raises c (w_optimizer w) ->
  exists ex,
    fst (load_checkpoint checkpoint_dir (Some d) w) = inr 0
    /\ w_model (snd (load_checkpoint checkpoint_dir (Some d) w)) = m'
    /\ w_stdout (snd (load_checkpoint checkpoint_dir (Some d) w))
       = (w_stdout w
          ++ [LoadingCheckpoint
                (path_join checkpoint_dir (checkpoint_name e));
              ErrorLoadingCheckpoint ex])%list.
Proof.
  intros ND Hsave Hin Hmax Hsd Hload Hlater.
  rewrite (load_checkpoint_only_latest checkpoint_dir d e (Pickle c) w
             ND Hsave Hin Hmax), load_single.
  unfold try_except, restore, torch_load, bind, print, getitem,
    model_load, optimizer_load, ret, raise.
  cbn [lookup]. rewrite String.eqb_refl.
  unfold later_step_raises in Hlater.
  destruct c as [ep sdo odo]. cbn in *. subst sdo. cbn. rewrite Hload. cbn.
  destruct odo as [od|]; cbn.
  - destruct (optim_load_state_dict (w_optimizer w) od) as [o|ex o]; cbn.
    + subst ep. cbn. rewrite <- app_assoc. eexists. repeat split.
    + rewrite <- app_assoc. eexists. repeat split.
  - rewrite <- app_assoc. eexists. repeat split.
Qed.

End Manager.

(** *** Strict loading and the wrapper's keys *)

Section Strict.
Variable Tensor : Type.
Variable arch : list string.

Lemma length_append (a b : string) :
  String.length (a ++ b) = String.length a + String.length b.
Proof. induction a as [|c a IH]; cbn; [reflexivity | now rewrite IH]. Qed.

Lemma shortest_key (l : list string) :
  l <> [] ->
  exists k, In k l
            /\ forall k', In k' l -> String.length k <= String.length k'.
Proof.
  induction l as [|x l IH]; [contradiction|]. intros _.
  destruct l as [|y l].
  - exists x. split; [now left|]. intros k' [<-|[]]. lia.
  - destruct IH as (k & Hk & Hmin); [discriminate|].
    destruct (Nat.le_gt_cases (String.length x) (String.length k)) as [H|H].
    + exists x. split; [now left|].
      intros k' [<-|Hk']; [lia|]. specialize (Hmin k' Hk'). lia.
    + exists k. split; [now right|].
      intros k' [<-|Hk']; [lia | now apply Hmin].
Qed.

Lemma ddp_keys (m0 : list Tensor) (k : string) :
  In k (map fst (ddp_module_state_dict Tensor arch m0)) ->
  exists k', In k' arch /\ k = "module." ++ k'.
Proof.
  unfold ddp_module_state_dict, module_state_dict. rewrite map_map.
  intros H. apply in_map_iff in H as ([k' v] & <- & Hin).
  exists k'. split; [now apply in_combine_l in Hin | reflexivity].
Qed.

(** A module with at least one tensor rejects the dictionary of its
    wrapper: its shortest key is missing there. *)
Lemma strict_load_rejects_wrapper :
  arch <> [] ->
  forall m m0 : list Tensor,
    exists ex m',
      strict_load_state_dict Tensor arch m
        (ddp_module_state_dict Tensor arch m0)
      = Raised ex m'.
Proof.
  intros Hne m m0. destruct (shortest_key arch Hne) as (k & Hk & Hmin).
  unfold strict_load_state_dict.
  set (sd := ddp_module_state_dict Tensor arch m0).
  assert (Hin : In k (filter (fun k => negb (existsb (String.eqb k)
                                              (map fst sd))) arch)).
  { apply filter_In. split; [exact Hk|]. apply negb_true_iff.
    destruct (existsb (String.eqb k) (map fst sd)) eqn:E; [|reflexivity].
    apply existsb_exists in E as (x & Hx & Heq).
    apply String.eqb_eq in Heq. subst x.
    apply ddp_keys in Hx as (k' & Hk' & E').
    specialize (Hmin k' Hk'). rewrite E', length_append in Hmin.
    cbn in Hmin. lia. }
  destruct (filter (fun k => negb (existsb (String.eqb k) (map fst sd)))
              arch); [contradiction|].
  now eexists; eexists.
Qed.

End Strict.

(** *** Runs on the counter instance *)

Ltac names_distinct :=
  repeat (constructor; [cbn; intuition discriminate|]); constructor.

(** [save(state, epoch=5)] then [save(state, epoch=3)]: the restart reads
    the file of epoch 5. *)
Lemma load_after_out_of_order_saves :
  load_checkpoint "ckpt"
    (save_checkpoint (counter_checkpoint 4 30 (Some 31)) 3
       (save_checkpoint (counter_checkpoint 6 50 (Some 51)) 5 None))
    (counter_world 0 0 [])
  = (inr 6,
     counter_world 50 51
       [LoadingCheckpoint "ckpt/checkpoint_5.pth.tar";
        LoadedCheckpoint "ckpt/checkpoint_5.pth.tar" 6]).
Proof.
  change (save_checkpoint (counter_checkpoint 4 30 (Some 31)) 3
            (save_checkpoint (counter_checkpoint 6 50 (Some 51)) 5 None))
    with (Some [(checkpoint_name 5,
                 Pickle (counter_checkpoint 6 50 (Some 51)));
                (checkpoint_name 3,
                 Pickle (counter_checkpoint 4 30 (Some 31)))]).
  destruct (load_checkpoint_selects_max_epoch "ckpt"
              [(checkpoint_name 5,
                Pickle (counter_checkpoint 6 50 (Some 51)));
               (checkpoint_name 3,
                Pickle (counter_checkpoint 4 30 (Some 31)))]
              5 (Pickle (counter_checkpoint 6 50 (Some 51)))
              (counter_world 0 0 [])) as [E _].
  - names_distinct.
  - intros n [<-|[<-|[]]] _; [now exists 5 | now exists 3].
  - now left.
  - intros e' [E|[E|[]]]; apply checkpoint_name_inj in E; lia.
  - etransitivity; [exact E|]. vm_compute. reflexivity.
Defined.

(** A directory that holds only a text file. *)
Lemma load_checkpoint_cold_start_notes :
  load_checkpoint "ckpt" (Some [("notes.txt", Corrupt)])
    (counter_world 7 8 [])
  = (inr 0, counter_world 7 8 [NoCheckpointsFound "ckpt"]).
Proof.
  apply (load_checkpoint_cold_start "ckpt" [("notes.txt", Corrupt)]
           (counter_world 7 8 [])).
  intros n [<-|[]]. reflexivity.
Defined.

(** A checkpoint whose optimizer state is unusable: the call returns 0 as
    on a cold start, and the module has gone from state 0 to state 50. *)
Lemma load_checkpoint_not_atomic_counter :
  exists ex,
    fst (load_checkpoint "ckpt"
           (Some [(checkpoint_name 5, Pickle (counter_checkpoint 6 50 None))])
           (counter_world 0 0 [])) = inr 0
    /\ w_model (snd (load_checkpoint "ckpt"
                       (Some [(checkpoint_name 5,
                               Pickle (counter_checkpoint 6 50 None))])
                       (counter_world 0 0 []))) = 50
    /\ w_stdout (snd (load_checkpoint "ckpt"
                        (Some [(checkpoint_name 5,
                                Pickle (counter_checkpoint 6 50 None))])
                        (counter_world 0 0 [])))
       = [LoadingCheckpoint (path_join "ckpt" (checkpoint_name 5));
          ErrorLoadingCheckpoint ex].
Proof.
  apply (load_checkpoint_not_atomic "ckpt"
           [(checkpoint_name 5, Pickle (counter_checkpoint 6 50 None))]
           5 (counter_checkpoint 6 50 None) 50 50 (counter_world 0 0 [])).
  - names_distinct.
  - intros n [<-|[]] _. now exists 5.
  - now left.
  - intros e' [E|[]]. apply checkpoint_name_inj in E. lia.
  - reflexivity.
  - reflexivity.
  - exact I.
Defined.

(** *** Saving, and loading what cannot be loaded *)

Section Saving.
Context {T : Torch}.

(** After [save_checkpoint] the directory exists, the file of the epoch
    holds the state just saved, every other file reads as before, names
    stay distinct and at most one file was added. *)
Theorem save_checkpoint_lookup (state : checkpoint) (epoch : nat)
  (fs : option directory) :
  exists d,
    save_checkpoint state epoch fs = Some d
    /\ lookup (checkpoint_name epoch) d = Some (Pickle state)
    /\ (forall n, n <> checkpoint_name epoch ->
                  lookup n d = lookup n (dir_of fs))
    /\ (NoDup (map fst (dir_of fs)) -> NoDup (map fst d))
    /\ List.length (dir_of fs) <= List.length d <= S (List.length (dir_of fs)).
Proof.
  exists (write_file (checkpoint_name epoch) (Pickle state) (dir_of fs)).
  split; [now destruct fs|]. split; [apply lookup_write_same|].
  split; [intros n Hn; now apply lookup_write_other|].
  split; [apply nodup_write_file | apply length_write_file].
Qed.

(** Two saves under one epoch number leave one file, with the state of the
    second save. *)
Theorem save_checkpoint_last_writer_wins (s1 s2 : checkpoint) (epoch : nat)
  (fs : option directory) :
  save_checkpoint s2 epoch (save_checkpoint s1 epoch fs)
  = save_checkpoint s2 epoch fs.
Proof.
  unfold save_checkpoint. f_equal. apply write_file_twice.
Qed.

(** Saving under an epoch number at least as large as every one present,
    then loading, restores the state just saved and returns its stored
    epoch. *)
Theorem save_then_load (checkpoint_dir : string) (fs : option directory)
  (e epoch : nat) (sd : StateDict) (od : OptimDict) (m' : Model)
  (o' : Optimizer) (w : world) :
  NoDup (map fst (dir_of fs)) -> save_files_only (dir_of fs) ->
  (forall e', In (checkpoint_name e') (map fst (dir_of fs)) -> e' <= e) ->
  load_state_dict (w_model w) sd = Done m' ->
  optim_load_state_dict (w_optimizer w) od = Done o' ->
  load_checkpoint checkpoint_dir
    (save_checkpoint
       {| ck_epoch := Some epoch;
          ck_state_dict := Some sd;
          ck_optimizer := Some od |} e fs) w
  = (inr epoch,
     {| w_model := m';
        w_optimizer := o';
        w_stdout :=
          (w_stdout w
           ++ [LoadingCheckpoint
                 (path_join checkpoint_dir (checkpoint_name e));
               LoadedCheckpoint
                 (path_join checkpoint_dir (checkpoint_name e)) epoch])%list
     |}).
Proof.
  intros ND Hsave Hmax Hm Ho. unfold save_checkpoint. fold (dir_of fs).
  set (st := {| ck_epoch := Some epoch; ck_state_dict := Some sd;
                ck_optimizer := Some od |}).
  rewrite (load_checkpoint_only_latest checkpoint_dir _ e (Pickle st) w).
  - now apply load_single_ok.
  - now apply nodup_write_file.
  - intros n Hn Hs. apply names_write_file in Hn as [->|Hn];
      [now exists e | now apply Hsave].
  - apply lookup_some_in, lookup_write_same.
  - intros e' He'. apply names_write_file in He' as [E|He'];
      [|now apply Hmax].
    apply checkpoint_name_inj in E. lia.
Qed.

Lemma max_from_in (key : string -> exn + nat) (l : list string) :
  forall best bk m,
    max_from key best bk l = inr m -> m = best \/ In m l.
Proof.
  induction l as [|x l IH]; intros best bk m; cbn [max_from].
  - intros [= ->]. now left.
  - destruct (key x) as [ex|k]; [discriminate|].
    destruct (bk <? k)%nat; intros H; apply IH in H as [->|H];
      cbn [In]; auto.
Qed.

Lemma py_max_in (key : string -> exn + nat) (l : list string) (m : string) :
  py_max key l = inr m -> In m l.
Proof.
  destruct l as [|x l]; cbn [py_max]; [discriminate|].
  destruct (key x) as [ex|k]; [discriminate|].
  intros H. apply max_from_in in H as [->|H]; cbn [In]; auto.
Qed.

Lemma max_from_raises (key : string -> exn + nat) (l : list string)
  (x : string) :
  In x l -> (exists ex, key x = inl ex) ->
  forall best bk, exists ex, max_from key best bk l = inl ex.
Proof.
  intros Hin Hx. induction l as [|y l IH]; [contradiction|].
  intros best bk. cbn [max_from].
  destruct (key y) as [ey|k] eqn:Ey; [now exists ey|].
  destruct Hin as [->|Hin].
  - destruct Hx as [ex Hx]. rewrite Hx in Ey. discriminate.
  - destruct (bk <? k)%nat; now apply IH.
Qed.

Lemma py_max_raises (key : string -> exn + nat) (l : list string)
  (x : string) :
  In x l -> (exists ex, key x = inl ex) -> exists ex, py_max key l = inl ex.
Proof.
  intros Hin Hx. destruct l as [|y l]; [contradiction|]. cbn [py_max].
  destruct (key y) as [ey|k] eqn:Ey; [now exists ey|].
  destruct Hin as [->|Hin].
  - destruct Hx as [ex Hx]. rewrite Hx in Ey. discriminate.
  - now apply (max_from_raises key l x).
Qed.

Ltac returns_zero :=
  exists 0; eexists; cbn; rewrite <- ?app_assoc;
  split; [reflexivity|];
  split; [now left|];
  split; [reflexivity | discriminate].

(** [load_checkpoint] never raises.  It returns 0 or the epoch stored in a
    [.pth.tar] file of the directory, and prints at least one line after
    what was printed before. *)
Theorem load_checkpoint_never_raises (checkpoint_dir : string)
  (fs : option directory) (w : world) :
  exists n more,
    fst (load_checkpoint checkpoint_dir fs w) = inr n
    /\ (n = 0
        \/ exists d name c,
             fs = Some d /\ In (name, Pickle c) d
             /\ endswith name ".pth.tar" = true /\ ck_epoch c = Some n)
    /\ w_stdout (snd (load_checkpoint checkpoint_dir fs w))
       = (w_stdout w ++ more)%list
    /\ more <> [].
Proof.
  destruct fs as [d|]; [|returns_zero].
  remember (load_checkpoint checkpoint_dir (Some d) w) as r eqn:Er.
  unfold load_checkpoint, try_except, bind at 1, listdir, ret at 1 in Er.
  destruct (py_max epoch_key
              (filter (fun chkpt => endswith chkpt ".pth.tar") (map fst d)))
    as [ex|name] eqn:Emax.
  { destruct (filter (fun chkpt => endswith chkpt ".pth.tar") (map fst d));
      subst r; returns_zero. }
  pose proof Emax as Hin. apply py_max_in, filter_In in Hin as [_ Hsuffix].
  destruct (filter (fun chkpt => endswith chkpt ".pth.tar") (map fst d))
    as [|c0 cs]; [subst r; returns_zero|].
  unfold bind at 1, lift, ret at 1 in Er.
  unfold restore, torch_load, bind, print, getitem, model_load,
    optimizer_load, ret, raise in Er.
  destruct (lookup name d) as [[[ep sdo odo]|]|] eqn:El; cbn in Er;
    [|subst r; returns_zero..].
  destruct sdo as [sd|]; cbn in Er; [|subst r; returns_zero].
  destruct (load_state_dict (w_model w) sd) as [m|ex m]; cbn in Er;
    [|subst r; returns_zero].
  destruct odo as [od|]; cbn in Er; [|subst r; returns_zero].
  destruct (optim_load_state_dict (w_optimizer w) od) as [o|ex o];
    cbn in Er; [|subst r; returns_zero].
  destruct ep as [n|]; cbn in Er; [|subst r; returns_zero].
  subst r. exists n. eexists. cbn. rewrite <- ?app_assoc.
  split; [reflexivity|]. split; [|split; [reflexivity | discriminate]].
  right. exists d, name. eexists.
  split; [reflexivity|]. split; [apply lookup_some_in, El|].
  split; [exact Hsuffix | reflexivity].
Qed.

(** On a directory that does not exist (the first run of a fresh
    project) [load_checkpoint] returns 0 through the exception handler:
    it reports a [FileNotFoundError], not the start-from-scratch line. *)
Theorem load_checkpoint_missing_directory (checkpoint_dir : string)
  (w : world) :
  load_checkpoint checkpoint_dir None w
  = (inr 0,
     {| w_model := w_model w;
        w_optimizer := w_optimizer w;
        w_stdout :=
          (w_stdout w
           ++ [ErrorLoadingCheckpoint (FileNotFoundError checkpoint_dir)])%list
     |}).
Proof. reflexivity. Qed.

Lemma letter_is_no_digit (c : ascii) (d : option Decimal.uint) :
  is_letter c = true -> uint_of_char c d = None.
Proof.
  destruct d as [d|]; [|reflexivity].
  destruct c as [[] [] [] [] [] [] [] []]; try discriminate; reflexivity.
Qed.

Lemma int_letter (s : string) :
  existsb is_letter (list_ascii_of_string s) = true -> int s = None.
Proof.
  intros H. unfold int, NilZero.uint_of_string.
  destruct s as [|c0 s0]; [reflexivity|].
  assert (E : NilEmpty.uint_of_string (String c0 s0) = None).
  { revert H. generalize (String c0 s0) as s. clear. intros s.
    induction s as [|c s IH];
      cbn [list_ascii_of_string existsb NilEmpty.uint_of_string];
      [discriminate|].
    intros H. apply orb_true_iff in H as [H|H].
    - now apply letter_is_no_digit.
    - rewrite (IH H). reflexivity. }
  now rewrite E.
Qed.

Lemma epoch_key_no_number (name : string) :
  no_epoch_number name = true -> exists ex, epoch_key name = inl ex.
Proof.
  unfold no_epoch_number, epoch_key.
  destruct (nth_error (split "_"%char name) 1) as [t|];
    [|now exists IndexError].
  destruct (hd "" (split "."%char t)) as [|c field] eqn:E.
  - intros _. eexists. reflexivity.
  - intros H. rewrite (int_letter _ H). eexists. reflexivity.
Qed.

(** One [.pth.tar] file whose name carries no epoch number is enough to
    make [load_checkpoint] return 0 and leave module and optimizer as they
    were, whatever checkpoints the directory holds besides. *)
Theorem load_checkpoint_unreadable_name (checkpoint_dir : string)
  (d : directory) (name : string) (w : world) :
  In name (map fst d) -> endswith name ".pth.tar" = true ->
  no_epoch_number name = true ->
  exists ex,
    load_checkpoint checkpoint_dir (Some d) w
    = (inr 0,
       {| w_model := w_model w;
          w_optimizer := w_optimizer w;
          w_stdout := (w_stdout w ++ [ErrorLoadingCheckpoint ex])%list |}).
Proof.
  intros Hin Hs Hkey. apply epoch_key_no_number in Hkey.
  assert (Hf : In name (filter (fun chkpt => endswith chkpt ".pth.tar")
                          (map fst d)))
    by (apply filter_In; now split).
  destruct (py_max_raises epoch_key _ name Hf Hkey) as [ex Hmax].
  exists ex. unfold load_checkpoint, try_except, bind at 1, listdir, ret at 1.
  destruct (filter (fun chkpt => endswith chkpt ".pth.tar") (map fst d))
    as [|c0 cs] eqn:Ef; [contradiction|].
  now rewrite Hmax.
Qed.

(** When the file of largest epoch number is unreadable, or lacks the
    module's state, [load_checkpoint] returns 0 and leaves module and
    optimizer as they were; it does not fall back on an older file. *)
Theorem load_checkpoint_unreadable_latest (checkpoint_dir : string)
  (d : directory) (e : nat) (f : file) (w : world) :
  NoDup (map fst d) -> save_files_only d ->
  In (checkpoint_name e, f) d ->
  (forall e', In (checkpoint_name e') (map fst d) -> e' <= e) ->
  (f = Corrupt \/ exists c, f = Pickle c /\ ck_state_dict c = None) ->
  exists ex,
    load_checkpoint checkpoint_dir (Some d) w
    = (inr 0,
       {| w_model := w_model w;
          w_optimizer := w_optimizer w;
          w_stdout :=
            (w_stdout w
             ++ [LoadingCheckpoint
                   (path_join checkpoint_dir (checkpoint_name e));
                 ErrorLoadingCheckpoint ex])%list |}).
Proof.
  intros ND Hsave Hin Hmax Hf.
  rewrite (load_checkpoint_only_latest checkpoint_dir d e f w
             ND Hsave Hin Hmax), load_single.
  unfold try_except, restore, torch_load, bind, print, getitem,
    model_load, optimizer_load, ret, raise.
  cbn [lookup]. rewrite String.eqb_refl.
  destruct Hf as [->|(c & -> & Hc)].
  - eexists. cbn. now rewrite <- app_assoc.
  - destruct c as [ep sdo odo]. cbn in Hc. subst sdo.
    eexists. cbn. now rewrite <- app_assoc.
Qed.

End Saving.

(** Saving epoch 1 after epoch 0 on the counter instance, then loading. *)
Lemma save_then_load_counter :
  load_checkpoint "ckpt"
    (save_checkpoint (counter_checkpoint 2 20 (Some 21)) 1
       (save_checkpoint (counter_checkpoint 1 10 (Some 11)) 0 None))
    (counter_world 0 0 [])
  = (inr 2,
     counter_world 20 21
       [LoadingCheckpoint (path_join "ckpt" (checkpoint_name 1));
        LoadedCheckpoint (path_join "ckpt" (checkpoint_name 1)) 2]).
Proof.
  apply (save_then_load (T := counter_torch) "ckpt"
           (save_checkpoint (counter_checkpoint 1 10 (Some 11)) 0 None)
           1 2 20 (Some 21) 20 21 (counter_world 0 0 [])).
  - names_distinct.
  - intros n [<-|[]] _. now exists 0.
  - intros e' [E|[]]. apply checkpoint_name_inj in E. lia.
  - reflexivity.
  - reflexivity.
Defined.

(** A file called model_best.pth.tar beside a good checkpoint. *)
Lemma load_checkpoint_beside_best :
  exists ex,
    load_checkpoint "ckpt"
      (Some [(checkpoint_name 3, Pickle (counter_checkpoint 4 30 (Some 31)));
             ("model_best.pth.tar",
              Pickle (counter_checkpoint 9 90 (Some 91)))])
      (counter_world 0 0 [])
    = (inr 0, counter_world 0 0 [ErrorLoadingCheckpoint ex]).
Proof.
  apply (load_checkpoint_unreadable_name (T := counter_torch) "ckpt"
           [(checkpoint_name 3, Pickle (counter_checkpoint 4 30 (Some 31)));
            ("model_best.pth.tar",
             Pickle (counter_checkpoint 9 90 (Some 91)))]
           "model_best.pth.tar" (counter_world 0 0 [])).
  - right. now left.
  - reflexivity.
  - reflexivity.
Defined.

(** A corrupt file of epoch 4 beside a good file of epoch 3. *)
Lemma load_checkpoint_corrupt_latest :
  exists ex,
    load_checkpoint "ckpt"
      (Some [(checkpoint_name 3, Pickle (counter_checkpoint 4 30 (Some 31)));
             (checkpoint_name 4, Corrupt)])
      (counter_world 0 0 [])
    = (inr 0,
       counter_world 0 0
         [LoadingCheckpoint (path_join "ckpt" (checkpoint_name 4));
          ErrorLoadingCheckpoint ex]).
Proof.
  apply (load_checkpoint_unreadable_latest (T := counter_torch) "ckpt"
           [(checkpoint_name 3, Pickle (counter_checkpoint 4 30 (Some 31)));
            (checkpoint_name 4, Corrupt)]
           4 Corrupt (counter_world 0 0 [])).
  - names_distinct.
  - intros n [<-|[<-|[]]] _; [now exists 3 | now exists 4].
  - right. now left.
  - intros e' [E|[E|[]]]; apply checkpoint_name_inj in E; lia.
  - now left.
Defined.

End CheckpointFacts.

(** ** Contrastive loss *)

Module LossFacts.
Import Tensor TensorFacts Loss.

Section NtXent.
Variable cosine_sim : list R -> list R -> R.

Abbreviation loss := (nt_xent_loss cosine_sim).
Abbreviation weight := (weight cosine_sim).
Abbreviation prob := (prob cosine_sim).

Lemma half_length (N : nat) (z : list (list R)) :
  length z = 2 * N -> length z / 2 = N.
Proof.
  intros ->. rewrite Nat.mul_comm. apply Nat.div_mul. discriminate.
Qed.

Lemma positive_lt (N k : nat) : 1 <= N -> positive N k < 2 * N.
Proof. intros HN. unfold positive. apply Nat.mod_upper_bound. lia. Qed.

Lemma positive_low (N k : nat) : k < N -> positive N k = k + N.
Proof. intros Hk. unfold positive. apply Nat.mod_small. lia. Qed.

Lemma positive_high (N k : nat) : k < N -> positive N (N + k) = k.
Proof.
  intros Hk. unfold positive.
  replace (N + k + N) with (k + 1 * (2 * N)) by lia.
  rewrite Nat.Div0.mod_add. apply Nat.mod_small. lia.
Qed.

(** The similarity matrix of the code, entry by entry. *)
Lemma sim_entries (z : list (list R)) (tau : R) :
  map2 (map2 (fun a b => Fin (cosine_sim a b / tau)))
    (map (fun r => repeat r (length z)) z)
    (view3 (length z) (length z) (tile (length z) z))
  = map (fun k => map (fun c =>
           Fin (cosine_sim (nth k z []) (nth c z []) / tau))
           (seq 0 (length z)))
      (seq 0 (length z)).
Proof.
  rewrite view3_tile, map2_map_repeat.
  rewrite (map_nth_seq _ []). apply map_ext. intros k.
  rewrite map2_repeat_l.
  apply (map_nth_seq (fun b => Fin (cosine_sim (nth k z []) b / tau)) []).
Qed.

(** The masked softmax matrix of the code is the matrix of [prob]. *)
Lemma softmax_entries (z : list (list R)) (tau : R) :
  map softmax
    (masked_fill
       (map2 (map2 (fun a b => Fin (cosine_sim a b / tau)))
          (map (fun r => repeat r (length z)) z)
          (view3 (length z) (length z) (tile (length z) z)))
       (eye (length z)) NegInf)
  = map (fun k => map (prob z tau k) (seq 0 (length z)))
      (seq 0 (length z)).
Proof.
  rewrite sim_entries. unfold masked_fill, eye.
  rewrite map2_map_map, map_map. apply map_ext. intros k.
  rewrite map2_map_map. unfold softmax. rewrite !map_map.
  assert (E : forall c,
             exp_ext (if k =? c then NegInf
                      else Fin (cosine_sim (nth k z []) (nth c z []) / tau))
             = weight z tau k c).
  { intros c. unfold Loss.weight. now destruct (k =? c). }
  rewrite (map_ext _ _ E).
  apply map_ext. intros c. rewrite E. reflexivity.
Qed.

(** The loss of the code in closed form: minus the mean, over the anchors,
    of the log-probability found in column [positive N k]. *)
Lemma nt_xent_loss_closed (N : nat) (z : list (list R)) (tau : R) :
  length z = 2 * N -> 1 <= N ->
  loss z tau
  = (- mean (map (fun k => ln (prob z tau k (positive N k) + eps))
               (seq 0 (2 * N))))%R.
Proof.
  intros Hlen HN. unfold nt_xent_loss.
  rewrite (half_length N z Hlen). cbv zeta. rewrite <- Hlen.
  rewrite softmax_entries, Hlen.
  unfold gather1. rewrite map2_map_map, map_map.
  do 2 f_equal. apply map_ext_in. intros k Hk.
  change ((k + N) mod (2 * N)) with (positive N k).
  f_equal. f_equal.
  rewrite (@nth_indep _ _ _ 0%R (prob z tau k 0)).
  - rewrite (map_nth (prob z tau k)). f_equal. rewrite seq_nth; [reflexivity|].
    now apply positive_lt.
  - rewrite length_map, length_seq. now apply positive_lt.
Qed.

(** C1. For a stack of [N >= 1] view-i rows followed by [N] view-j rows,
    the loss is minus the mean over the [2N] anchors of the log of the
    masked softmax probability in column [(k + N) mod 2N], plus [eps];
    that column holds the other view of the anchor's own sample. *)
Theorem nt_xent_positive_partner (N : nat) (zi zj : list (list R))
  (tau : R) :
  length zi = N -> length zj = N -> 1 <= N ->
  loss (zi ++ zj) tau = nt_xent_spec cosine_sim N (zi ++ zj) tau
  /\ forall k, k < N ->
       positive N k = k + N
       /\ positive N (N + k) = k
       /\ nth (positive N k) (zi ++ zj) [] = nth k zj []
       /\ nth (positive N (N + k)) (zi ++ zj) [] = nth k zi [].
Proof.
  intros Hi Hj HN. split.
  - rewrite (nt_xent_loss_closed N) by (rewrite ?length_app; lia).
    unfold nt_xent_spec, mean. now rewrite length_map, length_seq.
  - intros k Hk. rewrite positive_low, positive_high by assumption.
    repeat split.
    + rewrite app_nth2 by lia. f_equal. lia.
    + now rewrite app_nth1 by lia.
Qed.

(** *** Reordering the samples *)

Lemma block_index_image (N : nat) (p : list nat) :
  length p = N ->
  map (block_index N p) (seq 0 (2 * N)) = p ++ map (Nat.add N) p.
Proof.
  intros Hp. replace (2 * N) with (N + N) by lia.
  rewrite seq_app, map_app. f_equal.
  - rewrite (map_ext_in _ (fun k => nth k p 0)).
    + rewrite <- Hp. symmetry. apply list_nth_seq.
    + intros k Hk. apply in_seq in Hk. unfold block_index.
      destruct (Nat.ltb_spec k N); [reflexivity | lia].
  - replace (seq (0 + N) N) with (map (Nat.add N) (seq 0 N))
      by (rewrite map_add_seq; f_equal; lia).
    rewrite map_map.
    rewrite (map_ext_in _ (fun k => N + nth k p 0)).
    + rewrite <- Hp at 1.
      symmetry. apply (map_nth_seq (fun x => N + x) 0).
    + intros k Hk. apply in_seq in Hk. unfold block_index.
      destruct (Nat.ltb_spec (N + k) N); [lia|]. do 2 f_equal. lia.
Qed.

Lemma block_index_perm (N : nat) (p : list nat) :
  Permutation p (seq 0 N) ->
  Permutation (map (block_index N p) (seq 0 (2 * N))) (seq 0 (2 * N)).
Proof.
  intros Hp.
  assert (Hlen : length p = N).
  { rewrite (Permutation_length Hp). apply length_seq. }
  rewrite block_index_image by assumption.
  replace (2 * N) with (N + N) by lia. rewrite seq_app.
  apply Permutation_app; [assumption|].
  replace (seq (0 + N) N) with (map (Nat.add N) (seq 0 N))
    by (rewrite map_add_seq; f_equal; lia).
  now apply Permutation_map.
Qed.

Lemma perm_length (N : nat) (p : list nat) :
  Permutation p (seq 0 N) -> length p = N.
Proof. intros Hp. rewrite (Permutation_length Hp). apply length_seq. Qed.

Lemma perm_nth_lt (N : nat) (p : list nat) (j : nat) :
  Permutation p (seq 0 N) -> j < N -> nth j p 0 < N.
Proof.
  intros Hp Hj.
  assert (Hin : In (nth j p 0) p).
  { apply nth_In. now rewrite (perm_length _ _ Hp). }
  apply (Permutation_in _ Hp), in_seq in Hin. lia.
Qed.

Lemma block_index_lt (N : nat) (p : list nat) (k : nat) :
  Permutation p (seq 0 N) -> k < 2 * N -> block_index N p k < 2 * N.
Proof.
  intros Hp Hk. unfold block_index.
  destruct (Nat.ltb_spec k N) as [Hlt|Hge].
  - pose proof (perm_nth_lt _ _ _ Hp Hlt). lia.
  - assert (Hj : k - N < N) by lia. pose proof (perm_nth_lt _ _ _ Hp Hj). lia.
Qed.

Lemma block_index_inj (N : nat) (p : list nat) (k c : nat) :
  Permutation p (seq 0 N) -> k < 2 * N -> c < 2 * N ->
  block_index N p k = block_index N p c -> k = c.
Proof.
  intros Hp Hk Hc E.
  assert (ND : NoDup (map (block_index N p) (seq 0 (2 * N)))).
  { apply (Permutation_NoDup (Permutation_sym (block_index_perm _ _ Hp))).
    apply seq_NoDup. }
  rewrite (NoDup_nth _ 0) in ND. apply ND.
  - now rewrite length_map, length_seq.
  - now rewrite length_map, length_seq.
  - rewrite !(nth_map_lt _ _ _ 0) by now rewrite length_seq.
    now rewrite !seq_nth.
Qed.

Lemma block_index_positive (N : nat) (p : list nat) (k : nat) :
  Permutation p (seq 0 N) -> k < 2 * N ->
  positive N (block_index N p k) = block_index N p (positive N k).
Proof.
  intros Hp Hk. unfold block_index at 1.
  destruct (Nat.ltb_spec k N) as [Hlt|Hge].
  - rewrite positive_low by now apply perm_nth_lt.
    rewrite (positive_low _ _ Hlt). unfold block_index.
    destruct (Nat.ltb_spec (k + N) N); [lia|].
    replace (k + N - N) with k by lia. lia.
  - assert (Hj : k - N < N) by lia.
    rewrite positive_high by now apply perm_nth_lt.
    replace k with (N + (k - N)) at 2 by lia.
    rewrite (positive_high _ _ Hj). unfold block_index.
    destruct (Nat.ltb_spec (k - N) N); [reflexivity | lia].
Qed.

Lemma nth_permute_blocks (N : nat) (p : list nat) (z : list (list R))
  (k : nat) :
  length p = N -> k < 2 * N ->
  nth k (permute_blocks N p z) [] = nth (block_index N p k) z [].
Proof.
  intros Hp Hk. unfold permute_blocks, block_index.
  destruct (Nat.ltb_spec k N) as [Hlt|Hge].
  - rewrite app_nth1 by now rewrite length_map, Hp.
    apply (nth_map_lt (fun i => nth i z []) p k 0). now rewrite Hp.
  - rewrite app_nth2 by (rewrite length_map, Hp; lia).
    rewrite length_map, Hp.
    apply (nth_map_lt (fun i => nth (N + i) z []) p (k - N) 0). lia.
Qed.

Lemma length_permute_blocks (N : nat) (p : list nat) (z : list (list R)) :
  length p = N -> length (permute_blocks N p z) = 2 * N.
Proof.
  intros Hp. unfold permute_blocks. rewrite length_app, !length_map. lia.
Qed.

(** Weights and probabilities of the reordered stack are those of the
    original stack at the reindexed anchor and partner. *)
Lemma weight_permute (N : nat) (p : list nat) (z : list (list R))
  (tau : R) (k c : nat) :
  Permutation p (seq 0 N) -> k < 2 * N -> c < 2 * N ->
  weight (permute_blocks N p z) tau k c
  = weight z tau (block_index N p k) (block_index N p c).
Proof.
  intros Hp Hk Hc. unfold Loss.weight.
  rewrite !nth_permute_blocks by (try apply perm_length; assumption).
  destruct (Nat.eqb_spec k c) as [->|Hne].
  - now rewrite Nat.eqb_refl.
  - destruct (Nat.eqb_spec (block_index N p k) (block_index N p c)) as [E|_];
      [|reflexivity].
    exfalso. apply Hne. now apply (block_index_inj _ _ _ _ Hp).
Qed.

Lemma prob_permute (N : nat) (p : list nat) (z : list (list R))
  (tau : R) (k c : nat) :
  length z = 2 * N -> Permutation p (seq 0 N) -> k < 2 * N -> c < 2 * N ->
  prob (permute_blocks N p z) tau k c
  = prob z tau (block_index N p k) (block_index N p c).
Proof.
  intros Hz Hp Hk Hc. unfold Loss.prob.
  rewrite weight_permute by assumption. f_equal.
  rewrite length_permute_blocks by now apply perm_length.
  rewrite Hz.
  rewrite (map_ext_in _ (fun c' => weight z tau (block_index N p k)
                                     (block_index N p c'))).
  - rewrite <- (map_map (block_index N p)
                 (weight z tau (block_index N p k))).
    apply sum_perm, Permutation_map. now apply block_index_perm.
  - intros c' Hc'. apply in_seq in Hc'. apply weight_permute; [assumption..|lia].
Qed.

(** C6. Applying one and the same sample order to the i-block and the
    j-block of a valid stack leaves the loss unchanged. *)
Theorem nt_xent_block_permutation (N : nat) (p : list nat)
  (z : list (list R)) (tau : R) :
  length z = 2 * N -> 1 <= N -> Permutation p (seq 0 N) ->
  loss (permute_blocks N p z) tau = loss z tau.
Proof.
  intros Hz HN Hp.
  rewrite (nt_xent_loss_closed N (permute_blocks N p z))
    by (try apply length_permute_blocks; try apply perm_length; assumption).
  rewrite (nt_xent_loss_closed N z) by assumption.
  unfold mean. rewrite !length_map. f_equal. f_equal.
  rewrite (map_ext_in _ (fun k =>
             ln (prob z tau (block_index N p k)
                   (positive N (block_index N p k)) + eps))).
  - rewrite <- (map_map (block_index N p)
                 (fun j => ln (prob z tau j (positive N j) + eps))).
    apply sum_perm, Permutation_map. now apply block_index_perm.
  - intros k Hk. apply in_seq in Hk.
    rewrite prob_permute;
      [| assumption | assumption | lia | now apply positive_lt].
    now rewrite block_index_positive by (assumption || lia).
Qed.

End NtXent.

(** The partner of either row of a two-row stack is the other row. *)
Lemma nt_xent_positive_partner_two_rows :
  (length [[1; 0]%R] = 1 /\ length [[0; 1]%R] = 1 /\ 1 <= 1)
  /\ nt_xent_loss cosine_similarity ([[1; 0]] ++ [[0; 1]])%R (1 / 2)
     = nt_xent_spec cosine_similarity 1 ([[1; 0]] ++ [[0; 1]])%R (1 / 2).
Proof.
  split; [repeat split; lia|].
  exact (proj1 (nt_xent_positive_partner cosine_similarity 1
                  [[1; 0]%R] [[0; 1]%R] (1 / 2)%R eq_refl eq_refl (le_n 1))).
Defined.

(** Swapping the two samples of a batch of two in both blocks. *)
Lemma nt_xent_block_permutation_swap :
  (length [[1; 0]; [0; 1]; [1; 1]; [0; 2]]%R = 2 * 2 /\ 1 <= 2
   /\ Permutation [1; 0] (seq 0 2))
  /\ nt_xent_loss cosine_similarity
       (permute_blocks 2 [1; 0] [[1; 0]; [0; 1]; [1; 1]; [0; 2]]%R) (1 / 2)
     = nt_xent_loss cosine_similarity
         [[1; 0]; [0; 1]; [1; 1]; [0; 2]]%R (1 / 2).
Proof.
  assert (Hp : Permutation [1; 0] (seq 0 2)) by apply perm_swap.
  split; [repeat split; [lia | exact Hp]|].
  apply (nt_xent_block_permutation cosine_similarity 2 [1; 0]
           [[1; 0]; [0; 1]; [1; 1]; [0; 2]]%R (1 / 2)%R);
    [reflexivity | lia | exact Hp].
Defined.

(** *** The probabilities behind the loss *)

Section Probabilities.
Variable cosine_sim : list R -> list R -> R.

Abbreviation loss' := (nt_xent_loss cosine_sim).
Abbreviation weight' := (weight cosine_sim).
Abbreviation prob' := (prob cosine_sim).

(** [nt_xent_loss] reads its probabilities from [sim_softmax]. *)
Lemma nt_xent_loss_from_softmax (z : list (list R)) (tau : R) :
  loss' z tau
  = (- mean (map (fun p => ln (p + eps))
               (gather1 (sim_softmax cosine_sim z tau)
                  (map (fun l => (l + length z / 2) mod (2 * (length z / 2)))
                     (seq 0 (2 * (length z / 2)))))))%R.
Proof. reflexivity. Qed.



Lemma weight_pos (z : list (list R)) (tau : R) (k c : nat) :
  k <> c -> (0 < weight' z tau k c)%R.
Proof.
  intros Hne. unfold Loss.weight. apply Nat.eqb_neq in Hne. rewrite Hne.
  apply exp_pos.
Qed.

Lemma weight_diag (z : list (list R)) (tau : R) (k : nat) :
  weight' z tau k k = 0%R.
Proof. unfold Loss.weight. now rewrite Nat.eqb_refl. Qed.






Lemma nt_xent_loss_two_rows (a b : list R) (tau : R) :
  loss' [a; b] tau = (- ln (1 + eps))%R.
Proof.
  rewrite (nt_xent_loss_closed cosine_sim 1 [a; b] tau eq_refl (le_n 1)).
  unfold mean. cbn [seq map length Nat.mul Nat.add].
  change (positive 1 0) with 1. change (positive 1 1) with 0.
  assert (P01 : prob' [a; b] tau 0 1 = 1%R).
  { unfold Loss.prob. cbn [length seq map sum fold_right].
    rewrite weight_diag.
    pose proof (weight_pos [a; b] tau 0 1 ltac:(lia)). field. lra. }
  assert (P10 : prob' [a; b] tau 1 0 = 1%R).
  { unfold Loss.prob. cbn [length seq map sum fold_right].
    rewrite weight_diag.
    pose proof (weight_pos [a; b] tau 1 0 ltac:(lia)). field. lra. }
  rewrite P01, P10. cbn [sum fold_right INR]. field.
Qed.

(** A batch of one sample: whatever the two embeddings and the (non-zero)
    temperature, each anchor gives its only partner the probability 1;
    the loss is then the same for all embeddings and temperatures. *)
Theorem nt_xent_single_sample (a b a' b' : list R) (tau tau' : R) :
  tau <> 0%R -> tau' <> 0%R ->
  sim_softmax cosine_sim [a; b] tau = [[0; 1]; [1; 0]]%R
  /\ loss' [a; b] tau = loss' [a'; b'] tau'.
Proof.
  intros _ _. split; [|now rewrite !nt_xent_loss_two_rows].
  unfold sim_softmax, softmax, masked_fill, eye, view3, tile, map2.
  cbn [length Nat.div Nat.mul Nat.add repeat concat app map combine seq
       firstn skipn fst snd Nat.eqb exp_ext sum fold_right].
  cbn.
  pose proof (exp_pos (cosine_sim a b / tau)).
  pose proof (exp_pos (cosine_sim b a / tau)).
  repeat f_equal; field; lra.
Qed.

(** *** Reindexing the rows *)

Lemma reindex_lt (m : nat) (sigma : nat -> nat) (k : nat) :
  Permutation (map sigma (seq 0 m)) (seq 0 m) -> k < m -> sigma k < m.
Proof.
  intros Hp Hk.
  assert (Hin : In (sigma k) (map sigma (seq 0 m)))
    by (apply in_map, in_seq; lia).
  apply (Permutation_in _ Hp), in_seq in Hin. lia.
Qed.

Lemma reindex_inj (m : nat) (sigma : nat -> nat) (k c : nat) :
  Permutation (map sigma (seq 0 m)) (seq 0 m) -> k < m -> c < m ->
  sigma k = sigma c -> k = c.
Proof.
  intros Hp Hk Hc E.
  assert (ND : NoDup (map sigma (seq 0 m))).
  { apply (Permutation_NoDup (Permutation_sym Hp)). apply seq_NoDup. }
  rewrite (NoDup_nth _ 0) in ND. apply ND.
  - now rewrite length_map, length_seq.
  - now rewrite length_map, length_seq.
  - rewrite !(nth_map_lt _ _ _ 0) by now rewrite length_seq.
    now rewrite !seq_nth.
Qed.

(** A stack whose rows are those of another stack, taken through a
    bijection of the indices that respects the pairing, has the same
    loss. *)
Lemma nt_xent_loss_reindex (N : nat) (sigma : nat -> nat)
  (z z' : list (list R)) (tau : R) :
  length z = 2 * N -> length z' = 2 * N -> 1 <= N ->
  Permutation (map sigma (seq 0 (2 * N))) (seq 0 (2 * N)) ->
  (forall k, k < 2 * N -> nth k z' [] = nth (sigma k) z []) ->
  (forall k, k < 2 * N -> positive N (sigma k) = sigma (positive N k)) ->
  loss' z' tau = loss' z tau.
Proof.
  intros Hz Hz' HN Hp Hrows Hpos.
  assert (Hw : forall k c, k < 2 * N -> c < 2 * N ->
             weight' z' tau k c = weight' z tau (sigma k) (sigma c)).
  { intros k c Hk Hc. unfold Loss.weight.
    rewrite !Hrows by assumption.
    destruct (Nat.eqb_spec k c) as [->|Hne]; [now rewrite Nat.eqb_refl|].
    destruct (Nat.eqb_spec (sigma k) (sigma c)) as [E|_]; [|reflexivity].
    exfalso. apply Hne. now apply (reindex_inj (2 * N) sigma). }
  assert (Hprob : forall k c, k < 2 * N -> c < 2 * N ->
             prob' z' tau k c = prob' z tau (sigma k) (sigma c)).
  { intros k c Hk Hc. unfold Loss.prob. rewrite Hw by assumption.
    f_equal. rewrite Hz, Hz'.
    rewrite (map_ext_in _ (fun c' => weight' z tau (sigma k) (sigma c'))).
    - rewrite <- (map_map sigma (weight' z tau (sigma k))).
      now apply sum_perm, Permutation_map.
    - intros c' Hc'. apply in_seq in Hc'. apply Hw; lia. }
  rewrite (nt_xent_loss_closed cosine_sim N z' tau Hz' HN).
  rewrite (nt_xent_loss_closed cosine_sim N z tau Hz HN).
  unfold mean. rewrite !length_map. f_equal. f_equal.
  rewrite (map_ext_in _ (fun k =>
             ln (prob' z tau (sigma k) (positive N (sigma k)) + eps))).
  - rewrite <- (map_map sigma
                 (fun j => ln (prob' z tau j (positive N j) + eps))).
    now apply sum_perm, Permutation_map.
  - intros k Hk. apply in_seq in Hk.
    rewrite Hprob by (try apply positive_lt; lia).
    now rewrite Hpos by lia.
Qed.

Lemma positive_image (N : nat) :
  map (positive N) (seq 0 (2 * N)) = seq N N ++ seq 0 N.
Proof.
  replace (2 * N) with (N + N) by lia. rewrite seq_app, map_app. f_equal.
  - rewrite <- (Nat.add_0_r N) at 3. rewrite <- map_add_seq.
    apply map_ext_in. intros k Hk. apply in_seq in Hk.
    rewrite positive_low by lia. lia.
  - replace (seq (0 + N) N) with (map (Nat.add N) (seq 0 N))
      by (rewrite map_add_seq; f_equal; lia).
    rewrite map_map. rewrite <- (map_id (seq 0 N)) at 2.
    apply map_ext_in. intros k Hk. apply in_seq in Hk.
    apply positive_high. lia.
Qed.

(** Exchanging the roles of the two views, that is stacking the view-j
    rows before the view-i rows, leaves the loss unchanged. *)
Theorem nt_xent_view_swap (N : nat) (zi zj : list (list R)) (tau : R) :
  length zi = N -> length zj = N -> 1 <= N ->
  nt_xent_loss cosine_sim (zj ++ zi) tau
  = nt_xent_loss cosine_sim (zi ++ zj) tau.
Proof.
  intros Hi Hj HN.
  apply (nt_xent_loss_reindex N (positive N));
    try (rewrite length_app; lia); try assumption.
  - rewrite positive_image.
    replace (2 * N) with (N + N) by lia. rewrite seq_app.
    apply Permutation_app_comm.
  - intros k Hk. destruct (Nat.lt_ge_cases k N) as [Hlt|Hge].
    + rewrite positive_low by assumption.
      rewrite app_nth1 by lia. rewrite app_nth2 by lia.
      f_equal. lia.
    + replace k with (N + (k - N)) at 2 by lia.
      rewrite positive_high by lia.
      rewrite app_nth2 by lia. rewrite app_nth1 by lia.
      f_equal. lia.
  - reflexivity.
Qed.

End Probabilities.


Lemma nt_xent_single_sample_two :
  sim_softmax cosine_similarity [[1; 0]; [0; 1]]%R (1 / 2)
  = [[0; 1]; [1; 0]]%R
  /\ nt_xent_loss cosine_similarity [[1; 0]; [0; 1]]%R (1 / 2)
     = nt_xent_loss cosine_similarity [[3; 4]; [3; 4]]%R 2.
Proof.
  apply (nt_xent_single_sample cosine_similarity [1; 0]%R [0; 1]%R
           [3; 4]%R [3; 4]%R (1 / 2)%R 2%R); lra.
Defined.

Lemma nt_xent_view_swap_two :
  (length [[1; 0]%R] = 1 /\ length [[0; 1]%R] = 1 /\ 1 <= 1)
  /\ nt_xent_loss cosine_similarity ([[0; 1]] ++ [[1; 0]])%R (1 / 2)
     = nt_xent_loss cosine_similarity ([[1; 0]] ++ [[0; 1]])%R (1 / 2).
Proof.
  split; [repeat split; lia|].
  apply (nt_xent_view_swap cosine_similarity 1 [[1; 0]%R] [[0; 1]%R]
           (1 / 2)%R); [reflexivity | reflexivity | lia].
Defined.

End LossFacts.

(** ** Training loop and resumption *)

Module TrainFacts.
Import Py PyStr Fs FsFacts Checkpoint CheckpointFacts Train.

Section Loop.
Context {T : Torch}.
Variable Batch : Type.
Variable train_step :
  nat -> nat -> Batch -> Model * Optimizer -> Model * Optimizer.
Variable ddp_state_dict : Model -> StateDict.

Abbreviation run := (Train.run Batch train_step ddp_state_dict).
Abbreviation body := (Train.batch_body Batch train_step ddp_state_dict).
Abbreviation written := (written_up_to ddp_state_dict).

(** The nested loops execute [iterations] in order. *)
Lemma train_as_run (epochs start_epoch : nat) (train_loader : list Batch)
  (st : state) :
  train Batch train_step ddp_state_dict epochs start_epoch train_loader st
  = run (length train_loader)
      (iterations Batch epochs start_epoch train_loader) st.
Proof.
  unfold train, iterations, Train.run.
  revert st. induction (range start_epoch epochs) as [|e es IH]; intro st;
    [reflexivity|].
  cbn [fold_left flat_map]. rewrite fold_left_app, <- IH. f_equal.
  generalize (enumerate train_loader). intros l. revert st.
  induction l as [|ib l IHl]; intro st; [reflexivity|]. cbn. apply IHl.
Qed.

(** *** What a run leaves in the checkpoint directory *)

Lemma save_written_up_to (e epoch : nat) (m : Model) (o : Optimizer)
  (fs : option directory) :
  epoch <= e -> written e fs ->
  written e
    (save_checkpoint
       {| ck_epoch := Some (epoch + 1);
          ck_state_dict := Some (ddp_state_dict m);
          ck_optimizer := Some (optim_state_dict o) |} epoch fs).
Proof.
  intros Hle Hinv. unfold save_checkpoint, written_up_to.
  assert (H : NoDup (map fst (match fs with Some d => d | None => [] end))
              /\ forall n f,
                   In (n, f) (match fs with Some d => d | None => [] end) ->
                   exists e' m o,
                     e' <= e /\ n = checkpoint_name e'
                     /\ f = Pickle
                              {| ck_epoch := Some (e' + 1);
                                 ck_state_dict := Some (ddp_state_dict m);
                                 ck_optimizer := Some (optim_state_dict o) |}).
  { destruct fs as [d|]; [exact Hinv|].
    split; [constructor | intros n f []]. }
  destruct H as [ND Hall]. split; [now apply nodup_write_file|].
  intros n f Hin. apply in_write_file in Hin as [[-> ->]|Hin].
  - now exists epoch, m, o.
  - now apply Hall.
Qed.

Lemma body_written_up_to (len e epoch : nat) (st : state)
  (ib : nat * Batch) :
  epoch <= e -> written e (t_fs st) ->
  written e (t_fs (body len epoch st ib)).
Proof.
  intros Hle Hinv. destruct ib as [batch_idx images].
  unfold Train.batch_body.
  destruct (train_step epoch batch_idx images (t_model st, t_optimizer st))
    as [m o].
  cbn [t_fs]. destruct (batch_idx mod 100 =? 0); [|exact Hinv].
  now apply save_written_up_to.
Qed.

Lemma run_written_up_to (len e : nat) (its : list (nat * (nat * Batch))) :
  (forall it, In it its -> fst it <= e) ->
  forall st, written e (t_fs st) ->
             written e (t_fs (run len its st)).
Proof.
  unfold Train.run. induction its as [|it its IH]; intros Hle st Hinv;
    [exact Hinv|].
  cbn [fold_left]. apply IH.
  - intros it' H. apply Hle. now right.
  - apply body_written_up_to; [|exact Hinv]. apply Hle. now left.
Qed.

Lemma body_has_epoch_file (len e epoch : nat) (st : state)
  (ib : nat * Batch) :
  has_epoch_file e (t_fs st) ->
  has_epoch_file e (t_fs (body len epoch st ib)).
Proof.
  intros (d & Hd & Hin). destruct ib as [batch_idx images].
  unfold Train.batch_body.
  destruct (train_step epoch batch_idx images (t_model st, t_optimizer st))
    as [m o].
  cbn [t_fs]. destruct (batch_idx mod 100 =? 0); [|now exists d].
  rewrite Hd. unfold save_checkpoint. eexists. split; [reflexivity|].
  apply names_write_file. now right.
Qed.

Lemma run_has_epoch_file (len e : nat) (its : list (nat * (nat * Batch))) :
  forall st, has_epoch_file e (t_fs st) ->
             has_epoch_file e (t_fs (run len its st)).
Proof.
  unfold Train.run. induction its as [|it its IH]; intros st H; [exact H|].
  cbn [fold_left]. apply IH. now apply body_has_epoch_file.
Qed.

(** The first batch of an epoch writes that epoch's file. *)
Lemma first_batch_saves (len e : nat) (images : Batch) (st : state) :
  has_epoch_file e (t_fs (body len e st (0, images))).
Proof.
  unfold Train.batch_body.
  destruct (train_step e 0 images (t_model st, t_optimizer st)) as [m o].
  cbn [t_fs]. change (0 mod 100 =? 0) with true. cbv iota.
  unfold save_checkpoint. eexists. split; [reflexivity|].
  apply names_write_file. now left.
Qed.

Lemma run_reaches_epoch_file (len e : nat) (images : Batch)
  (its : list (nat * (nat * Batch))) :
  In (e, (0, images)) its ->
  forall st, has_epoch_file e (t_fs (run len its st)).
Proof.
  unfold Train.run. induction its as [|it its IH]; intros Hin st;
    [contradiction|].
  cbn [fold_left]. destruct Hin as [->|Hin]; [|now apply IH].
  apply run_has_epoch_file. cbn [fst snd]. apply first_batch_saves.
Qed.

(** After a run that reached epoch [e] and no later epoch, the file of
    epoch [e] stores the epoch value [e + 1] and the wrapper's
    dictionary.  A module that rejects that dictionary makes
    [load_checkpoint] return 0 with the optimizer untouched, and the
    restarted loop runs every epoch from epoch 0 on. *)
Lemma restart_after_run (checkpoint_dir : String.string)
  (len e epochs : nat) (images : Batch)
  (its : list (nat * (nat * Batch))) (train_loader : list Batch)
  (st : state) (w : world) :
  written e (t_fs st) ->
  In (e, (0, images)) its ->
  (forall it, In it its -> fst it <= e) ->
  (forall m0,
      exists ex m',
        load_state_dict (w_model w) (ddp_state_dict m0) = Raised ex m') ->
  (exists c,
      lookup (checkpoint_name e) (dir_of (t_fs (run len its st)))
      = Some (Pickle c)
      /\ ck_epoch c = Some (e + 1))
  /\ (exists ex m',
        load_checkpoint checkpoint_dir (t_fs (run len its st)) w
        = (inr 0,
           {| w_model := m';
              w_optimizer := w_optimizer w;
              w_stdout :=
                w_stdout w
                ++ [LoadingCheckpoint
                      (path_join checkpoint_dir (checkpoint_name e));
                    ErrorLoadingCheckpoint ex] |}))
  /\ resumed_iterations Batch checkpoint_dir epochs train_loader
       (t_fs (run len its st)) w
     = iterations Batch epochs 0 train_loader.
Proof.
  intros Hinit Hreach Hle Hreject.
  pose proof (run_written_up_to len e its Hle st Hinit) as Hinv.
  destruct (run_reaches_epoch_file len e images its Hreach st)
    as (d & Hd & Hname).
  rewrite Hd in *. cbn [written_up_to dir_of] in *.
  destruct Hinv as [ND Hall].
  apply in_map_iff in Hname as ([n f] & Hn & Hin). cbn [fst] in Hn.
  subst n.
  destruct (Hall _ _ Hin) as (e' & m & o & _ & He' & Hf).
  apply checkpoint_name_inj in He'. subst e' f.
  destruct (Hreject m) as (ex & m' & Hm').
  assert (Hload : load_checkpoint checkpoint_dir (Some d) w
                  = (inr 0,
                     {| w_model := m';
                        w_optimizer := w_optimizer w;
                        w_stdout :=
                          w_stdout w
                          ++ [LoadingCheckpoint
                                (path_join checkpoint_dir
                                   (checkpoint_name e));
                              ErrorLoadingCheckpoint ex] |})).
  { rewrite (load_checkpoint_only_latest checkpoint_dir d e
               (Pickle {| ck_epoch := Some (e + 1);
                          ck_state_dict := Some (ddp_state_dict m);
                          ck_optimizer := Some (optim_state_dict o) |})
               w ND).
    - now apply load_single_rejected.
    - intros n Hn _. apply in_map_iff in Hn as ([n' f'] & <- & Hin').
      destruct (Hall _ _ Hin') as (e' & _ & _ & _ & -> & _). now exists e'.
    - exact Hin.
    - intros e' He'. apply in_map_iff in He' as ([n' f'] & En & Hin').
      cbn [fst] in En. subst n'.
      destruct (Hall _ _ Hin') as (e'' & _ & _ & Hle' & E & _).
      apply checkpoint_name_inj in E. now subst e''. }
  split; [|split].
  - eexists. split; [apply lookup_in; [exact ND | exact Hin]|]. reflexivity.
  - now exists ex, m'.
  - unfold resumed_iterations. now rewrite Hload.
Qed.

(** *** Runs that are cut short *)

Abbreviation block loader :=
  (fun epoch : nat => map (pair epoch) (@enumerate Batch loader)).

Lemma seq_sorted (s n : nat) : StronglySorted lt (seq s n).
Proof.
  revert s. induction n as [|n IH]; intro s; cbn [seq]; constructor.
  - apply IH.
  - apply Forall_forall. intros x Hx. apply in_seq in Hx. lia.
Qed.

Lemma last_in_nonempty {A : Type} (l : list A) (d : A) :
  l <> [] -> In (last l d) l.
Proof.
  induction l as [|x l IH]; [contradiction|]. intros _.
  destruct l as [|y l]; [now left|].
  right. apply IH. discriminate.
Qed.

Lemma last_app_nonempty {A : Type} (l1 l2 : list A) (d : A) :
  l2 <> [] -> last (l1 ++ l2) d = last l2 d.
Proof.
  intros Hne. induction l1 as [|x l1 IH]; [reflexivity|].
  change (last (x :: (l1 ++ l2)) d = last l2 d).
  destruct (l1 ++ l2) as [|y l] eqn:E.
  - apply app_eq_nil in E as [_ ->]. contradiction.
  - exact IH.
Qed.

(** A non-empty prefix of one epoch's batches starts with batch 0 and
    stays in that epoch. *)
Lemma block_prefix (loader : list Batch) (epoch : nat)
  (its l : list (nat * (nat * Batch))) (d : nat * (nat * Batch)) :
  block loader epoch = its ++ l -> its <> [] ->
  fst (last its d) = epoch
  /\ (exists images, In (epoch, (0, images)) its)
  /\ forall it, In it its -> fst it = epoch.
Proof.
  intros E Hne.
  assert (Hall : forall it, In it its -> fst it = epoch).
  { intros it Hit.
    assert (Hin : In it (block loader epoch))
      by (rewrite E; apply in_or_app; now left).
    apply in_map_iff in Hin as (x & <- & _). reflexivity. }
  split; [apply Hall; now apply last_in_nonempty|]. split; [|exact Hall].
  destruct its as [|it its]; [contradiction|].
  destruct loader as [|images loader]; [discriminate E|].
  exists images. left. cbn in E. now injection E as <- _.
Qed.

Lemma prefix_structure (loader : list Batch) (d : nat * (nat * Batch))
  (es : list nat) :
  StronglySorted lt es ->
  forall its rest,
    its ++ rest = flat_map (block loader) es -> its <> [] ->
    (exists images, In (fst (last its d), (0, images)) its)
    /\ forall it, In it its -> fst it <= fst (last its d).
Proof.
  induction 1 as [|e0 es Hsorted IH Hlt]; intros its rest E Hne.
  - cbn in E. apply app_eq_nil in E as [-> _]. contradiction.
  - cbn [flat_map] in E. symmetry in E.
    apply app_eq_app in E as [l [[E1 E2]|[E1 E2]]].
    + destruct (block_prefix loader e0 its l d E1 Hne) as (Hl & Hz & Hall).
      rewrite Hl. split; [exact Hz|].
      intros it Hit. rewrite (Hall it Hit). lia.
    + destruct l as [|x l].
      * rewrite app_nil_r in E1.
        destruct (block_prefix loader e0 its [] d) as (Hl & Hz & Hall);
          [now rewrite app_nil_r | exact Hne |].
        rewrite Hl. split; [exact Hz|].
        intros it Hit. rewrite (Hall it Hit). lia.
      * assert (Hx : x :: l <> []) by discriminate.
        destruct (IH (x :: l) rest (eq_sym E2) Hx) as [[images Hz] Hall].
        subst its. rewrite (last_app_nonempty _ _ d Hx).
        split; [exists images; apply in_or_app; now right|].
        intros it Hit. apply in_app_or in Hit as [Hit|Hit];
          [|now apply Hall].
        apply in_map_iff in Hit as (y & <- & _). cbn [fst].
        assert (Hin : In (fst (last (x :: l) d)) es).
        { assert (H' : In (last (x :: l) d) (flat_map (block loader) es)).
          { rewrite E2. apply in_or_app. left.
            now apply last_in_nonempty. }
          apply in_flat_map in H' as (e' & He' & Hin').
          apply in_map_iff in Hin' as (y' & <- & _). exact He'. }
        rewrite Forall_forall in Hlt. specialize (Hlt _ Hin). lia.
Qed.

(** C2, as the code behaves.  A training process that dies after some
    iterations, the last one in epoch [e], leaves in the file of epoch
    [e] the epoch value [e + 1] and the state dictionary of the
    [DistributedDataParallel] wrapper.  The module given to
    [load_checkpoint] rejects that dictionary, so the restart reads
    neither [e] nor [e + 1]: [load_checkpoint] reports the error and
    returns 0, the optimizer is not restored, and the restarted loop
    runs every epoch again from the first batch of epoch 0, on whatever
    batches [restart_loader] the restarted process draws. *)
Theorem resume_restarts_at_epoch_zero (checkpoint_dir : String.string)
  (epochs start_epoch : nat) (train_loader restart_loader : list Batch)
  (its rest : list (nat * (nat * Batch))) (d : nat * (nat * Batch))
  (st : state) (w : world) :
  its ++ rest = iterations Batch epochs start_epoch train_loader ->
  its <> [] ->
  written (fst (last its d)) (t_fs st) ->
  (forall m0,
      exists ex m',
        load_state_dict (w_model w) (ddp_state_dict m0) = Raised ex m') ->
  let e := fst (last its d) in
  let fs := t_fs (run (length train_loader) its st) in
  (exists c,
      lookup (checkpoint_name e) (dir_of fs) = Some (Pickle c)
      /\ ck_epoch c = Some (e + 1))
  /\ (exists ex m',
        load_checkpoint checkpoint_dir fs w
        = (inr 0,
           {| w_model := m';
              w_optimizer := w_optimizer w;
              w_stdout :=
                w_stdout w
                ++ [LoadingCheckpoint
                      (path_join checkpoint_dir (checkpoint_name e));
                    ErrorLoadingCheckpoint ex] |}))
  /\ resumed_iterations Batch checkpoint_dir epochs restart_loader fs w
     = iterations Batch epochs 0 restart_loader.
Proof.
  intros E Hne Hinit Hreject e fs.
  destruct (prefix_structure train_loader d (range start_epoch epochs)
              (seq_sorted _ _) its rest E Hne) as [[images Hz] Hall].
  exact (restart_after_run checkpoint_dir (length train_loader) e epochs
           images its restart_loader st w Hinit Hz Hall Hreject).
Qed.

End Loop.

(** Three epochs of three batches on the small encoder, cut after the
    first batch of epoch 1: the file of epoch 1 stores the epoch value
    2, the restart reads 0, and its first iteration is batch 0 of
    epoch 0 (the loader now yields the batches in another order). *)
Lemma restart_in_second_epoch :
  let its := [(0, (0, 10)); (0, (1, 11)); (0, (2, 12)); (1, (0, 10))] in
  let fs := t_fs (Train.run nat small_step small_ddp 3 its small_start) in
  (its ++ [(1, (1, 11)); (1, (2, 12));
           (2, (0, 10)); (2, (1, 11)); (2, (2, 12))]
   = iterations nat 3 0 [10; 11; 12])
  /\ (exists c,
        lookup (checkpoint_name 1) (dir_of fs) = Some (Pickle c)
        /\ ck_epoch c = Some 2)
  /\ fst (load_checkpoint sample_dir fs (small_world [0; 0; 0] 0 []))
     = inr 0
  /\ resumed_iterations nat sample_dir 3 [12; 10; 11] fs
       (small_world [0; 0; 0] 0 [])
     = iterations nat 3 0 [12; 10; 11]
  /\ hd_error (resumed_iterations nat sample_dir 3 [12; 10; 11] fs
                 (small_world [0; 0; 0] 0 []))
     = Some (0, (0, 12)).
Proof.
  intros its fs.
  destruct (resume_restarts_at_epoch_zero nat small_step small_ddp
              sample_dir 3 0 [10; 11; 12] [12; 10; 11] its
              [(1, (1, 11)); (1, (2, 12));
               (2, (0, 10)); (2, (1, 11)); (2, (2, 12))]
              (0, (0, 0)) small_start (small_world [0; 0; 0] 0 []))
    as (Hfile & (ex & m' & Hload) & Hres).
  - reflexivity.
  - discriminate.
  - exact I.
  - intros m0. apply (strict_load_rejects_wrapper nat small_arch).
    discriminate.
  - split; [reflexivity|]. split; [exact Hfile|].
    split; [exact (f_equal fst Hload)|]. split; [exact Hres|].
    exact (f_equal (@hd_error _) Hres).
Defined.

End TrainFacts.

(** ** Batch sizes *)

Module LoaderFacts.
Import Loader.

Section Batching.
Context {A : Type}.
Implicit Types (samples : list A) (b : list A).

Lemma whole_batch_length (bs : nat) samples (i : nat) :
  0 < bs -> i < length samples / bs ->
  length (firstn bs (skipn (i * bs) samples)) = bs.
Proof.
  intros Hbs Hi. rewrite length_firstn, length_skipn.
  pose proof (Nat.Div0.mul_div_le (length samples) bs).
  assert (i * bs + bs <= bs * (length samples / bs)) by nia.
  lia.
Qed.

Lemma rest_length (bs : nat) samples :
  0 < bs ->
  length (skipn (length samples / bs * bs) samples) < bs.
Proof.
  intros Hbs. rewrite length_skipn.
  pose proof (Nat.mod_upper_bound (length samples) bs).
  pose proof (Nat.div_mod_eq (length samples) bs).
  nia.
Qed.

(** With [drop_last] every batch is full. *)
Lemma batches_drop_last (bs : nat) samples b :
  0 < bs -> In b (batches bs true samples) -> length b = bs.
Proof.
  intros Hbs. unfold batches.
  destruct (skipn (length samples / bs * bs) samples);
    intros Hin; apply in_map_iff in Hin as (i & <- & Hi);
    apply in_seq in Hi; apply whole_batch_length; lia.
Qed.

(** Without it a batch is never empty and never over-full, and every
    batch before the last one is full. *)
Lemma batches_keep_last (bs : nat) samples :
  0 < bs ->
  (forall b, In b (batches bs false samples) -> 1 <= length b <= bs)
  /\ (forall i, S i < length (batches bs false samples) ->
                length (nth i (batches bs false samples) []) = bs).
Proof.
  intros Hbs. unfold batches.
  pose proof (rest_length bs samples Hbs) as Hrest.
  set (whole := map (fun i => firstn bs (skipn (i * bs) samples))
                  (seq 0 (length samples / bs))).
  assert (Hwhole : forall b, In b whole -> length b = bs).
  { intros b Hin. apply in_map_iff in Hin as (i & <- & Hi).
    apply in_seq in Hi. apply whole_batch_length; lia. }
  assert (Hnth : forall i, i < length whole -> length (nth i whole []) = bs).
  { intros i Hi. apply Hwhole. now apply nth_In. }
  destruct (skipn (length samples / bs * bs) samples) as [|x rest] eqn:E.
  - split.
    + intros b Hb. rewrite (Hwhole b Hb). lia.
    + intros i Hi. apply Hnth. lia.
  - split.
    + intros b Hb. apply in_app_or in Hb as [Hb|[<-|[]]].
      * rewrite (Hwhole b Hb). lia.
      * cbn [length] in *. lia.
    + intros i Hi. rewrite length_app in Hi. cbn [length] in Hi.
      rewrite app_nth1 by lia. apply Hnth. lia.
Qed.

(** C8, as the code behaves.  The loaders of the evaluation script drop
    the last partial batch, so each of their batches has exactly [BATCH]
    samples; the loaders of the training script keep it, so their batches
    have between 1 and 256 samples and all but the last have 256. *)
Theorem batch_sizes (sampler : list A -> list A)
  (train_set test_set : list A) :
  (forall dl b,
      In dl [fst (eval_get_data_loaders train_set test_set);
             snd (eval_get_data_loaders train_set test_set)] ->
      In b (iterate sampler dl) -> length b = BATCH)
  /\ (forall dl,
        In dl [fst (train_get_data_loaders train_set test_set);
               snd (train_get_data_loaders train_set test_set)] ->
        (forall b, In b (iterate sampler dl) -> 1 <= length b <= 256)
        /\ (forall i, S i < length (iterate sampler dl) ->
                      length (nth i (iterate sampler dl) []) = 256)).
Proof.
  split.
  - intros dl b [<-|[<-|[]]] Hb; unfold iterate in Hb; cbn in Hb;
      apply batches_drop_last in Hb; (exact Hb || (unfold BATCH; lia)).
  - intros dl [<-|[<-|[]]]; unfold iterate; cbn;
      apply batches_keep_last; lia.
Qed.

End Batching.

(** The training loader on 257 samples: its second batch holds one
    sample, so not every batch has the configured 256. *)
Lemma train_loader_partial_batch :
  In [256] (iterate (fun l => l)
              (fst (train_get_data_loaders (seq 0 257) [])))
  /\ ~ (forall b,
          In b (iterate (fun l => l)
                  (fst (train_get_data_loaders (seq 0 257) []))) ->
          length b = batch_size (fst (train_get_data_loaders (seq 0 257) []))).
Proof.
  assert (Hin : In [256] (iterate (fun l => l)
                            (fst (train_get_data_loaders (seq 0 257) [])))).
  { vm_compute. right. left. reflexivity. }
  split; [exact Hin|]. intros H. specialize (H [256] Hin). discriminate H.
Qed.

(** *** What the batches hold *)

Section Coverage.
Context {A : Type}.
Implicit Types (samples : list A).

Lemma firstn_add (a b : nat) samples :
  firstn (a + b) samples = firstn a samples ++ firstn b (skipn a samples).
Proof.
  revert samples. induction a as [|a IH]; intros samples; [reflexivity|].
  destruct samples as [|x samples]; cbn [Nat.add firstn skipn app].
  - now rewrite firstn_nil.
  - now rewrite IH.
Qed.

Lemma concat_whole (bs k : nat) samples :
  concat (map (fun i => firstn bs (skipn (i * bs) samples)) (seq 0 k))
  = firstn (k * bs) samples.
Proof.
  induction k as [|k IH]; [reflexivity|].
  rewrite seq_S, map_app, concat_app, IH. cbn [map concat Nat.add].
  rewrite app_nil_r. replace (S k * bs) with (k * bs + bs) by lia.
  symmetry. apply firstn_add.
Qed.

Lemma concat_batches_keep (bs : nat) samples :
  concat (batches bs false samples) = samples.
Proof.
  unfold batches.
  destruct (skipn (length samples / bs * bs) samples) as [|x rest] eqn:E.
  - rewrite concat_whole.
    transitivity (firstn (length samples / bs * bs) samples
                  ++ skipn (length samples / bs * bs) samples);
      [now rewrite E, app_nil_r | apply firstn_skipn].
  - rewrite concat_app, concat_whole. cbn [concat]. rewrite app_nil_r.
    rewrite <- E. apply firstn_skipn.
Qed.

Lemma concat_batches_drop (bs : nat) samples :
  concat (batches bs true samples)
  = firstn (length samples / bs * bs) samples.
Proof.
  unfold batches.
  destruct (skipn (length samples / bs * bs) samples);
    apply concat_whole.
Qed.

Lemma length_batches_drop (bs : nat) samples :
  length (batches bs true samples) = length samples / bs.
Proof.
  unfold batches.
  destruct (skipn (length samples / bs * bs) samples);
    now rewrite length_map, length_seq.
Qed.

(** The loaders of the training script lose and repeat nothing: the
    batches of one pass, laid end to end, are the samples in the order
    drawn. *)
Theorem train_loaders_cover (sampler : list A -> list A)
  (train_set test_set : list A) :
  concat (iterate sampler (fst (train_get_data_loaders train_set test_set)))
  = sampler train_set
  /\ concat (iterate sampler
              (snd (train_get_data_loaders train_set test_set)))
     = sampler test_set.
Proof.
  split; unfold iterate; cbn [fst snd train_get_data_loaders batch_size
    drop_last shuffle dataset]; apply concat_batches_keep.
Qed.

(** The evaluation loader of the evaluation script keeps the dataset
    order and yields [n / 32] batches holding the first [n / 32 * 32]
    samples: fewer than 32 samples are left out, and a split of fewer
    than 32 samples yields no batch. *)
Theorem eval_loader_drops_tail (sampler : list A -> list A)
  (train_set test_set : list A) :
  let batches_ :=
    iterate sampler (snd (eval_get_data_loaders train_set test_set)) in
  concat batches_ = firstn (length test_set / BATCH * BATCH) test_set
  /\ length batches_ = length test_set / BATCH
  /\ length test_set - length (concat batches_) < BATCH
  /\ (length test_set < BATCH -> batches_ = []).
Proof.
  intros batches_. unfold batches_, iterate.
  cbn [fst snd eval_get_data_loaders batch_size drop_last shuffle dataset].
  rewrite concat_batches_drop, length_batches_drop.
  split; [reflexivity|]. split; [reflexivity|]. split.
  - rewrite length_firstn.
    pose proof (Nat.mod_upper_bound (length test_set) BATCH).
    pose proof (Nat.div_mod_eq (length test_set) BATCH).
    pose proof (Nat.Div0.mul_div_le (length test_set) BATCH).
    unfold BATCH in *. lia.
  - intros Hlt.
    assert (E : batches BATCH true test_set <> [] -> False).
    { intros Hne. apply Hne. apply length_zero_iff_nil.
      rewrite length_batches_drop. now apply Nat.div_small. }
    destruct (batches BATCH true test_set) eqn:Eb; [reflexivity|].
    exfalso. apply E. discriminate.
Qed.

End Coverage.

End LoaderFacts.

(** ** Classifier dispatch *)

Module EvalFacts.
Import String.
Import Datatypes List.
Import Py Extract Eval.

Section Classifiers.
Variables SGDClassifier KNeighborsClassifier : Type.
Variable sgd_new : SGDClassifier.
Variable partial_fit :
  SGDClassifier -> list (list R) -> list nat -> exn + SGDClassifier.
Variable sgd_predict : SGDClassifier -> list (list R) -> exn + list nat.
Variable knn_new : KNeighborsClassifier.
Variable knn_fit :
  KNeighborsClassifier -> list (list R) -> list nat
  -> exn + KNeighborsClassifier.
Variable knn_predict :
  KNeighborsClassifier -> list (list R) -> exn + list nat.
Variable compute_metrics : list nat -> list nat -> exn + unit.
Variable savefig : string -> exn + unit.

(** C9. A classifier type other than "logistic" and "knn" makes
    [evaluate_model_incremental] raise a [ValueError] that names the
    type, before any call that fits, predicts, scores or plots. *)
Theorem unsupported_classifier_type
  (train_features_dir train_labels_dir test_features_dir
     test_labels_dir : directory)
  (save_dir classifier_type : String.string) (tr : list event) :
  classifier_type <> "logistic"%string ->
  classifier_type <> "knn"%string ->
  evaluate_model_incremental SGDClassifier KNeighborsClassifier
    sgd_new partial_fit sgd_predict knn_new knn_fit knn_predict
    compute_metrics savefig
    train_features_dir train_labels_dir test_features_dir test_labels_dir
    save_dir classifier_type tr
  = (inl (ValueError
            (String.append "Unsupported classifier type: "
               classifier_type)),
     tr).
Proof.
  intros Hlog Hknn. unfold evaluate_model_incremental, bind at 1.
  apply String.eqb_neq in Hlog, Hknn. now rewrite Hlog, Hknn.
Qed.

End Classifiers.

Local Open Scope string_scope.

(** A classifier type the script does not know. *)
Lemma unsupported_classifier_type_svm :
  ("svm" <> "logistic" /\ "svm" <> "knn")
  /\ evaluate_model_incremental unit unit tt (fun c _ _ => inr c)
       (fun _ _ => inr []) tt (fun c _ _ => inr c) (fun _ _ => inr [])
       (fun _ _ => inr tt) (fun _ => inr tt)
       [] [] [] [] "results" "svm" []
     = (inl (ValueError "Unsupported classifier type: svm"), []).
Proof.
  split; [split; discriminate|].
  apply (unsupported_classifier_type unit unit tt (fun c _ _ => inr c)
           (fun _ _ => inr []) tt (fun c _ _ => inr c) (fun _ _ => inr [])
           (fun _ _ => inr tt) (fun _ => inr tt)
           [] [] [] [] "results" "svm" []); discriminate.
Defined.

End EvalFacts.

(** ** Feature extraction and shards *)

Module ExtractFacts.
Import String Ascii.
Import Datatypes List.
Import Py PyStr PyStrFacts Fs FsFacts Tensor TensorFacts Extract.
Local Open Scope string_scope.

(** *** Reshaping *)

Lemma skipn_concat_block {A : Type} (n : nat) (ll : list (list A)) (i : nat) :
  Forall (fun l => length l = n) ll ->
  skipn (i * n) (concat ll) = concat (skipn i ll).
Proof.
  intros Hall. revert i. induction Hall as [|l ll Hl Hall IH]; intro i.
  - now rewrite !skipn_nil.
  - destruct i as [|i]; [reflexivity|].
    cbn [concat skipn Nat.mul]. rewrite skipn_app, skipn_all2 by lia.
    cbn [app]. replace (n + i * n - length l) with (i * n) by lia.
    apply IH.
Qed.

(** Flattening samples of equal size and regrouping them by that size
    gives the samples back. *)
Lemma view3_concat {A : Type} (n : nat) (ll : list (list A)) :
  Forall (fun l => length l = n) ll ->
  view3 (length ll) n (concat ll) = ll.
Proof.
  intros Hall. unfold view3.
  transitivity (map (fun k => nth k ll []) (seq 0 (length ll)));
    [|symmetry; apply list_nth_seq].
  apply map_ext_in.
  intros i Hi. apply in_seq in Hi.
  rewrite (skipn_concat_block n ll i Hall).
  assert (Hsk : skipn i ll = nth i ll [] :: skipn (S i) ll).
  { clear Hall. revert i Hi. induction ll as [|l ll IH]; intros i Hi;
      [cbn in Hi; lia|].
    destruct i as [|i]; [reflexivity|].
    cbn [skipn nth]. apply IH. cbn in Hi. lia. }
  rewrite Hsk. cbn [concat].
  assert (Hlen : length (nth i ll []) = n).
  { rewrite Forall_forall in Hall. apply Hall, nth_In. lia. }
  rewrite firstn_app, Hlen, Nat.sub_diag, firstn_O, app_nil_r.
  rewrite <- Hlen. apply firstn_all.
Qed.

(** *** Shard names *)

Lemma features_name_eq (split_name : string) (i : nat) :
  features_name split_name i
  = (split_name ++ "_features_batch_") ++ shard_suffix i.
Proof. unfold features_name, shard_suffix. now rewrite append_assoc. Qed.

Lemma labels_name_eq (split_name : string) (i : nat) :
  labels_name split_name i
  = (split_name ++ "_labels_batch_") ++ shard_suffix i.
Proof. unfold labels_name, shard_suffix. now rewrite append_assoc. Qed.

Lemma features_name_prefix (split_name : string) (i : nat) :
  startswith (features_name split_name i) (split_name ++ "_features_batch_")
  = true.
Proof. rewrite features_name_eq. apply prefix_app. Qed.

Lemma labels_name_prefix (split_name : string) (i : nat) :
  startswith (labels_name split_name i) (split_name ++ "_labels_batch_")
  = true.
Proof. rewrite labels_name_eq. apply prefix_app. Qed.

Lemma labels_name_not_features (split_name : string) (i : nat) :
  startswith (labels_name split_name i) (split_name ++ "_features_batch_")
  = false.
Proof.
  unfold startswith, labels_name. rewrite prefix_common. reflexivity.
Qed.

Lemma features_name_not_labels (split_name : string) (i : nat) :
  startswith (features_name split_name i) (split_name ++ "_labels_batch_")
  = false.
Proof.
  unfold startswith, features_name. rewrite prefix_common. reflexivity.
Qed.

Lemma shard_suffix_inj (i j : nat) : shard_suffix i = shard_suffix j -> i = j.
Proof.
  unfold shard_suffix. intros E.
  assert (H : forall k, hd "" (split "."%char (str k ++ ".npy")) = str k).
  { intros k. change (str k ++ ".npy") with (str k ++ String "." "npy").
    now rewrite split_at_sep by apply str_no_dot. }
  apply str_inj. now rewrite <- (H i), <- (H j), E.
Qed.

Lemma features_name_inj (split_name : string) (i j : nat) :
  features_name split_name i = features_name split_name j -> i = j.
Proof.
  rewrite !features_name_eq. intros E.
  now apply append_inv_head, shard_suffix_inj in E.
Qed.

Lemma labels_name_inj (split_name : string) (i j : nat) :
  labels_name split_name i = labels_name split_name j -> i = j.
Proof.
  rewrite !labels_name_eq. intros E.
  now apply append_inv_head, shard_suffix_inj in E.
Qed.

Lemma features_name_neq_labels (split_name : string) (i j : nat) :
  features_name split_name i <> labels_name split_name j.
Proof.
  intros E. pose proof (features_name_prefix split_name i) as H.
  rewrite E, labels_name_not_features in H. discriminate.
Qed.

Lemma mean_rows_elementwise (g : list (list R)) :
  mean_rows g = elementwise_mean g.
Proof.
  unfold mean_rows, elementwise_mean. apply map_ext. intros d.
  unfold mean. now rewrite length_map.
Qed.

Section Encoder.
Variables Img FeatMap : Type.
Variable flatten : FeatMap -> list R.

Abbreviation agg := (aggregated_features flatten).

(** One feature row per sample: the mean of the feature vectors of the
    sample's images. *)
Lemma aggregated_features_rows (model : SimCLREncoder Img FeatMap)
  (f : Img -> FeatMap) (imgs : list (list Img)) :
  (forall l, base model l = map f l) ->
  Forall (fun s => length s = length (hd [] imgs)) imgs ->
  agg model imgs
  = map (fun sample =>
           elementwise_mean (map (fun img => flatten (f img)) sample))
      imgs.
Proof.
  intros Hbase Hshape. unfold aggregated_features.
  rewrite Hbase, map_map, concat_map.
  rewrite <- (length_map (map (fun img => flatten (f img))) imgs).
  rewrite view3_concat.
  - rewrite map_map. apply map_ext. intros s. apply mean_rows_elementwise.
  - rewrite Forall_map. revert Hshape. apply Forall_impl.
    intros s Hs. now rewrite length_map.
Qed.

(** *** What an extraction run writes *)

Abbreviation body := (extract_body flatten).
Abbreviation shard := (shards flatten).

Lemma extract_step (model : SimCLREncoder Img FeatMap)
  (split_name : string) (fs : directory) (ib : nat * batch Img) :
  ~ In (features_name split_name (fst ib)) (map fst fs) ->
  ~ In (labels_name split_name (fst ib)) (map fst fs) ->
  body model split_name fs ib = (fs ++ shard model split_name ib)%list.
Proof.
  destruct ib as [i b]. unfold extract_body, shards. cbn [fst snd].
  intros Hf Hl. rewrite (write_file_fresh fs _ _ Hf).
  rewrite write_file_fresh; [now rewrite <- app_assoc|].
  rewrite map_app, in_app_iff. cbn [map fst In].
  intros [H|[H|[]]]; [now apply Hl|].
  now apply (features_name_neq_labels split_name i i).
Qed.

Lemma extract_fold (model : SimCLREncoder Img FeatMap)
  (split_name : string) (ibs : list (nat * batch Img)) :
  forall fs,
    NoDup (map fst ibs) ->
    (forall i, In i (map fst ibs) ->
               ~ In (features_name split_name i) (map fst fs)
               /\ ~ In (labels_name split_name i) (map fst fs)) ->
    fold_left (body model split_name) ibs fs
    = (fs ++ flat_map (shard model split_name) ibs)%list.
Proof.
  induction ibs as [|ib ibs IH]; intros fs ND Hfresh.
  - cbn. now rewrite app_nil_r.
  - cbn [fold_left flat_map]. cbn [map] in ND, Hfresh.
    inversion ND as [|? ? Hnotin ND']; subst.
    destruct (Hfresh (fst ib) (or_introl eq_refl)) as [Hf0 Hl0].
    rewrite (extract_step model split_name fs ib Hf0 Hl0).
    rewrite IH; [now rewrite <- app_assoc | exact ND' |].
    intros i Hi. destruct (Hfresh i (or_intror Hi)) as [Hf Hl].
    assert (Hne : i <> fst ib) by (intros ->; contradiction).
    unfold shards.
    split; rewrite map_app, in_app_iff; cbn [map fst In];
      intros [H|[H|[H|[]]]].
    + now apply Hf.
    + apply features_name_inj in H. now apply Hne.
    + symmetry in H. now apply features_name_neq_labels in H.
    + now apply Hl.
    + now apply features_name_neq_labels in H.
    + apply labels_name_inj in H. now apply Hne.
Qed.

Lemma enumerate_indices {A : Type} (l : list A) :
  map fst (enumerate l) = seq 0 (length l).
Proof.
  unfold enumerate. generalize 0.
  induction l as [|x l IH]; intro s; cbn; [reflexivity|].
  now rewrite IH.
Qed.

Lemma in_enumerate {A : Type} (l : list A) (d : A) (i : nat) :
  i < length l -> In (i, nth i l d) (enumerate l).
Proof.
  unfold enumerate.
  assert (H : forall s, i < length l ->
                        In (s + i, nth i l d) (combine (seq s (length l)) l)).
  { revert i. induction l as [|x l IH]; intros i s Hi; [cbn in Hi; lia|].
    destruct i as [|i]; cbn.
    - left. f_equal. lia.
    - right. replace (s + S i) with (S s + i) by lia. apply IH.
      cbn in Hi. lia. }
  apply (H 0).
Qed.

(** On a directory without shard names of the split, extraction adds
    the two files of each batch, in loader order. *)
Lemma extract_appends (model : SimCLREncoder Img FeatMap)
  (loader : list (batch Img)) (fs : directory) (split_name : string) :
  fresh_for split_name fs ->
  extract_features_and_labels flatten model loader fs split_name
  = (fs ++ flat_map (shard model split_name) (enumerate loader))%list.
Proof.
  intros Hfresh. unfold extract_features_and_labels.
  apply extract_fold.
  - rewrite enumerate_indices. apply seq_NoDup.
  - intros i _. split; intros Hin; destruct (Hfresh _ Hin) as [Hf Hl].
    + now rewrite features_name_prefix in Hf.
    + now rewrite labels_name_prefix in Hl.
Qed.

Lemma extract_nodup (model : SimCLREncoder Img FeatMap)
  (loader : list (batch Img)) (fs : directory) (split_name : string) :
  NoDup (map fst fs) ->
  NoDup (map fst (extract_features_and_labels flatten model loader fs
                    split_name)).
Proof.
  unfold extract_features_and_labels. generalize (enumerate loader).
  intros ibs. revert fs. induction ibs as [|[i b] ibs IH]; intros fs ND;
    [exact ND|].
  cbn [fold_left]. apply IH. unfold extract_body.
  now do 2 apply nodup_write_file.
Qed.

(** *** Reading the shards back *)

Lemma filter_fresh (split_name prefix : string) (fs : directory) :
  (forall n, In n (map fst fs) -> startswith n prefix = false) ->
  filter (fun f => startswith f prefix) (map fst fs) = [].
Proof.
  induction (map fst fs) as [|n l IH]; intros H; [reflexivity|].
  cbn [filter]. rewrite (H n (or_introl eq_refl)).
  apply IH. intros x Hx. apply H. now right.
Qed.

Lemma feature_files_written (model : SimCLREncoder Img FeatMap)
  (split_name : string) (ibs : list (nat * batch Img)) :
  filter (fun f => startswith f (split_name ++ "_features_batch_"))
    (map fst (flat_map (shard model split_name) ibs))
  = map (features_name split_name) (map fst ibs).
Proof.
  induction ibs as [|ib ibs IH]; [reflexivity|].
  cbn [flat_map shards app map fst filter].
  now rewrite features_name_prefix, labels_name_not_features, IH.
Qed.

Lemma label_files_written (model : SimCLREncoder Img FeatMap)
  (split_name : string) (ibs : list (nat * batch Img)) :
  filter (fun f => startswith f (split_name ++ "_labels_batch_"))
    (map fst (flat_map (shard model split_name) ibs))
  = map (labels_name split_name) (map fst ibs).
Proof.
  induction ibs as [|ib ibs IH]; [reflexivity|].
  cbn [flat_map shards app map fst filter].
  now rewrite features_name_not_labels, labels_name_prefix, IH.
Qed.

Lemma concat_features_some (F : nat -> list (list R)) (order : list nat) :
  concat_features (map (fun i => Some (Features (F i))) order)
  = Some (concat (map F order)).
Proof.
  induction order as [|i order IH]; [reflexivity|].
  cbn [map concat_features concat]. now rewrite IH.
Qed.

Lemma concat_labels_some (L : nat -> list nat) (order : list nat) :
  concat_labels (map (fun i => Some (Labels (L i))) order)
  = Some (concat (map L order)).
Proof.
  induction order as [|i order IH]; [reflexivity|].
  cbn [map concat_labels concat]. now rewrite IH.
Qed.

(** The shards come back in the order in which [sorted] puts their
    suffixes; features and labels follow the same order. *)
Lemma load_after_extract (model : SimCLREncoder Img FeatMap)
  (loader : list (batch Img)) (fs : directory) (split_name : string)
  (order : list nat) :
  NoDup (map fst fs) -> fresh_for split_name fs ->
  sorted (map shard_suffix (seq 0 (length loader)))
  = map shard_suffix order ->
  (forall i, In i order -> i < length loader) ->
  order <> [] ->
  load_and_concatenate_features
    (extract_features_and_labels flatten model loader fs split_name)
    split_name
  = Some (feature_matrix_in flatten model loader order,
          label_vector_in loader order).
Proof.
  intros ND Hfresh Hsorted Hlt Hne.
  pose proof (extract_nodup model loader fs split_name ND) as ND'.
  set (fs' := extract_features_and_labels flatten model loader fs
                split_name) in *.
  assert (Efs : fs' = (fs ++ flat_map (shard model split_name)
                               (enumerate loader))%list)
    by now apply extract_appends.
  assert (Hin : forall i, i < length loader ->
                  In (i, nth i loader no_batch) (enumerate loader))
    by (intros i; apply in_enumerate).
  unfold load_and_concatenate_features.
  assert (Ef : sorted (filter (fun f => startswith f
                                 (split_name ++ "_features_batch_"))
                         (map fst fs'))
               = map (features_name split_name) order).
  { rewrite Efs, map_app, filter_app.
    rewrite (filter_fresh split_name) by (intros n Hn; apply Hfresh, Hn).
    rewrite feature_files_written, enumerate_indices. cbn [app].
    rewrite (map_ext _ _ (features_name_eq split_name)).
    rewrite <- (map_map shard_suffix), sorted_map
      by (intros a b; apply str_le_common).
    rewrite Hsorted, map_map. apply map_ext. intros i.
    symmetry. apply features_name_eq. }
  assert (El : sorted (filter (fun f => startswith f
                                 (split_name ++ "_labels_batch_"))
                         (map fst fs'))
               = map (labels_name split_name) order).
  { rewrite Efs, map_app, filter_app.
    rewrite (filter_fresh split_name) by (intros n Hn; apply Hfresh, Hn).
    rewrite label_files_written, enumerate_indices. cbn [app].
    rewrite (map_ext _ _ (labels_name_eq split_name)).
    rewrite <- (map_map shard_suffix), sorted_map
      by (intros a b; apply str_le_common).
    rewrite Hsorted, map_map. apply map_ext. intros i.
    symmetry. apply labels_name_eq. }
  rewrite Ef, El, !map_map.
  rewrite (map_ext_in _ (fun i => Some (Features
             (aggregated_features flatten model
                (images (nth i loader no_batch)))))).
  2:{ intros i Hi. apply lookup_in; [exact ND'|]. rewrite Efs.
      apply in_or_app. right. apply in_flat_map.
      exists (i, nth i loader no_batch). split; [now apply Hin, Hlt|].
      now left. }
  rewrite (map_ext_in (fun i => lookup (labels_name split_name i) fs')
             (fun i => Some (Labels (fine_grained (nth i loader no_batch))))).
  2:{ intros i Hi. apply lookup_in; [exact ND'|]. rewrite Efs.
      apply in_or_app. right. apply in_flat_map.
      exists (i, nth i loader no_batch). split; [now apply Hin, Hlt|].
      right. now left. }
  unfold np_concatenate.
  destruct order as [|i0 order]; [contradiction|].
  cbn [map].
  change (Some (Features (agg model (images (nth i0 loader no_batch))))
            :: map (fun i => Some (Features
                      (agg model (images (nth i loader no_batch))))) order)
    with (map (fun i => Some (Features
                 (agg model (images (nth i loader no_batch)))))
            (i0 :: order)).
  change (Some (Labels (fine_grained (nth i0 loader no_batch)))
            :: map (fun i => Some (Labels
                      (fine_grained (nth i loader no_batch)))) order)
    with (map (fun i => Some (Labels
                 (fine_grained (nth i loader no_batch))))
            (i0 :: order)).
  now rewrite concat_features_some, concat_labels_some.
Qed.

Lemma lookup_feature_shard (model : SimCLREncoder Img FeatMap)
  (loader : list (batch Img)) (fs : directory) (split_name : string)
  (i : nat) :
  NoDup (map fst fs) -> fresh_for split_name fs -> i < length loader ->
  lookup (features_name split_name i)
    (extract_features_and_labels flatten model loader fs split_name)
  = Some (Features (agg model (images (nth i loader no_batch)))).
Proof.
  intros ND Hfresh Hi. apply lookup_in; [now apply extract_nodup|].
  rewrite extract_appends by assumption.
  apply in_or_app. right. apply in_flat_map.
  exists (i, nth i loader no_batch). split; [now apply in_enumerate|].
  now left.
Qed.

Lemma sorted_suffixes_small (N : nat) :
  N <= 10 ->
  sorted (map shard_suffix (seq 0 N)) = map shard_suffix (seq 0 N).
Proof.
  intros HN.
  do 11 (destruct N as [|N]; [vm_compute; reflexivity|]). lia.
Qed.

(** Indices whose suffixes are in [sorted] order are in the order of
    their numerals. *)
Lemma suffix_order (order : list nat) :
  NoDup order ->
  StronglySorted (fun a b => str_le a b = true) (map shard_suffix order) ->
  StronglySorted index_lt order.
Proof.
  induction order as [|x order IH]; intros ND Hs; [constructor|].
  cbn [map] in Hs. inversion Hs as [|? ? Hs' Hx]; subst.
  inversion ND as [|? ? Hnotin ND']; subst.
  constructor; [now apply IH|].
  apply Forall_forall. intros y Hy. rewrite Forall_forall in Hx.
  specialize (Hx (shard_suffix y) (in_map _ _ _ Hy)).
  apply str_le_cases in Hx as [E|Hlt].
  - apply shard_suffix_inj in E. now subst.
  - unfold index_lt, String.ltb. unfold shard_suffix in Hlt.
    change ".npy" with (String "." "npy") in Hlt.
    rewrite compare_before_dot in Hlt by apply str_above_dot.
    now rewrite Hlt.
Qed.

Lemma sorted_suffixes_order (N : nat) :
  exists order,
    Permutation (seq 0 N) order
    /\ StronglySorted index_lt order
    /\ sorted (map shard_suffix (seq 0 N)) = map shard_suffix order.
Proof.
  destruct (Permutation_map_inv shard_suffix (seq 0 N)
              (sorted_perm (map shard_suffix (seq 0 N))))
    as (order & E & Hperm).
  exists order. split; [exact Hperm|]. split; [|exact E].
  apply suffix_order.
  - apply (Permutation_NoDup Hperm), seq_NoDup.
  - rewrite <- E. apply sorted_sorted.
Qed.

(** What is read back does not depend on the order in which the
    directory lists its files. *)
Lemma load_listing (d d' : directory) (split_name : string) :
  NoDup (map fst d) -> Permutation d' d ->
  load_and_concatenate_features d' split_name
  = load_and_concatenate_features d split_name.
Proof.
  intros ND Hperm. unfold load_and_concatenate_features.
  rewrite !(sorted_listing _ _
              (filter_listing _ _ _ (Permutation_map fst Hperm))).
  now rewrite !(map_ext _ _ (fun f => lookup_listing d d' f ND Hperm)).
Qed.

Lemma length_concat_perm {A : Type} (F : nat -> list A) (l l' : list nat) :
  Permutation l l' ->
  length (concat (map F l)) = length (concat (map F l')).
Proof.
  induction 1; cbn [map concat]; rewrite ?length_app; lia.
Qed.

Lemma feature_matrix_in_order (model : SimCLREncoder Img FeatMap)
  (loader : list (batch Img)) :
  feature_matrix_in flatten model loader (seq 0 (length loader))
  = feature_matrix flatten model loader.
Proof.
  unfold feature_matrix_in, feature_matrix. f_equal. symmetry.
  apply (map_nth_seq (fun b => agg model (images b))).
Qed.

Lemma label_vector_in_order (loader : list (batch Img)) :
  label_vector_in loader (seq 0 (length loader)) = label_vector loader.
Proof.
  unfold label_vector_in, label_vector. f_equal. symmetry.
  apply (map_nth_seq (fun b => fine_grained b)).
Qed.

(** With at most ten batches the shards come back in loader order. *)
Lemma load_small (model : SimCLREncoder Img FeatMap)
  (loader : list (batch Img)) (fs : directory) (split_name : string) :
  NoDup (map fst fs) -> fresh_for split_name fs ->
  1 <= length loader <= 10 ->
  load_and_concatenate_features
    (extract_features_and_labels flatten model loader fs split_name)
    split_name
  = Some (feature_matrix flatten model loader, label_vector loader).
Proof.
  intros ND Hfresh [Hlo Hhi].
  rewrite (load_after_extract model loader fs split_name
             (seq 0 (length loader)) ND Hfresh).
  - now rewrite feature_matrix_in_order, label_vector_in_order.
  - now apply sorted_suffixes_small.
  - intros i Hi. apply in_seq in Hi. lia.
  - destruct (length loader); [lia | discriminate].
Qed.

(** C3, as the code behaves.  Written to a directory that holds no shard
    of the split, the shards of [N >= 1] batches are read back, whatever
    the order in which the directory lists them, batch by batch in the
    string order of their unpadded indices, the same for features and
    labels, so the row counts are those written; with at most ten
    batches that order is the loader order and the matrices come back
    exactly. *)
Theorem shard_round_trip (model : SimCLREncoder Img FeatMap)
  (loader : list (batch Img)) (fs listing : directory)
  (split_name : string) :
  NoDup (map fst fs) -> fresh_for split_name fs ->
  1 <= length loader ->
  Permutation listing
    (extract_features_and_labels flatten model loader fs split_name) ->
  exists order,
    Permutation (seq 0 (length loader)) order
    /\ StronglySorted index_lt order
    /\ load_and_concatenate_features listing split_name
       = Some (feature_matrix_in flatten model loader order,
               label_vector_in loader order)
    /\ length (feature_matrix_in flatten model loader order)
       = length (feature_matrix flatten model loader)
    /\ length (label_vector_in loader order)
       = length (label_vector loader)
    /\ (length loader <= 10 ->
        order = seq 0 (length loader)
        /\ load_and_concatenate_features listing split_name
           = Some (feature_matrix flatten model loader,
                   label_vector loader)).
Proof.
  intros ND Hfresh HN Hlisting.
  pose proof (extract_nodup model loader fs split_name ND) as ND'.
  rewrite (load_listing _ _ split_name ND' Hlisting).
  destruct (sorted_suffixes_order (length loader))
    as (order & Hperm & Hsorted & E).
  exists order. split; [exact Hperm|]. split; [exact Hsorted|].
  split; [|split; [|split]].
  - apply load_after_extract; try assumption.
    + intros i Hi.
      apply (Permutation_in _ (Permutation_sym Hperm)), in_seq in Hi. lia.
    + intros ->. apply Permutation_length in Hperm.
      rewrite length_seq in Hperm. cbn in Hperm. lia.
  - rewrite <- feature_matrix_in_order. unfold feature_matrix_in.
    apply length_concat_perm. now apply Permutation_sym.
  - rewrite <- label_vector_in_order. unfold label_vector_in.
    apply length_concat_perm. now apply Permutation_sym.
  - intros Hhi. split; [|now apply load_small].
    rewrite sorted_suffixes_small in E by exact Hhi.
    clear - E. revert E. generalize (seq 0 (length loader)) as l.
    intros l. revert order.
    induction l as [|x l IH]; intros [|y order] E; try discriminate;
      [reflexivity|].
    cbn [map] in E. injection E as Exy E.
    apply shard_suffix_inj in Exy. subst. f_equal. now apply IH.
Qed.

(** C4. With a backbone that treats each image on its own and samples of
    [num_img] images each, every row of a persisted feature shard is the
    coordinate-wise mean of the backbone features of the sample's
    images; up to ten batches read back give one such row per sample,
    in order; the projection head plays no part. *)
Theorem extracted_rows_are_sample_means
  (model : SimCLREncoder Img FeatMap) (f : Img -> FeatMap)
  (loader : list (batch Img)) (fs : directory) (split_name : string) :
  (forall l, base model l = map f l) ->
  NoDup (map fst fs) -> fresh_for split_name fs ->
  Forall (fun b => Forall (fun s => length s = length (hd [] (images b)))
                     (images b)) loader ->
  let sample_mean := fun sample =>
    elementwise_mean (map (fun img => flatten (f img)) sample) in
  let fs' :=
    extract_features_and_labels flatten model loader fs split_name in
  (forall i, i < length loader ->
      lookup (features_name split_name i) fs'
      = Some (Features
                (map sample_mean (images (nth i loader no_batch)))))
  /\ (1 <= length loader <= 10 ->
      load_and_concatenate_features fs' split_name
      = Some (map sample_mean (concat (map images loader)),
              label_vector loader))
  /\ (forall head,
        extract_features_and_labels flatten
          {| base := base model; projection_head := head |}
          loader fs split_name
        = fs').
Proof.
  intros Hbase ND Hfresh Hshape sample_mean fs'.
  assert (Hagg : forall b, In b loader ->
                   agg model (images b) = map sample_mean (images b)).
  { intros b Hb. rewrite Forall_forall in Hshape.
    now apply aggregated_features_rows; [|apply Hshape]. }
  split; [|split].
  - intros i Hi. unfold fs'.
    rewrite lookup_feature_shard by assumption.
    now rewrite Hagg by now apply nth_In.
  - intros HN. unfold fs'. rewrite load_small by assumption.
    do 2 f_equal. unfold feature_matrix.
    rewrite (map_ext_in _ (fun b => map sample_mean (images b)) _ Hagg).
    rewrite <- (map_map images (map sample_mean)). now rewrite <- concat_map.
  - reflexivity.
Qed.

End Encoder.

(** *** Runs on small loaders *)

(** Twelve numbered batches written to an empty directory and listed
    backwards: the shards come back in the order 0, 1, 10, 11, 2, ...,
    9 of their names. *)
Lemma shard_round_trip_twelve_batches :
  let loader := numbered_loader 12 in
  let listing :=
    rev (extract_features_and_labels pixel_flatten pixel_encoder loader []
           "train") in
  exists order,
    Permutation (seq 0 (length loader)) order
    /\ StronglySorted index_lt order
    /\ load_and_concatenate_features listing "train"
       = Some (feature_matrix_in pixel_flatten pixel_encoder loader order,
               label_vector_in loader order)
    /\ length (feature_matrix_in pixel_flatten pixel_encoder loader order)
       = length (feature_matrix pixel_flatten pixel_encoder loader)
    /\ length (label_vector_in loader order)
       = length (label_vector loader)
    /\ (length loader <= 10 ->
        order = seq 0 (length loader)
        /\ load_and_concatenate_features listing "train"
           = Some (feature_matrix pixel_flatten pixel_encoder loader,
                   label_vector loader)).
Proof.
  intros loader listing.
  apply (shard_round_trip nat nat pixel_flatten pixel_encoder loader []
           listing "train").
  - constructor.
  - intros n [].
  - cbn. lia.
  - apply Permutation_sym, Permutation_rev.
Defined.

(** Eleven numbered batches: read back, the label of batch 10 comes
    third, so the label vector is not the one written. *)
Lemma eleven_batches_reordered :
  option_map snd
    (load_and_concatenate_features
       (extract_features_and_labels pixel_flatten pixel_encoder
          (numbered_loader 11) [] "train") "train")
  = Some [0; 1; 10; 2; 3; 4; 5; 6; 7; 8; 9]
  /\ load_and_concatenate_features
       (extract_features_and_labels pixel_flatten pixel_encoder
          (numbered_loader 11) [] "train") "train"
     <> Some (feature_matrix pixel_flatten pixel_encoder
                (numbered_loader 11),
              label_vector (numbered_loader 11)).
Proof.
  assert (E : option_map snd
                (load_and_concatenate_features
                   (extract_features_and_labels pixel_flatten pixel_encoder
                      (numbered_loader 11) [] "train") "train")
              = Some [0; 1; 10; 2; 3; 4; 5; 6; 7; 8; 9]).
  { rewrite (load_after_extract nat nat pixel_flatten pixel_encoder
               (numbered_loader 11) [] "train"
               [0; 1; 10; 2; 3; 4; 5; 6; 7; 8; 9]).
    - reflexivity.
    - constructor.
    - intros n [].
    - vm_compute. reflexivity.
    - intros i Hi. cbn in Hi. cbn. lia.
    - discriminate. }
  split; [exact E|]. intros H. rewrite H in E. cbn [option_map snd] in E.
  vm_compute in E. discriminate E.
Qed.

(** Three batches of two samples of four images: six rows come back, each
    the mean of the four features of its sample. *)
Lemma extracted_rows_three_batches :
  let sample_mean := fun sample =>
    elementwise_mean (map (fun img => pixel_flatten img) sample) in
  (length pixel_loader = 3
   /\ Forall (fun b => length (images b) = 2
                       /\ Forall (fun s => length s = 4) (images b))
        pixel_loader)
  /\ load_and_concatenate_features
       (extract_features_and_labels pixel_flatten pixel_encoder
          pixel_loader [] "test") "test"
     = Some (map sample_mean (concat (map images pixel_loader)),
             label_vector pixel_loader)
  /\ length (map sample_mean (concat (map images pixel_loader))) = 6.
Proof.
  intro sample_mean.
  split; [split; [reflexivity | repeat constructor]|].
  split; [|reflexivity].
  destruct (extracted_rows_are_sample_means nat nat pixel_flatten
              pixel_encoder (fun img => img) pixel_loader [] "test")
    as (_ & H & _).
  - intros l. symmetry. apply map_id.
  - constructor.
  - intros n [].
  - repeat constructor.
  - apply H. cbn. lia.
Defined.

(** *** Directories that already hold files *)

Section Reruns.
Variables Img FeatMap : Type.
Variable flatten : FeatMap -> list R.

Abbreviation agg' := (aggregated_features flatten).
Abbreviation body' := (extract_body flatten).

Lemma lookup_fold_other (model : SimCLREncoder Img FeatMap)
  (split_name : string) (ibs : list (nat * batch Img)) (n : string) :
  (forall i, In i (map fst ibs) ->
             n <> features_name split_name i
             /\ n <> labels_name split_name i) ->
  forall fs,
    lookup n (fold_left (body' model split_name) ibs fs) = lookup n fs.
Proof.
  induction ibs as [|[i b] ibs IH]; intros Hn fs; [reflexivity|].
  cbn [fold_left]. rewrite IH by (intros j Hj; apply Hn; now right).
  destruct (Hn i (or_introl eq_refl)) as [Hf Hl].
  unfold extract_body. now rewrite !lookup_write_other.
Qed.

Lemma filter_write_other (p : string -> bool) (name : string) (g : npy)
  (d : directory) :
  p name = false ->
  filter p (map fst (write_file name g d)) = filter p (map fst d).
Proof.
  intros Hp. induction d as [|[n' f'] d IH]; cbn [write_file map fst filter].
  - now rewrite Hp.
  - destruct (String.eqb_spec n' name) as [->|Hne]; cbn [map fst filter];
      [reflexivity | now rewrite IH].
Qed.

Lemma filter_fold_other (model : SimCLREncoder Img FeatMap)
  (split_name : string) (ibs : list (nat * batch Img))
  (p : string -> bool) :
  (forall i, p (features_name split_name i) = false
             /\ p (labels_name split_name i) = false) ->
  forall fs,
    filter p (map fst (fold_left (body' model split_name) ibs fs))
    = filter p (map fst fs).
Proof.
  intros Hp. induction ibs as [|[i b] ibs IH]; intros fs; [reflexivity|].
  cbn [fold_left]. rewrite IH. unfold extract_body.
  destruct (Hp i) as [Hf Hl]. now rewrite !filter_write_other.
Qed.

Lemma lookup_after_fold (model : SimCLREncoder Img FeatMap)
  (split_name : string) (ibs : list (nat * batch Img)) :
  NoDup (map fst ibs) ->
  forall fs i b,
    In (i, b) ibs ->
    lookup (features_name split_name i)
      (fold_left (body' model split_name) ibs fs)
    = Some (Features (agg' model (images b)))
    /\ lookup (labels_name split_name i)
         (fold_left (body' model split_name) ibs fs)
       = Some (Labels (fine_grained b)).
Proof.
  induction ibs as [|[j c] ibs IH]; intros ND fs i b Hin; [contradiction|].
  cbn [map fst] in ND. inversion ND as [|? ? Hnotin ND']; subst.
  cbn [fold_left]. destruct Hin as [E|Hin]; [|now apply IH].
  injection E as -> ->.
  assert (Hother : forall k, In k (map fst ibs) -> k <> i)
    by (intros k Hk ->; contradiction).
  split.
  - rewrite lookup_fold_other.
    + unfold extract_body.
      rewrite lookup_write_other
        by apply features_name_neq_labels.
      apply lookup_write_same.
    + intros k Hk. split.
      * intros E. apply features_name_inj in E. now apply (Hother k).
      * apply features_name_neq_labels.
  - rewrite lookup_fold_other.
    + unfold extract_body. apply lookup_write_same.
    + intros k Hk. split.
      * intros E. symmetry in E. now apply features_name_neq_labels in E.
      * intros E. apply labels_name_inj in E. now apply (Hother k).
Qed.

Lemma enumerate_nodup {A : Type} (l : list A) :
  NoDup (map fst (enumerate l)).
Proof. rewrite enumerate_indices. apply seq_NoDup. Qed.

(** Extraction touches the shard files of its own batches only: every
    other file reads as before. *)
Theorem extract_keeps_other_files (model : SimCLREncoder Img FeatMap)
  (loader : list (batch Img)) (fs : directory) (split_name n : string) :
  (forall i, i < length loader ->
             n <> features_name split_name i
             /\ n <> labels_name split_name i) ->
  lookup n (extract_features_and_labels flatten model loader fs split_name)
  = lookup n fs.
Proof.
  intros Hn. unfold extract_features_and_labels.
  apply lookup_fold_other. intros i Hi.
  rewrite enumerate_indices in Hi. apply in_seq in Hi. apply Hn. lia.
Qed.

Lemma lookup_unwritten (model : SimCLREncoder Img FeatMap)
  (loader : list (batch Img)) (fs : directory) (split_name n : string) :
  ~ In n (map (features_name split_name) (seq 0 (length loader))) ->
  ~ In n (map (labels_name split_name) (seq 0 (length loader))) ->
  lookup n (extract_features_and_labels flatten model loader fs split_name)
  = lookup n fs.
Proof.
  intros Hf Hl. unfold extract_features_and_labels.
  apply lookup_fold_other. intros i Hi. rewrite enumerate_indices in Hi.
  split; intros ->; [apply Hf | apply Hl]; now apply in_map.
Qed.

Lemma lookup_written (model : SimCLREncoder Img FeatMap)
  (loader : list (batch Img)) (fs : directory) (split_name : string)
  (i : nat) :
  i < length loader ->
  lookup (features_name split_name i)
    (extract_features_and_labels flatten model loader fs split_name)
  = Some (Features (agg' model (images (nth i loader no_batch))))
  /\ lookup (labels_name split_name i)
       (extract_features_and_labels flatten model loader fs split_name)
     = Some (Labels (fine_grained (nth i loader no_batch))).
Proof.
  intros Hi. unfold extract_features_and_labels.
  apply lookup_after_fold; [apply enumerate_nodup | now apply in_enumerate].
Qed.

(** A second extraction for the same split, on other batches (the loader
    reshuffled, another model): when it has at least as many batches as
    the first, every file reads as if the second run alone had been
    made, so that no row of the first run is left; when it has fewer,
    the shards of the first run beyond its last batch stay behind. *)
Theorem rerun_overwrites (model1 model2 : SimCLREncoder Img FeatMap)
  (loader1 loader2 : list (batch Img)) (fs : directory)
  (split_name : string) :
  let rerun :=
    extract_features_and_labels flatten model2 loader2
      (extract_features_and_labels flatten model1 loader1 fs split_name)
      split_name in
  (length loader1 <= length loader2 ->
   forall n,
     lookup n rerun
     = lookup n
         (extract_features_and_labels flatten model2 loader2 fs split_name))
  /\ (forall i,
        length loader2 <= i < length loader1 ->
        lookup (features_name split_name i) rerun
        = Some (Features (agg' model1 (images (nth i loader1 no_batch))))
        /\ lookup (labels_name split_name i) rerun
           = Some (Labels (fine_grained (nth i loader1 no_batch)))).
Proof.
  intros rerun. unfold rerun. split.
  - intros Hlen n.
    destruct (in_dec string_dec n
                (map (features_name split_name) (seq 0 (length loader2))))
      as [Hf|Hf].
    { apply in_map_iff in Hf as (i & <- & Hi). apply in_seq in Hi.
      destruct (lookup_written model2 loader2 fs split_name i) as [-> _];
        [lia|].
      now apply lookup_written. }
    destruct (in_dec string_dec n
                (map (labels_name split_name) (seq 0 (length loader2))))
      as [Hl|Hl].
    { apply in_map_iff in Hl as (i & <- & Hi). apply in_seq in Hi.
      destruct (lookup_written model2 loader2 fs split_name i) as [_ ->];
        [lia|].
      now apply lookup_written. }
    rewrite (lookup_unwritten model2 loader2 fs) by assumption.
    rewrite (lookup_unwritten model2 loader2) by assumption.
    apply lookup_unwritten.
    + intros H. apply Hf. apply in_map_iff in H as (i & <- & Hi).
      apply in_map, in_seq. apply in_seq in Hi. lia.
    + intros H. apply Hl. apply in_map_iff in H as (i & <- & Hi).
      apply in_map, in_seq. apply in_seq in Hi. lia.
  - intros i [Hlo Hhi].
    assert (Hf : forall k, features_name split_name i
                           = features_name split_name k -> k = i)
      by (intros k E; now apply features_name_inj in E).
    assert (Hl : forall k, labels_name split_name i
                           = labels_name split_name k -> k = i)
      by (intros k E; now apply labels_name_inj in E).
    rewrite !(lookup_unwritten model2).
    + now apply lookup_written.
    + intros H. apply in_map_iff in H as (k & E & Hk).
      now apply features_name_neq_labels in E.
    + intros H. apply in_map_iff in H as (k & E & Hk).
      symmetry in E. apply Hl in E. subst k. apply in_seq in Hk. lia.
    + intros H. apply in_map_iff in H as (k & E & Hk).
      symmetry in E. apply Hf in E. subst k. apply in_seq in Hk. lia.
    + intros H. apply in_map_iff in H as (k & E & Hk).
      symmetry in E. now apply features_name_neq_labels in E.
Qed.

(** Shards written for another split do not change what
    [load_and_concatenate_features] reads for this one. *)
Lemma load_frame (model : SimCLREncoder Img FeatMap)
  (loader : list (batch Img)) (fs : directory) (other split_name : string) :
  (forall i,
      startswith (features_name other i) (split_name ++ "_features_batch_")
      = false
      /\ startswith (labels_name other i) (split_name ++ "_features_batch_")
         = false) ->
  (forall i,
      startswith (features_name other i) (split_name ++ "_labels_batch_")
      = false
      /\ startswith (labels_name other i) (split_name ++ "_labels_batch_")
         = false) ->
  load_and_concatenate_features
    (extract_features_and_labels flatten model loader fs other) split_name
  = load_and_concatenate_features fs split_name.
Proof.
  intros Hf Hl. unfold load_and_concatenate_features,
    extract_features_and_labels.
  rewrite (filter_fold_other model other (enumerate loader)
             (fun f => startswith f (split_name ++ "_features_batch_")) Hf).
  rewrite (filter_fold_other model other (enumerate loader)
             (fun f => startswith f (split_name ++ "_labels_batch_")) Hl).
  assert (Ef : forall p (Hp : forall i,
                  p (features_name other i) = false
                  /\ p (labels_name other i) = false),
             map (fun f => lookup f
                    (fold_left (body' model other) (enumerate loader) fs))
               (sorted (filter p (map fst fs)))
             = map (fun f => lookup f fs) (sorted (filter p (map fst fs)))).
  { intros p Hp. apply map_ext_in. intros f Hin.
    apply (Permutation_in _ (sorted_perm _)), filter_In in Hin as [_ Hpf].
    apply lookup_fold_other. intros i _.
    destruct (Hp i) as [H1 H2].
    split; intros ->; congruence. }
  rewrite (Ef (fun f => startswith f (split_name ++ "_features_batch_")) Hf).
  now rewrite (Ef (fun f => startswith f (split_name ++ "_labels_batch_")) Hl).
Qed.

(** The order of the main program: the test shards, written after the
    train shards into the same directory, leave the train matrices as
    they read before, and the train shards leave the test matrices. *)
Theorem splits_do_not_interfere (model : SimCLREncoder Img FeatMap)
  (loader : list (batch Img)) (fs : directory) :
  load_and_concatenate_features
    (extract_features_and_labels flatten model loader fs "test") "train"
  = load_and_concatenate_features fs "train"
  /\ load_and_concatenate_features
       (extract_features_and_labels flatten model loader fs "train") "test"
     = load_and_concatenate_features fs "test".
Proof.
  split; apply load_frame; intros i; split; reflexivity.
Qed.

(** Without a feature shard of the split in the directory,
    [load_and_concatenate_features] raises. *)
Lemma load_no_feature_files (fs : directory) (split_name : string) :
  (forall n, In n (map fst fs) ->
             startswith n (split_name ++ "_features_batch_") = false) ->
  load_and_concatenate_features fs split_name = None.
Proof.
  intros H. unfold load_and_concatenate_features.
  now rewrite (filter_fresh split_name _ fs H).
Qed.

Theorem load_without_shards (fs : directory) (split_name : string) :
  (forall n, In n (map fst fs) ->
             startswith n (split_name ++ "_features_batch_") = false) ->
  load_and_concatenate_features fs split_name = None.
Proof.
  intros H. unfold load_and_concatenate_features.
  rewrite (filter_fresh split_name _ fs H). reflexivity.
Qed.

(** A test split of fewer than [BATCH] samples: the loader yields no
    batch, extraction writes nothing, and reading the test shards back
    raises. *)
Theorem small_split_cannot_be_loaded (model : SimCLREncoder Img FeatMap)
  (sampler : list (list Img * nat * nat) -> list (list Img * nat * nat))
  (train_set test_set : list (list Img * nat * nat)) (fs : directory) :
  length test_set < Loader.BATCH ->
  fresh_for "test" fs ->
  let loader :=
    map collate
      (Loader.iterate sampler
         (snd (Loader.eval_get_data_loaders train_set test_set))) in
  loader = []
  /\ extract_features_and_labels flatten model loader fs "test" = fs
  /\ load_and_concatenate_features
       (extract_features_and_labels flatten model loader fs "test") "test"
     = None.
Proof.
  intros Hlt Hfresh loader.
  assert (E : loader = []).
  { unfold loader, Loader.iterate.
    cbn [fst snd Loader.eval_get_data_loaders Loader.batch_size
           Loader.drop_last Loader.shuffle Loader.dataset].
    unfold Loader.batches. rewrite (Nat.div_small _ _ Hlt). cbn [seq map].
    now destruct (skipn (0 * Loader.BATCH) test_set). }
  rewrite E. split; [reflexivity|]. split; [reflexivity|].
  cbn [extract_features_and_labels enumerate length seq combine fold_left].
  unfold extract_features_and_labels. cbn.
  apply load_no_feature_files. intros n Hn. now apply Hfresh.
Qed.

(** When every batch carries one label per sample, the matrices read
    back have one label per feature row. *)
Theorem loaded_rows_have_labels (model : SimCLREncoder Img FeatMap)
  (loader : list (batch Img)) (fs : directory) (split_name : string)
  (features : list (list R)) (labels : list nat) :
  NoDup (map fst fs) -> fresh_for split_name fs ->
  Forall (fun b => length (images b) = length (fine_grained b)) loader ->
  load_and_concatenate_features
    (extract_features_and_labels flatten model loader fs split_name)
    split_name
  = Some (features, labels) ->
  length features = length labels.
Proof.
  intros ND Hfresh Hall Hload.
  assert (Hcase : loader = [] \/ 1 <= length loader)
    by (destruct loader; [now left | right; cbn; lia]).
  destruct Hcase as [->|Hne].
  { cbn in Hload. rewrite load_no_feature_files in Hload; [discriminate|].
    intros n Hn. now apply Hfresh. }
  destruct (sorted_suffixes_order (length loader))
    as (order & Hperm & _ & E).
  assert (Hlt : forall i, In i order -> i < length loader).
  { intros i Hi.
    apply (Permutation_in _ (Permutation_sym Hperm)), in_seq in Hi. lia. }
  rewrite (load_after_extract Img FeatMap flatten model loader fs split_name
             order ND Hfresh E Hlt) in Hload.
  2:{ intros ->. apply Permutation_length in Hperm.
      rewrite length_seq in Hperm. cbn in Hperm. lia. }
  injection Hload as <- <-.
  unfold feature_matrix_in, label_vector_in.
  clear E Hperm. induction order as [|i order IH]; [reflexivity|].
  cbn [map concat]. rewrite !length_app, IH
    by (intros j Hj; apply Hlt; now right).
  f_equal. unfold aggregated_features, Tensor.view3.
  rewrite !length_map, length_seq.
  rewrite Forall_forall in Hall. apply Hall, nth_In, Hlt. now left.
Qed.

End Reruns.

(** A notes file beside the shards of two batches. *)
Lemma extract_keeps_notes :
  lookup "notes.txt"
    (extract_features_and_labels pixel_flatten pixel_encoder
       (numbered_loader 2) [("notes.txt", Labels [7])] "train")
  = Some (Labels [7]).
Proof.
  apply (extract_keeps_other_files nat nat pixel_flatten pixel_encoder
           (numbered_loader 2) [("notes.txt", Labels [7])] "train"
           "notes.txt").
  intros i _. split; intros E.
  - pose proof (features_name_prefix "train" i) as H.
    rewrite <- E in H. discriminate H.
  - pose proof (labels_name_prefix "train" i) as H.
    rewrite <- E in H. discriminate H.
Defined.

(** A directory that holds test shards only has nothing to read for the
    train split. *)
Lemma load_train_from_test_shards :
  load_and_concatenate_features
    (extract_features_and_labels pixel_flatten pixel_encoder
       (numbered_loader 2) [] "test") "train"
  = None.
Proof.
  apply (load_without_shards
           (extract_features_and_labels pixel_flatten pixel_encoder
              (numbered_loader 2) [] "test") "train").
  intros n Hn. vm_compute in Hn.
  repeat (destruct Hn as [<-|Hn]; [reflexivity|]). contradiction.
Defined.

(** Five test samples. *)
Lemma five_samples_cannot_be_loaded :
  load_and_concatenate_features
    (extract_features_and_labels pixel_flatten pixel_encoder
       (map collate
          (Loader.iterate (fun l => l)
             (snd (Loader.eval_get_data_loaders []
                     (map (fun i => ([i], i, 0)) (seq 0 5))))))
       [] "test") "test"
  = None.
Proof.
  apply (small_split_cannot_be_loaded nat nat pixel_flatten pixel_encoder
           (fun l => l) [] (map (fun i => ([i], i, 0)) (seq 0 5)) []).
  - cbn. unfold Loader.BATCH. lia.
  - intros n [].
Defined.

(** The six feature rows of the pixel loader have six labels. *)
Lemma pixel_rows_have_labels :
  length (feature_matrix pixel_flatten pixel_encoder pixel_loader)
  = length (label_vector pixel_loader).
Proof.
  apply (loaded_rows_have_labels nat nat pixel_flatten pixel_encoder
           pixel_loader [] "test").
  - constructor.
  - intros n [].
  - repeat constructor.
  - apply load_small; [constructor | intros n [] | cbn; lia].
Defined.

End ExtractFacts.

(** ** Whole training runs *)

Module TrainRuns.
Import Py PyStr Fs FsFacts Checkpoint CheckpointFacts Train TrainFacts.
Import TensorFacts.

Section Runs.
Context {T : Torch}.
Variable Batch : Type.
Variable train_step :
  nat -> nat -> Batch -> Model * Optimizer -> Model * Optimizer.
Variable ddp_state_dict : Model -> StateDict.

Abbreviation train' := (Train.train Batch train_step ddp_state_dict).
Abbreviation body' := (Train.batch_body Batch train_step ddp_state_dict).

Lemma enumerate_fst {A : Type} (l : list A) :
  map fst (enumerate l) = seq 0 (length l).
Proof.
  unfold enumerate. generalize 0.
  induction l as [|x l IH]; intro s; cbn; [reflexivity | now rewrite IH].
Qed.

(** With no epoch left to run, or with a loader that yields nothing,
    [train] changes nothing and writes no checkpoint. *)
Theorem train_nothing_to_do (epochs start_epoch : nat)
  (train_loader : list Batch) (st : state) :
  epochs <= start_epoch \/ train_loader = [] ->
  train' epochs start_epoch train_loader st = st.
Proof.
  intros [H| ->]; unfold Train.train, range.
  - now replace (epochs - start_epoch) with 0 by lia.
  - cbn [enumerate length seq combine fold_left].
    induction (seq start_epoch (epochs - start_epoch)) as [|e es IH];
      [reflexivity | exact IH].
Qed.

Lemma body_scalars (len epoch : nat) (st : state) (ib : nat * Batch) :
  t_scalars (body' len epoch st ib)
  = t_scalars st ++ [epoch * len + fst ib].
Proof.
  destruct ib as [batch_idx images]. unfold Train.batch_body.
  now destruct (train_step epoch batch_idx images
                  (t_model st, t_optimizer st)).
Qed.

Lemma epoch_scalars (len epoch : nat) (ibs : list (nat * Batch)) :
  forall st,
    t_scalars (fold_left (body' len epoch) ibs st)
    = t_scalars st ++ map (fun ib => epoch * len + fst ib) ibs.
Proof.
  induction ibs as [|ib ibs IH]; intros st; cbn [fold_left map].
  - now rewrite app_nil_r.
  - now rewrite IH, body_scalars, <- app_assoc.
Qed.

(** The global steps handed to the scalar writer are consecutive: a run
    from [start_epoch] adds the steps from [start_epoch * len] on, one
    per batch. *)
Theorem train_scalars (epochs start_epoch : nat) (train_loader : list Batch)
  (st : state) :
  t_scalars (train' epochs start_epoch train_loader st)
  = t_scalars st
    ++ seq (start_epoch * length train_loader)
         ((epochs - start_epoch) * length train_loader).
Proof.
  unfold Train.train, range.
  generalize (epochs - start_epoch) as n. intros n.
  revert start_epoch st.
  induction n as [|n IH]; intros s st; cbn [seq fold_left].
  - cbn. now rewrite app_nil_r.
  - rewrite IH, epoch_scalars, <- app_assoc. f_equal.
    rewrite <- (map_map fst (Nat.add (s * length train_loader))).
    rewrite enumerate_fst, map_add_seq, Nat.add_0_r.
    replace (S n * length train_loader)
      with (length train_loader + n * length train_loader) by lia.
    rewrite seq_app. do 2 f_equal. lia.
Qed.

Lemma length_iterations (epochs start_epoch : nat)
  (train_loader : list Batch) :
  length (iterations Batch epochs start_epoch train_loader)
  = (epochs - start_epoch) * length train_loader.
Proof.
  unfold iterations, range. generalize (epochs - start_epoch) as n.
  intros n. revert start_epoch.
  induction n as [|n IH]; intros s; cbn [seq flat_map]; [reflexivity|].
  rewrite length_app, IH, length_map.
  unfold enumerate. rewrite length_combine, length_seq. lia.
Qed.

(** *** The files of a run *)

Lemma names_write_existing {F : Type} (d : list (String.string * F))
  (name : String.string) (g : F) :
  In name (map fst d) -> map fst (write_file name g d) = map fst d.
Proof.
  induction d as [|[n' f'] d IH]; cbn [write_file map fst In];
    [contradiction|].
  destruct (String.eqb_spec n' name) as [->|Hne]; [reflexivity|].
  intros [E|Hin]; [contradiction|]. cbn [map fst]. now rewrite IH.
Qed.

Lemma body_keeps_names (len epoch : nat) (st : state) (ib : nat * Batch) :
  In (checkpoint_name epoch) (map fst (dir_of (t_fs st))) ->
  map fst (dir_of (t_fs (body' len epoch st ib)))
  = map fst (dir_of (t_fs st)).
Proof.
  intros Hin. destruct ib as [batch_idx images]. unfold Train.batch_body.
  destruct (train_step epoch batch_idx images (t_model st, t_optimizer st))
    as [m o].
  cbn [t_fs]. destruct (batch_idx mod 100 =? 0); [|reflexivity].
  unfold save_checkpoint. cbn [dir_of]. fold (dir_of (t_fs st)).
  now apply names_write_existing.
Qed.

Lemma rest_of_epoch_keeps_names (len epoch : nat)
  (ibs : list (nat * Batch)) :
  forall st,
    In (checkpoint_name epoch) (map fst (dir_of (t_fs st))) ->
    map fst (dir_of (t_fs (fold_left (body' len epoch) ibs st)))
    = map fst (dir_of (t_fs st)).
Proof.
  induction ibs as [|ib ibs IH]; intros st Hin; [reflexivity|].
  cbn [fold_left].
  pose proof (body_keeps_names len epoch st ib Hin) as E.
  rewrite IH; [exact E | now rewrite E].
Qed.

Lemma first_batch_adds_name (len epoch : nat) (st : state)
  (images : Batch) :
  ~ In (checkpoint_name epoch) (map fst (dir_of (t_fs st))) ->
  map fst (dir_of (t_fs (body' len epoch st (0, images))))
  = map fst (dir_of (t_fs st)) ++ [checkpoint_name epoch].
Proof.
  intros Hnotin. unfold Train.batch_body.
  destruct (train_step epoch 0 images (t_model st, t_optimizer st))
    as [m o].
  cbn [t_fs]. change (0 mod 100 =? 0) with true. cbv iota.
  unfold save_checkpoint. cbn [dir_of]. fold (dir_of (t_fs st)).
  rewrite write_file_fresh by assumption. now rewrite map_app.
Qed.

Lemma epoch_adds_name (epoch : nat) (train_loader : list Batch)
  (st : state) :
  train_loader <> [] ->
  ~ In (checkpoint_name epoch) (map fst (dir_of (t_fs st))) ->
  map fst (dir_of (t_fs (fold_left (body' (length train_loader) epoch)
                            (enumerate train_loader) st)))
  = map fst (dir_of (t_fs st)) ++ [checkpoint_name epoch].
Proof.
  intros Hne Hnotin. destruct train_loader as [|x rest]; [contradiction|].
  unfold enumerate. cbn [length seq combine fold_left].
  pose proof (first_batch_adds_name (S (length rest)) epoch st x Hnotin)
    as E.
  rewrite rest_of_epoch_keeps_names; [exact E|].
  rewrite E. apply in_or_app. right. now left.
Qed.

Lemma epochs_add_names (train_loader : list Batch) (es : list nat) :
  train_loader <> [] -> NoDup es ->
  forall st done,
    map fst (dir_of (t_fs st)) = map checkpoint_name done ->
    (forall e, In e es -> ~ In e done) ->
    map fst (dir_of (t_fs
      (fold_left
         (fun st epoch =>
            fold_left (body' (length train_loader) epoch)
              (enumerate train_loader) st) es st)))
    = map checkpoint_name (done ++ es).
Proof.
  intros Hne ND. induction ND as [|e es Hnotin ND IH]; intros st done Hd Hfresh.
  - cbn. now rewrite app_nil_r.
  - cbn [fold_left].
    rewrite (IH _ (done ++ [e])).
    + now rewrite <- app_assoc.
    + rewrite epoch_adds_name; [now rewrite Hd, map_app | exact Hne |].
      rewrite Hd. intros Hin. apply in_map_iff in Hin as (e' & E & He').
      apply checkpoint_name_inj in E. subst e'.
      now apply (Hfresh e (or_introl eq_refl)).
    + intros e' He' Hin. apply in_app_or in Hin as [Hin|[->|[]]].
      * now apply (Hfresh e' (or_intror He')).
      * contradiction.
Qed.

(** A run that starts without a checkpoint directory leaves exactly one
    file per epoch it went through, in epoch order, however many batches
    an epoch has; the file of epoch [e] stores the epoch value
    [e + 1]. *)
Theorem train_files (epochs start_epoch : nat) (train_loader : list Batch)
  (st : state) :
  train_loader <> [] -> t_fs st = None ->
  let d := dir_of (t_fs (train' epochs start_epoch train_loader st)) in
  map fst d = map checkpoint_name (range start_epoch epochs)
  /\ forall e, In e (range start_epoch epochs) ->
       exists c, lookup (checkpoint_name e) d = Some (Pickle c)
                 /\ ck_epoch c = Some (e + 1).
Proof.
  intros Hne Hfs d.
  assert (Hnames : map fst d = map checkpoint_name (range start_epoch epochs)).
  { unfold d, Train.train.
    rewrite (epochs_add_names train_loader (range start_epoch epochs)
               Hne (seq_NoDup _ _) st []);
      [reflexivity | now rewrite Hfs | intros e _ []]. }
  split; [exact Hnames|]. intros e He.
  assert (Hinv : written_up_to ddp_state_dict epochs
                   (t_fs (train' epochs start_epoch train_loader st))).
  { rewrite train_as_run. apply run_written_up_to; [|now rewrite Hfs].
    intros it Hit. unfold iterations, range in Hit.
    apply in_flat_map in Hit as (ep & Hep & Hin).
    apply in_seq in Hep. apply in_map_iff in Hin as (x & <- & _).
    cbn [fst]. lia. }
  assert (Hin : In (checkpoint_name e) (map fst d))
    by (rewrite Hnames; now apply in_map).
  unfold d in *.
  destruct (t_fs (train' epochs start_epoch train_loader st)) as [d'|];
    [|contradiction].
  cbn [dir_of] in *. destruct Hinv as [ND Hall].
  apply in_map_iff in Hin as ([n f] & Hn & Hin). cbn [fst] in Hn. subst n.
  destruct (Hall _ _ Hin) as (e' & m & o & _ & E & ->).
  apply checkpoint_name_inj in E. subst e'.
  eexists. split; [apply lookup_in; [exact ND | exact Hin]|]. reflexivity.
Qed.

(** Restarting a run that has finished: the module rejects the
    wrapper's dictionary of the last file, [load_checkpoint] returns 0
    and the restarted loop runs all [epochs] epochs again, on the
    batches [restart_loader] it draws. *)
Theorem restart_after_completed_run (checkpoint_dir : String.string)
  (epochs start_epoch : nat) (train_loader restart_loader : list Batch)
  (st : state) (w : world) :
  start_epoch < epochs -> train_loader <> [] ->
  written_up_to ddp_state_dict (epochs - 1) (t_fs st) ->
  (forall m0,
      exists ex m',
        load_state_dict (w_model w) (ddp_state_dict m0) = Raised ex m') ->
  let fs := t_fs (train' epochs start_epoch train_loader st) in
  fst (load_checkpoint checkpoint_dir fs w) = inr 0
  /\ resumed_iterations Batch checkpoint_dir epochs restart_loader fs w
     = iterations Batch epochs 0 restart_loader
  /\ length (resumed_iterations Batch checkpoint_dir epochs restart_loader
               fs w)
     = epochs * length restart_loader.
Proof.
  intros Hlt Hne Hinit Hreject fs. unfold fs.
  rewrite train_as_run.
  destruct train_loader as [|x rest] eqn:El; [contradiction|].
  rewrite <- El in *.
  destruct (restart_after_run Batch train_step ddp_state_dict checkpoint_dir
              (length train_loader) (epochs - 1) epochs x
              (iterations Batch epochs start_epoch train_loader)
              restart_loader st w Hinit) as (_ & (ex & m' & Hload) & Hres);
    try assumption.
  - unfold iterations, range. apply in_flat_map. exists (epochs - 1).
    split; [apply in_seq; lia|]. rewrite El. now left.
  - intros it Hit. unfold iterations, range in Hit.
    apply in_flat_map in Hit as (ep & Hep & Hin).
    apply in_seq in Hep. apply in_map_iff in Hin as (y & <- & _).
    cbn [fst]. lia.
  - split; [now rewrite Hload|]. split; [exact Hres|].
    rewrite Hres, length_iterations. now rewrite Nat.sub_0_r.
Qed.

End Runs.

Lemma train_nothing_to_do_small :
  Train.train nat small_step small_ddp 2 2 [10; 11; 12] small_start
  = small_start.
Proof.
  apply (train_nothing_to_do nat small_step small_ddp 2 2 [10; 11; 12]
           small_start).
  left. lia.
Defined.

(** Two epochs of three batches on the small encoder. *)
Lemma train_files_small :
  map fst (dir_of (t_fs (Train.train nat small_step small_ddp 2 0
                           [10; 11; 12] small_start)))
  = map checkpoint_name [0; 1].
Proof.
  apply (train_files nat small_step small_ddp 2 0 [10; 11; 12] small_start);
    [discriminate | reflexivity].
Defined.

Lemma restart_after_completed_run_small :
  resumed_iterations nat sample_dir 2 [12; 10; 11]
    (t_fs (Train.train nat small_step small_ddp 2 0 [10; 11; 12]
             small_start))
    (small_world [0; 0; 0] 0 [])
  = iterations nat 2 0 [12; 10; 11].
Proof.
  apply (restart_after_completed_run nat small_step small_ddp sample_dir 2 0
           [10; 11; 12] [12; 10; 11] small_start
           (small_world [0; 0; 0] 0 [])).
  - lia.
  - discriminate.
  - exact I.
  - intros m0. apply (strict_load_rejects_wrapper nat small_arch).
    now unfold small_arch.
Defined.

End TrainRuns.

(** ** Evaluation runs *)

Module EvalRuns.
Import String.
Import Datatypes List.
Import Py PyStr PyStrFacts Fs Extract ExtractFacts Eval.
Local Open Scope string_scope.

(** *** Computations that raise *)

Lemma fails_bind_l {A B : Type} (c : M A) (k : A -> M B) :
  fails c -> fails (bind c k).
Proof.
  intros Hc tr. unfold bind. destruct (Hc tr) as [e E].
  destruct (c tr) as [[e'|a] tr1]; cbn [fst] in E; [|discriminate].
  now exists e'.
Qed.

Lemma fails_bind_r {A B : Type} (c : M A) (k : A -> M B) :
  (forall a, fails (k a)) -> fails (bind c k).
Proof.
  intros Hk tr. unfold bind.
  destruct (c tr) as [[e|a] tr1]; [now exists e | apply Hk].
Qed.

Lemma fails_raise {A : Type} (e : exn) : fails (@raise A e).
Proof. intros tr. now exists e. Qed.

(** *** Computations that raise at their first classifier call *)

Lemma raises_within_raise {A : Type} (e : exn) : raises_within (@raise A e).
Proof.
  intros tr. exists e, []. rewrite app_nil_r. split; [reflexivity | now left].
Qed.

Lemma raises_within_load_features {B : Type} (d : directory) (f : string)
  (k : list (list R) -> M B) :
  (forall rows, raises_within (k rows)) ->
  raises_within (bind (load_features d f) k).
Proof.
  intros Hk tr. unfold bind, load_features.
  destruct (lookup f d) as [[rows|ids]|];
    [apply Hk | apply raises_within_raise..].
Qed.

Lemma raises_within_load_labels {B : Type} (d : directory) (f : string)
  (k : list nat -> M B) :
  (forall ids, raises_within (k ids)) ->
  raises_within (bind (load_labels d f) k).
Proof.
  intros Hk tr. unfold bind, load_labels.
  destruct (lookup f d) as [[rows|ids]|];
    [apply raises_within_raise | apply Hk | apply raises_within_raise].
Qed.

(** A call announced by [ev] that raises. *)
Lemma raises_within_call {A B : Type} (ev : event) (r : exn + A)
  (k : A -> M B) :
  classifier_call ev -> (exists e, r = inl e) ->
  raises_within (bind (emit ev) (fun _ => bind (lift r) k)).
Proof.
  intros Hev [e ->] tr. exists e, [ev]. split; [reflexivity|].
  right. now exists ev.
Qed.

Lemma raises_within_bind_l {A B : Type} (c : M A) (k : A -> M B) :
  raises_within c -> raises_within (bind c k).
Proof.
  intros Hc tr. destruct (Hc tr) as (e & mid & E & Hmid).
  exists e, mid. unfold bind. now rewrite E.
Qed.

Lemma raises_within_ret {A B : Type} (a : A) (k : A -> M B) :
  raises_within (k a) -> raises_within (bind (ret a) k).
Proof. intros H tr. exact (H tr). Qed.

Section Classifiers.
Variables SGDClassifier KNeighborsClassifier : Type.
Variable sgd_new : SGDClassifier.
Variable partial_fit :
  SGDClassifier -> list (list R) -> list nat -> exn + SGDClassifier.
Variable sgd_predict : SGDClassifier -> list (list R) -> exn + list nat.
Variable knn_new : KNeighborsClassifier.
Variable knn_fit :
  KNeighborsClassifier -> list (list R) -> list nat
  -> exn + KNeighborsClassifier.
Variable knn_predict :
  KNeighborsClassifier -> list (list R) -> exn + list nat.
Variable compute_metrics : list nat -> list nat -> exn + unit.
Variable savefig : string -> exn + unit.

Abbreviation evaluate :=
  (evaluate_model_incremental SGDClassifier KNeighborsClassifier
     sgd_new partial_fit sgd_predict knn_new knn_fit knn_predict
     compute_metrics savefig).
Abbreviation fit := (fit_incrementally SGDClassifier partial_fit).
Abbreviation predict := (predict_incrementally SGDClassifier sgd_predict).

(** Without a test feature shard the evaluation raises, whatever the
    classifier type: no metric is ever computed on an empty test set. *)
Theorem evaluate_without_test_shards
  (train_features_dir train_labels_dir test_features_dir
     test_labels_dir : directory)
  (save_dir classifier_type : string) (tr : list event) :
  (forall n, In n (map fst test_features_dir) ->
             startswith n "test_features_batch_" = false) ->
  exists e,
    fst (evaluate train_features_dir train_labels_dir test_features_dir
           test_labels_dir save_dir classifier_type tr) = inl e.
Proof.
  intros Hnone. unfold evaluate_model_incremental.
  apply fails_bind_l.
  destruct (String.eqb classifier_type "logistic").
  - cbv zeta. apply fails_bind_r. intros classifier.
    assert (E : shard_files test_features_dir "test_features_batch_" = []).
    { unfold shard_files.
      now rewrite (filter_fresh "" "test_features_batch_" test_features_dir
                     Hnone). }
    rewrite E. cbn [combine predict_incrementally].
    intros tr'. now exists (ValueError "need at least one array to concatenate").
  - destruct (String.eqb classifier_type "knn"); [|apply fails_raise].
    apply fails_bind_r. intros train. apply fails_bind_l.
    unfold load_all.
    rewrite (load_no_feature_files test_features_dir "test" Hnone).
    apply fails_raise.
Qed.

(** A loop whose first classifier call raises. *)
Lemma fit_first_call_raises (features_dir labels_dir : directory)
  (ff lf : string) (files : list (string * string)) :
  (forall features labels,
      exists e, partial_fit sgd_new features labels = inl e) ->
  raises_within (fit features_dir labels_dir sgd_new ((ff, lf) :: files)).
Proof.
  intros Hfit. cbn [fit_incrementally].
  apply raises_within_load_features. intros features.
  apply raises_within_load_labels. intros labels.
  apply raises_within_call; [exact I | apply Hfit].
Qed.

Lemma predict_first_call_raises (features_dir labels_dir : directory)
  (ff lf : string) (files : list (string * string)) :
  (forall features, exists e, sgd_predict sgd_new features = inl e) ->
  raises_within
    (predict features_dir labels_dir sgd_new ((ff, lf) :: files)).
Proof.
  intros Hpredict. cbn [predict_incrementally].
  apply raises_within_load_features. intros features.
  apply raises_within_load_labels. intros labels.
  apply raises_within_call; [exact I | apply Hpredict].
Qed.

(** With scikit-learn's treatment of a classifier that was never fitted
    ([partial_fit] without [classes] raises on the first call, and
    [predict] raises before any fit), the "logistic" evaluation raises
    on every input.  It makes at most one classifier call, the one that
    raises, and it computes no metric and saves no plot. *)
Theorem logistic_evaluation_raises
  (train_features_dir train_labels_dir test_features_dir
     test_labels_dir : directory)
  (save_dir : string) (tr : list event) :
  (forall features labels,
      exists e, partial_fit sgd_new features labels = inl e) ->
  (forall features, exists e, sgd_predict sgd_new features = inl e) ->
  exists e mid,
    evaluate train_features_dir train_labels_dir test_features_dir
      test_labels_dir save_dir "logistic" tr
    = (inl e, (tr ++ mid)%list)
    /\ (mid = [] \/ exists ev, mid = [ev] /\ classifier_call ev).
Proof.
  intros Hfit Hpredict. revert tr.
  change (raises_within
            (evaluate train_features_dir train_labels_dir test_features_dir
               test_labels_dir save_dir "logistic")).
  unfold evaluate_model_incremental.
  change (String.eqb "logistic" "logistic") with true. cbv iota zeta.
  apply raises_within_bind_l.
  destruct (combine (shard_files train_features_dir "train_features_batch_")
              (shard_files train_labels_dir "train_labels_batch_"))
    as [|[ff lf] files].
  - cbn [fit_incrementally]. apply raises_within_ret.
    destruct (combine (shard_files test_features_dir "test_features_batch_")
                (shard_files test_labels_dir "test_labels_batch_"))
      as [|[ff lf] files].
    + cbn [predict_incrementally]. apply raises_within_ret.
      cbn [fst concatenate]. apply raises_within_bind_l.
      apply raises_within_raise.
    + apply raises_within_bind_l. now apply predict_first_call_raises.
  - apply raises_within_bind_l. now apply fit_first_call_raises.
Qed.

End Classifiers.

(** An evaluation over empty directories. *)
Lemma evaluate_empty_directories :
  exists e,
    fst (evaluate_model_incremental unit unit tt (fun c _ _ => inr c)
           (fun _ _ => inr []) tt (fun c _ _ => inr c) (fun _ _ => inr [])
           (fun _ _ => inr tt) (fun _ => inr tt)
           [] [] [] [] "results" "logistic" []) = inl e.
Proof.
  apply (evaluate_without_test_shards unit unit tt (fun c _ _ => inr c)
           (fun _ _ => inr []) tt (fun c _ _ => inr c) (fun _ _ => inr [])
           (fun _ _ => inr tt) (fun _ => inr tt)
           [] [] [] [] "results" "logistic" []).
  intros n [].
Defined.

(** A classifier that records whether it was fitted, on a directory
    with one train shard pair and one test shard pair: the run stops at
    the first [partial_fit]. *)
Lemma logistic_evaluation_one_shard :
  let d :=
    [("train_features_batch_0.npy", Features [[1%R]; [2%R]]);
     ("train_labels_batch_0.npy", Labels [3; 7]);
     ("test_features_batch_0.npy", Features [[1%R]; [2%R]]);
     ("test_labels_batch_0.npy", Labels [3; 7])] in
  exists e mid,
    evaluate_model_incremental bool unit false
      (fun fitted _ _ =>
         if fitted then inr true
         else inl (ValueError
                     "classes must be passed on the first call to partial_fit."))
      (fun fitted rows =>
         if fitted then inr (map (fun _ => 7) rows)
         else inl (ValueError "This SGDClassifier instance is not fitted yet."))
      tt (fun c _ _ => inr c) (fun _ _ => inr [])
      (fun _ _ => inr tt) (fun _ => inr tt)
      d d d d "results" "logistic" []
    = (inl e, ([] ++ mid)%list)
    /\ (mid = [] \/ exists ev, mid = [ev] /\ classifier_call ev).
Proof.
  intros d.
  apply (logistic_evaluation_raises bool unit false
           (fun fitted _ _ =>
              if fitted then inr true
              else inl (ValueError
                          "classes must be passed on the first call to partial_fit."))
           (fun fitted rows =>
              if fitted then inr (map (fun _ => 7) rows)
              else inl (ValueError
                          "This SGDClassifier instance is not fitted yet."))
           tt (fun c _ _ => inr c) (fun _ _ => inr [])
           (fun _ _ => inr tt) (fun _ => inr tt)
           d d d d "results" []).
  - intros features labels. eexists. reflexivity.
  - intros features. eexists. reflexivity.
Defined.

End EvalRuns.
